(** * A shallow embedding of the chess rules engine (types/chess.ts, utils/chessLogic.ts)

    The engine is a set of TypeScript functions over a board
    [(ChessPiece | null)[][]] and a [GameState] record.  Numbers are
    modelled by [Z].  Every array access of the source is written out
    with JavaScript's behaviour: reading [board[r][c]] throws a
    [TypeError] when [board[r]] is [undefined] and yields [undefined]
    when only the column is out of range; writing past the end of a row
    extends it with holes.  Functions that can throw live in the error
    monad [Exc].  The two captured-piece arrays are the only objects the
    engine mutates in place ([push]); they live in an explicit store so
    that sharing between successive states is visible. *)

From Stdlib Require Import ZArith Lia Ascii String.
From stdpp Require Import base option list list_numbers strings.

Local Open Scope Z_scope.

(** ** Data model (types/chess.ts) *)

Inductive PieceType := pawn | rook | knight | bishop | queen | king.
Inductive PieceColor := white | black.
Inductive GameStatus := active | check | checkmate | stalemate | draw.

Record ChessPiece := { type : PieceType; color : PieceColor }.

Record Position := { row : Z; col : Z }.

Record Move := {
  from : Position;
  to : Position;
  piece : ChessPiece;
  capturedPiece : option ChessPiece;
  notation : string;
  timestamp : Z;
  isCheck : option bool;
  isCheckmate : option bool;
  isCastling : option bool;
  isEnPassant : option bool;
  promotionPiece : option PieceType
}.

Record CastlingRights := {
  whiteKingSide : bool;
  whiteQueenSide : bool;
  blackKingSide : bool;
  blackQueenSide : bool
}.

(** A board slot as JavaScript sees it.  [Null] and [Occ] are the two
    values of the declared type [ChessPiece | null]; [Undefined] and
    [Hole] only arise on arrays that are not 8 wide. *)
Inductive Slot := Hole | Undefined | Null | Occ (p : ChessPiece).

Abbreviation Board := (list (list Slot)).

(** The captured-piece arrays are heap objects: a state holds
    references to them, the store holds their contents. *)
Definition Ref := nat.
Abbreviation Store := (list (list ChessPiece)).

Record CapturedPieces := { cwhite : Ref; cblack : Ref }.

Record GameState := {
  board : Board;
  currentPlayer : PieceColor;
  status : GameStatus;
  moveHistory : list Move;
  capturedPieces : CapturedPieces;
  castlingRights : CastlingRights;
  enPassantTarget : option Position;
  halfMoveClock : Z;
  fullMoveNumber : Z
}.

Global Instance PieceType_eq_dec : EqDecision PieceType.
Proof. solve_decision. Defined.
Global Instance PieceColor_eq_dec : EqDecision PieceColor.
Proof. solve_decision. Defined.
Global Instance GameStatus_eq_dec : EqDecision GameStatus.
Proof. solve_decision. Defined.
Global Instance ChessPiece_eq_dec : EqDecision ChessPiece.
Proof. solve_decision. Defined.
Global Instance Position_eq_dec : EqDecision Position.
Proof. solve_decision. Defined.
Global Instance Slot_eq_dec : EqDecision Slot.
Proof. solve_decision. Defined.

(** ** The error monad: a call either returns or throws a TypeError *)

Inductive Exc (A : Type) := Ok (a : A) | Throw.
Arguments Ok {A} a.
Arguments Throw {A}.

Definition bindExc {A B} (m : Exc A) (f : A → Exc B) : Exc B :=
  match m with Ok a => f a | Throw => Throw end.

Declare Scope exc_scope.
Delimit Scope exc_scope with exc.
Notation "x ← y ; z" := (bindExc y (λ x, z))
  (at level 20, y at level 100, z at level 200, only parsing) : exc_scope.
Local Open Scope exc_scope.

(** [for (x of l) { ... return r ... }]: the body either returns from the
    enclosing function ([Some r]) or falls through to the next round. *)
Fixpoint forReturn {A R} (body : A → Exc (option R)) (l : list A) : Exc (option R) :=
  match l with
  | [] => Ok None
  | x :: rest =>
      r ← body x;
      match r with
      | Some v => Ok (Some v)
      | None => forReturn body rest
      end
  end.

(** [for (x of l) moves.push(...body x)]: results are appended in order. *)
Fixpoint forPush {A B} (body : A → Exc (list B)) (l : list A) : Exc (list B) :=
  match l with
  | [] => Ok []
  | x :: rest =>
      ms ← body x;
      more ← forPush body rest;
      Ok (ms ++ more)
  end.

(** [moves.filter(p)] for a predicate that may throw. *)
Fixpoint filterM {A} (p : A → Exc bool) (l : list A) : Exc (list A) :=
  match l with
  | [] => Ok []
  | x :: rest =>
      keep ← p x;
      more ← filterM p rest;
      Ok (if keep then x :: more else more)
  end.

(** [arr.every(p)]: stops at the first element that fails. *)
Fixpoint everyM {A} (p : A → Exc bool) (l : list A) : Exc bool :=
  match l with
  | [] => Ok true
  | x :: rest =>
      ok ← p x;
      if ok then everyM p rest else Ok false
  end.

(** ** Array access *)

(** [l[i]] for a JavaScript array: [None] stands for [undefined]. *)
Definition index {A} (l : list A) (i : Z) : option A :=
  if decide (0 ≤ i) then l !! Z.to_nat i else None.

(** [board[r][c]] *)
Definition readCell (b : Board) (r c : Z) : Exc Slot :=
  match index b r with
  | None => Throw
  | Some cells =>
      Ok (match index cells c with
          | Some Hole | None => Undefined
          | Some v => v
          end)
  end.

Definition at_ (b : Board) (p : Position) : Exc Slot := readCell b (row p) (col p).

(** [cells[c] = v]: inside the row the slot is replaced; past the end the
    row grows, the gap being holes; a negative [c] sets a property that
    no indexed read of the engine looks at again. *)
Definition writeRow (cells : list Slot) (c : Z) (v : Slot) : list Slot :=
  if decide (c < 0) then cells
  else if decide (Z.to_nat c < length cells)%nat then <[Z.to_nat c := v]> cells
  else cells ++ replicate (Z.to_nat c - length cells) Hole ++ [v].

(** [board[r][c] = v] *)
Definition writeCell (b : Board) (r c : Z) (v : Slot) : Exc Board :=
  match index b r with
  | None => Throw
  | Some cells => Ok (<[Z.to_nat r := writeRow cells c v]> b)
  end.

(** [[...row]]: the spread turns holes into [undefined]. *)
Definition spreadRow (cells : list Slot) : list Slot :=
  (λ s, match s with Hole => Undefined | _ => s end) <$> cells.

(** [board.map(row => [...row])] *)
Definition copyBoard (b : Board) : Board := spreadRow <$> b.

(** JavaScript truthiness and comparisons on a slot. *)
Definition isNull (s : Slot) : bool := match s with Null => true | _ => false end.
Definition truthy (s : Slot) : bool := match s with Occ _ => true | _ => false end.

(** [s.color]: a property access, which throws on [undefined]. *)
Definition colorOf (s : Slot) : Exc PieceColor :=
  match s with Occ p => Ok (color p) | _ => Throw end.

Definition opponent (c : PieceColor) : PieceColor :=
  match c with white => black | black => white end.

(** ** Initial position *)

Definition pieceOrder : list PieceType :=
  [rook; knight; bishop; queen; king; bishop; knight; rook].

Definition createInitialBoard : Board :=
  let back c := (λ t, Occ {| type := t; color := c |}) <$> pieceOrder in
  let pawns c := replicate 8 (Occ {| type := pawn; color := c |}) in
  let empty := replicate 8 Null in
  [back black; pawns black; empty; empty; empty; empty; pawns white; back white].

(** [capturedPieces: { white: [], black: [] }] allocates two arrays. *)
Definition createInitialGameState (h : Store) : Store * GameState :=
  (h ++ [[]; []],
   {| board := createInitialBoard;
      currentPlayer := white;
      status := active;
      moveHistory := [];
      capturedPieces := {| cwhite := length h; cblack := S (length h) |};
      castlingRights := {| whiteKingSide := true; whiteQueenSide := true;
                           blackKingSide := true; blackQueenSide := true |};
      enPassantTarget := None;
      halfMoveClock := 0;
      fullMoveNumber := 1 |}).

(** ** Position helpers *)

Definition isValidPosition (pos : Position) : bool :=
  (0 <=? row pos) && (row pos <? 8) && (0 <=? col pos) && (col pos <? 8).

Definition positionsEqual (pos1 pos2 : Position) : bool :=
  (row pos1 =? row pos2) && (col pos1 =? col pos2).

Definition colorEq (c1 c2 : PieceColor) : bool := bool_decide (c1 = c2).
Definition typeEq (t1 t2 : PieceType) : bool := bool_decide (t1 = t2).

(** ** Pseudo-legal move generators *)

Definition getPawnMoves (b : Board) (from : Position) (c : PieceColor)
    (enPassantTarget : option Position) : Exc (list Position) :=
  let direction := match c with white => -1 | black => 1 end in
  let startRow := match c with white => 6 | black => 1 end in
  (* Forward move *)
  let oneForward := {| row := row from + direction; col := col from |} in
  forward ←
    (if isValidPosition oneForward then
       s1 ← at_ b oneForward;
       if isNull s1 then
         (* Two squares forward from starting position *)
         if row from =? startRow then
           let twoForward := {| row := row from + 2 * direction; col := col from |} in
           if isValidPosition twoForward then
             s2 ← at_ b twoForward;
             Ok (if isNull s2 then [oneForward; twoForward] else [oneForward])
           else Ok [oneForward]
         else Ok [oneForward]
       else Ok []
     else Ok []);
  (* Diagonal captures *)
  let captureLeft := {| row := row from + direction; col := col from - 1 |} in
  let captureRight := {| row := row from + direction; col := col from + 1 |} in
  let capture target :=
    if isValidPosition target then
      s ← at_ b target;
      match s with
      | Occ p => Ok (if negb (colorEq (color p) c) then [target] else [])
      | _ => Ok []
      end
    else Ok [] in
  left ← capture captureLeft;
  right ← capture captureRight;
  (* En passant *)
  let enPassant :=
    match enPassantTarget with
    | Some t =>
        if positionsEqual captureLeft t || positionsEqual captureRight t
        then [t] else []
    | None => []
    end in
  Ok (forward ++ left ++ right ++ enPassant).

(** The inner loop of the rook and bishop generators:
    [for (let i = 1; i < 8; i++)] along one direction, with its two
    [break]s. *)
Fixpoint slide (b : Board) (from : Position) (c : PieceColor)
    (rowDir colDir : Z) (steps : list Z) : Exc (list Position) :=
  match steps with
  | [] => Ok []
  | i :: rest =>
      let to := {| row := row from + i * rowDir; col := col from + i * colDir |} in
      if negb (isValidPosition to) then Ok []
      else
        targetPiece ← at_ b to;
        if isNull targetPiece then
          more ← slide b from c rowDir colDir rest;
          Ok (to :: more)
        else
          tc ← colorOf targetPiece;
          Ok (if negb (colorEq tc c) then [to] else [])
  end.

Definition slideAll (b : Board) (from : Position) (c : PieceColor)
    (directions : list (Z * Z)) : Exc (list Position) :=
  forPush (λ d, slide b from c (fst d) (snd d) (seqZ 1 7)) directions.

Definition getRookMoves (b : Board) (from : Position) (c : PieceColor) :=
  slideAll b from c [(-1, 0); (1, 0); (0, -1); (0, 1)].

Definition getBishopMoves (b : Board) (from : Position) (c : PieceColor) :=
  slideAll b from c [(-1, -1); (-1, 1); (1, -1); (1, 1)].

Definition getQueenMoves (b : Board) (from : Position) (c : PieceColor)
    : Exc (list Position) :=
  r ← getRookMoves b from c;
  d ← getBishopMoves b from c;
  Ok (r ++ d).

(** The loop shared by the knight and the king: one candidate per
    offset, admitted when on the board and empty or enemy-occupied. *)
Definition stepAll (b : Board) (from : Position) (c : PieceColor)
    (offsets : list (Z * Z)) : Exc (list Position) :=
  forPush (λ o,
    let to := {| row := row from + fst o; col := col from + snd o |} in
    if isValidPosition to then
      targetPiece ← at_ b to;
      if isNull targetPiece then Ok [to]
      else
        tc ← colorOf targetPiece;
        Ok (if negb (colorEq tc c) then [to] else [])
    else Ok []) offsets.

Definition getKnightMoves (b : Board) (from : Position) (c : PieceColor) :=
  stepAll b from c
    [(-2, -1); (-2, 1); (-1, -2); (-1, 2); (1, -2); (1, 2); (2, -1); (2, 1)].

Definition noCastlingRights : CastlingRights :=
  {| whiteKingSide := false; whiteQueenSide := false;
     blackKingSide := false; blackQueenSide := false |}.

(** [a && b && ...] over tests that may throw, left to right, stopping at
    the first false one. *)
Fixpoint allOf (tests : list (Exc bool)) : Exc bool :=
  match tests with
  | [] => Ok true
  | t :: rest => v ← t; if v then allOf rest else Ok false
  end.

Definition emptyAt (b : Board) (r c : Z) : Exc bool :=
  s ← readCell b r c; Ok (isNull s).

(** [getKingMoves] and [isSquareAttacked] call each other in the source:
    castling asks whether squares are attacked, and the attack scan asks
    for the king's moves with every right switched off, in which case no
    attack question is reached.  The scan is therefore a parameter here
    and the knot is tied below ([getKingMoves]). *)
Section KingMoves.
Variable attacked : Board → Position → PieceColor → Exc bool.

Definition notAttacked (b : Board) (r c : Z) (by_ : PieceColor) : Exc bool :=
  a ← attacked b {| row := r; col := c |} by_; Ok (negb a).

Definition castle (b : Board) (right : bool) (r : Z) (between pass : list Z)
    (by_ : PieceColor) (target : Z) : Exc (list Position) :=
  ok ← allOf (Ok right :: ((emptyAt b r <$> between)
               ++ ((λ c, notAttacked b r c by_) <$> pass)));
  Ok (if ok then [ {| row := r; col := target |} ] else []).

Definition getKingMovesWith (b : Board) (from : Position) (c : PieceColor)
    (rights : CastlingRights) : Exc (list Position) :=
  (* Regular king moves *)
  regular ← stepAll b from c
    [(-1, -1); (-1, 0); (-1, 1); (0, -1); (0, 1); (1, -1); (1, 0); (1, 1)];
  (* Castling *)
  if colorEq c white && (row from =? 7) && (col from =? 4) then
    ks ← castle b (whiteKingSide rights) 7 [5; 6] [4; 5; 6] black 6;
    qs ← castle b (whiteQueenSide rights) 7 [1; 2; 3] [4; 3; 2] black 2;
    Ok (regular ++ ks ++ qs)
  else if colorEq c black && (row from =? 0) && (col from =? 4) then
    ks ← castle b (blackKingSide rights) 0 [5; 6] [4; 5; 6] white 6;
    qs ← castle b (blackQueenSide rights) 0 [1; 2; 3] [4; 3; 2] white 2;
    Ok (regular ++ ks ++ qs)
  else Ok regular.
End KingMoves.

(** With every right off the castling conditions stop at their first
    conjunct, so the attack scan handed to [getKingMovesWith] is not
    called; the scan itself uses this instance. *)
Definition getPossibleMovesWithoutCheckValidation (b : Board) (from : Position)
    : Exc (list Position) :=
  s ← at_ b from;
  match s with
  | Occ p =>
      match type p with
      | pawn => getPawnMoves b from (color p) None
      | rook => getRookMoves b from (color p)
      | knight => getKnightMoves b from (color p)
      | bishop => getBishopMoves b from (color p)
      | queen => getQueenMoves b from (color p)
      | king =>
          ms ← getKingMovesWith (λ _ _ _, Throw) b from (color p) noCastlingRights;
          (* Exclude castling *)
          Ok (filter (λ m, Z.abs (col m - col from) ≤ 1) ms)
      end
  | _ => Ok []
  end.

Definition rows8 : list Z := seqZ 0 8.

(** The body of the scan at the square [(r, c)]: does the piece there,
    if it is one of [byColor], reach [square]? *)
Definition attackedFrom (b : Board) (square : Position) (byColor : PieceColor)
    (r c : Z) : Exc (option bool) :=
  s ← readCell b r c;
  match s with
  | Occ p =>
      if colorEq (color p) byColor then
        possibleMoves ←
          getPossibleMovesWithoutCheckValidation b {| row := r; col := c |};
        Ok (if existsb (λ m, positionsEqual m square) possibleMoves
            then Some true else None)
      else Ok None
  | _ => Ok None
  end.

Definition isSquareAttacked (b : Board) (square : Position) (byColor : PieceColor)
    : Exc bool :=
  r ← forReturn (λ r, forReturn (λ c, attackedFrom b square byColor r c) rows8) rows8;
  Ok (default false r).

Definition getKingMoves := getKingMovesWith isSquareAttacked.

(** ** Check detection and legal moves *)

(** The body of the king search at the square [(r, k)]. *)
Definition kingAt (b : Board) (c : PieceColor) (r k : Z) : Exc (option Position) :=
  s ← readCell b r k;
  match s with
  | Occ p =>
      Ok (if typeEq (type p) king && colorEq (color p) c
          then Some {| row := r; col := k |} else None)
  | _ => Ok None
  end.

Definition findKing (b : Board) (c : PieceColor) : Exc (option Position) :=
  forReturn (λ r, forReturn (λ k, kingAt b c r k) rows8) rows8.

Definition wouldBeInCheck (b : Board) (from to : Position) (c : PieceColor)
    : Exc bool :=
  (* Create a copy of the board with the move applied *)
  let newBoard := copyBoard b in
  p ← at_ newBoard from;
  newBoard ← writeCell newBoard (row to) (col to) p;
  newBoard ← writeCell newBoard (row from) (col from) Null;
  (* Find the king position *)
  kingPos ← findKing newBoard c;
  match kingPos with
  | None => Ok true (* If no king found, consider it check *)
  | Some k => isSquareAttacked newBoard k (opponent c)
  end.

Definition isInCheck (b : Board) (c : PieceColor) : Exc bool :=
  kingPos ← findKing b c;
  match kingPos with
  | None => Ok false
  | Some k => isSquareAttacked b k (opponent c)
  end.

Definition getPossibleMoves (b : Board) (from : Position) (gameState : GameState)
    : Exc (list Position) :=
  s ← at_ b from;
  match s with
  | Occ p =>
      moves ←
        match type p with
        | pawn => getPawnMoves b from (color p) (enPassantTarget gameState)
        | rook => getRookMoves b from (color p)
        | knight => getKnightMoves b from (color p)
        | bishop => getBishopMoves b from (color p)
        | queen => getQueenMoves b from (color p)
        | king => getKingMoves b from (color p) (castlingRights gameState)
        end;
      (* Filter out moves that would put own king in check *)
      filterM (λ to, w ← wouldBeInCheck b from to (color p); Ok (negb w)) moves
  | _ => Ok []
  end.

(** [Date.now()] is an input of the engine: [now] is the value it
    returns. *)
Definition getAllPossibleMoves (now : Z) (b : Board) (c : PieceColor)
    (gameState : GameState) : Exc (list Move) :=
  forPush (λ r, forPush (λ k,
    s ← readCell b r k;
    match s with
    | Occ p =>
        if colorEq (color p) c then
          let from := {| row := r; col := k |} in
          possibleMoves ← getPossibleMoves b from gameState;
          forPush (λ to,
            t ← at_ b to;
            Ok [ {| from := from; to := to; piece := p;
                    capturedPiece := match t with Occ q => Some q | _ => None end;
                    notation := EmptyString; timestamp := now;
                    isCheck := None; isCheckmate := None; isCastling := None;
                    isEnPassant := None; promotionPiece := None |} ]) possibleMoves
        else Ok []
    | _ => Ok []
    end) rows8) rows8.

(** [board.flat()] drops holes; [.filter(p => p !== null)] keeps
    everything that is not [null]. *)
Definition flatNonNull (b : Board) : list Slot :=
  filter (λ s, s ≠ Hole ∧ s ≠ Null) (concat b).

(** [p.type]: throws on [undefined]. *)
Definition typeOf (s : Slot) : Exc PieceType :=
  match s with Occ p => Ok (type p) | _ => Throw end.

Definition getGameStatus (now : Z) (gameState : GameState) : Exc GameStatus :=
  let b := board gameState in
  let currentPlayer := currentPlayer gameState in
  inCheck ← isInCheck b currentPlayer;
  possibleMoves ← getAllPossibleMoves now b currentPlayer gameState;
  if (length possibleMoves =? 0)%nat then
    Ok (if inCheck then checkmate else stalemate)
  else if (inCheck : bool) then Ok check
  (* Check for draw conditions *)
  else if 50 <=? halfMoveClock gameState then Ok draw
  else
    (* Insufficient material check (simplified) *)
    let pieces := flatNonNull b in
    if (length pieces <=? 3)%nat then
      hasOnlyKingsAndMinorPieces ←
        everyM (λ s, t ← typeOf s;
                     Ok (typeEq t king || typeEq t knight || typeEq t bishop)) pieces;
      Ok (if (hasOnlyKingsAndMinorPieces : bool) then draw else active)
    else Ok active.

(** ** Notation and coordinates *)

(** What a string expression of the engine can evaluate to: indexing a
    string out of range gives [undefined], and [undefined + undefined] is
    the number [NaN]. *)
Inductive JsValue := JsString (s : string) | JsUndefined | JsNaN.

Definition toString (v : JsValue) : string :=
  match v with
  | JsString s => s
  | JsUndefined => "undefined"
  | JsNaN => "NaN"
  end.

(** [s[i]] on a string *)
Definition charAtIndex (s : string) (i : Z) : JsValue :=
  if decide (0 ≤ i) then
    match String.get (Z.to_nat i) s with
    | Some a => JsString (String a EmptyString)
    | None => JsUndefined
    end
  else JsUndefined.

(** [a + b] where each operand is a string or [undefined] *)
Definition jsPlus (a b : JsValue) : JsValue :=
  match a, b with
  | JsString _, _ | _, JsString _ => JsString (toString a +:+ toString b)
  | _, _ => JsNaN
  end.

(** [s.indexOf(v)]: the argument is converted to a string first. *)
Definition indexOf (s : string) (v : JsValue) : Z :=
  match String.index 0 (toString v) s with
  | Some n => Z.of_nat n
  | None => -1
  end.

Definition files : string := "abcdefgh".
Definition ranks : string := "87654321".

Definition typeName (t : PieceType) : string :=
  match t with
  | pawn => "pawn" | rook => "rook" | knight => "knight"
  | bishop => "bishop" | queen => "queen" | king => "king"
  end.

Definition toUpperCase (a : ascii) : ascii :=
  let n := nat_of_ascii a in
  if ((97 <=? n) && (n <=? 122))%nat then ascii_of_nat (n - 32) else a.

(** [piece.type.charAt(0).toUpperCase()] *)
Definition typeInitial (t : PieceType) : string :=
  match typeName t with
  | String a _ => String (toUpperCase a) EmptyString
  | EmptyString => EmptyString
  end.

Definition createMoveNotation (p : ChessPiece) (from to : Position)
    (isCapture isCastling isEnPassant : bool) : string :=
  if isCastling then
    if col from <? col to then "O-O" else "O-O-O"
  else
    let n := EmptyString in
    let n := if negb (typeEq (type p) pawn) then n +:+ typeInitial (type p) else n in
    let n :=
      if isCapture then
        let n := if typeEq (type p) pawn
                 then n +:+ toString (charAtIndex files (col from)) else n in
        n +:+ "x"
      else n in
    let n := n +:+ toString (jsPlus (charAtIndex files (col to))
                                    (charAtIndex ranks (row to))) in
    if isEnPassant then n +:+ " e.p." else n.

Definition positionToAlgebraic (pos : Position) : JsValue :=
  jsPlus (charAtIndex files (col pos)) (charAtIndex ranks (row pos)).

Definition algebraicToPosition (algebraic : string) : Position :=
  {| col := indexOf files (charAtIndex algebraic 0);
     row := indexOf ranks (charAtIndex algebraic 1) |}.

(** ** The transition *)

Definition ledger (cp : CapturedPieces) (c : PieceColor) : Ref :=
  match c with white => cwhite cp | black => cblack cp end.

(** [captured[c].push(x)]: the array behind the reference grows in place. *)
Definition pushCaptured (h : Store) (cp : CapturedPieces) (c : PieceColor)
    (x : ChessPiece) : Store :=
  alter (λ a, a ++ [x]) (ledger cp c) h.

(** What a holder of state [s] reads from its two ledgers in store [h]. *)
Definition capturedOf (h : Store) (s : GameState) (c : PieceColor)
    : list ChessPiece :=
  default [] (h !! ledger (capturedPieces s) c).

Definition withStatus (s : GameState) (st : GameStatus) : GameState :=
  {| board := board s; currentPlayer := currentPlayer s; status := st;
     moveHistory := moveHistory s; capturedPieces := capturedPieces s;
     castlingRights := castlingRights s; enPassantTarget := enPassantTarget s;
     halfMoveClock := halfMoveClock s; fullMoveNumber := fullMoveNumber s |}.

Definition updateCastlingRights (old : CastlingRights) (p : ChessPiece)
    (currentPlayer : PieceColor) (from : Position) : CastlingRights :=
  let r := old in
  let r :=
    if typeEq (type p) king then
      match currentPlayer with
      | white => {| whiteKingSide := false; whiteQueenSide := false;
                    blackKingSide := blackKingSide r;
                    blackQueenSide := blackQueenSide r |}
      | black => {| whiteKingSide := whiteKingSide r;
                    whiteQueenSide := whiteQueenSide r;
                    blackKingSide := false; blackQueenSide := false |}
      end
    else r in
  if typeEq (type p) rook then
    match currentPlayer with
    | white =>
        {| whiteKingSide := if col from =? 7 then false else whiteKingSide r;
           whiteQueenSide := if col from =? 0 then false else whiteQueenSide r;
           blackKingSide := blackKingSide r;
           blackQueenSide := blackQueenSide r |}
    | black =>
        {| whiteKingSide := whiteKingSide r;
           whiteQueenSide := whiteQueenSide r;
           blackKingSide := if col from =? 7 then false else blackKingSide r;
           blackQueenSide := if col from =? 0 then false else blackQueenSide r |}
    end
  else r.

(** [makeMove] returns [null] ([None]) on rejection.  The store is
    threaded through: it is where the two [push] calls land. *)
Definition makeMove (now : Z) (h : Store) (gameState : GameState)
    (from to : Position) : Exc (Store * option GameState) :=
  let b := board gameState in
  let currentPlayer := currentPlayer gameState in
  s ← at_ b from;
  match s with
  | Occ p =>
      if negb (colorEq (color p) currentPlayer) then Ok (h, None)
      else
        possibleMoves ← getPossibleMoves b from gameState;
        let isValidMove := existsb (λ m, positionsEqual m to) possibleMoves in
        if negb isValidMove then Ok (h, None)
        else
          (* Create new game state *)
          let newBoard := copyBoard b in
          capturedPiece ← at_ newBoard to;
          (* En passant *)
          let isEnPassant :=
            typeEq (type p) pawn &&
            match enPassantTarget gameState with
            | Some t => positionsEqual to t
            | None => false
            end in
          newBoard ←
            (if isEnPassant then
               let captureRow :=
                 match currentPlayer with white => row to + 1 | black => row to - 1 end in
               writeCell newBoard captureRow (col to) Null
             else Ok newBoard);
          (* Castling *)
          let isCastling := typeEq (type p) king && (Z.abs (col to - col from) =? 2) in
          newBoard ←
            (if isCastling then
               let isKingSide := col from <? col to in
               let rookFromCol := if isKingSide then 7 else 0 in
               let rookToCol := if isKingSide then 5 else 3 in
               let rookRow := row from in
               r ← readCell newBoard rookRow rookFromCol;
               nb ← writeCell newBoard rookRow rookToCol r;
               writeCell nb rookRow rookFromCol Null
             else Ok newBoard);
          (* Make the move *)
          newBoard ← writeCell newBoard (row to) (col to) (Occ p);
          newBoard ← writeCell newBoard (row from) (col from) Null;
          (* Handle pawn promotion *)
          newBoard ←
            (if typeEq (type p) pawn && ((row to =? 0) || (row to =? 7)) then
               writeCell newBoard (row to) (col to)
                 (Occ {| type := queen; color := color p |})
             else Ok newBoard);
          (* Update captured pieces: the spread copies the two references *)
          let newCapturedPieces :=
            {| cwhite := cwhite (capturedPieces gameState);
               cblack := cblack (capturedPieces gameState) |} in
          let h :=
            match capturedPiece with
            | Occ q => pushCaptured h newCapturedPieces (color q) q
            | _ => h
            end in
          let h :=
            if isEnPassant then
              let capturedPawn := {| type := pawn; color := opponent currentPlayer |} in
              pushCaptured h newCapturedPieces (color capturedPawn) capturedPawn
            else h in
          (* Update castling rights *)
          let newCastlingRights :=
            updateCastlingRights (castlingRights gameState) p currentPlayer from in
          (* Update en passant target; the two rows differ by 2, so the
             division is exact *)
          let newEnPassantTarget :=
            if typeEq (type p) pawn && (Z.abs (row to - row from) =? 2)
            then Some {| row := (row from + row to) / 2; col := col from |}
            else None in
          (* Create move notation *)
          let notation :=
            createMoveNotation p from to (negb (isNull capturedPiece))
              isCastling isEnPassant in
          let move :=
            {| from := from; to := to; piece := p;
               capturedPiece := match capturedPiece with Occ q => Some q | _ => None end;
               notation := notation; timestamp := now;
               isCheck := None; isCheckmate := None;
               isCastling := Some isCastling; isEnPassant := Some isEnPassant;
               promotionPiece := None |} in
          let newGameState :=
            {| board := newBoard;
               currentPlayer := opponent currentPlayer;
               status := active;
               moveHistory := moveHistory gameState ++ [move];
               capturedPieces := newCapturedPieces;
               castlingRights := newCastlingRights;
               enPassantTarget := newEnPassantTarget;
               halfMoveClock :=
                 if truthy capturedPiece || typeEq (type p) pawn then 0
                 else halfMoveClock gameState + 1;
               fullMoveNumber :=
                 match currentPlayer with
                 | black => fullMoveNumber gameState + 1
                 | white => fullMoveNumber gameState
                 end |} in
          (* Update game status *)
          st ← getGameStatus now newGameState;
          Ok (h, Some (withStatus newGameState st))
  | _ => Ok (h, None)
  end.

(** Playing a list of moves from a state; a rejected move stops the game. *)
Fixpoint play (now : Z) (h : Store) (s : GameState)
    (moves : list (Position * Position)) : Exc (option (Store * GameState)) :=
  match moves with
  | [] => Ok (Some (h, s))
  | (f, t) :: rest =>
      r ← makeMove now h s f t;
      match r with
      | (h', Some s') => play now h' s' rest
      | (_, None) => Ok None
      end
  end.

Definition sq (r c : Z) : Position := {| row := r; col := c |}.

Definition start : Store * GameState := createInitialGameState [].

(** * Vocabulary of the statements *)

(** [returns m P]: the call [m] does not throw and its result satisfies [P]. *)
Definition returns {A} (m : Exc A) (P : A → Prop) : Prop :=
  match m with Ok a => P a | Throw => False end.
Arguments returns {A} !m P /.

(** A slot of the declared type [ChessPiece | null]. *)
Definition properSlot (s : Slot) : bool := isNull s || truthy s.

Definition wfRowb (cells : list Slot) : bool :=
  (length cells =? 8)%nat && forallb properSlot cells.

(** The 8x8 grid of the data model. *)
Definition wfBoardb (b : Board) : bool :=
  (length b =? 8)%nat && forallb wfRowb b.

Definition wfBoard (b : Board) : Prop := wfBoardb b = true.

Definition validPos (p : Position) : Prop := isValidPosition p = true.

(** A state of the data model: an 8x8 board and an en-passant target
    that, when present, is a square of the board. *)
Definition wfState (s : GameState) : Prop :=
  wfBoard (board s) ∧ ∀ t, enPassantTarget s = Some t → validPos t.

(** A pawn of colour [c] standing on [from] only moves towards the far
    rank. *)
Definition forwardOf (c : PieceColor) (from t : Position) : Prop :=
  match c with white => row t < row from | black => row from < row t end.

Definition kingOf (c : PieceColor) : Slot := Occ {| type := king; color := c |}.

(** Some slot of the board holds the king of colour [c]. *)
Definition hasKing (b : Board) (c : PieceColor) : bool :=
  existsb (existsb (λ s, bool_decide (s = kingOf c))) b.

Definition pushSquare (c : PieceColor) (from : Position) : Position :=
  {| row := row from + match c with white => -1 | black => 1 end; col := col from |}.

(** ** Concrete positions *)

Definition pc (t : PieceType) (c : PieceColor) : Slot := Occ {| type := t; color := c |}.

(** 1.e4 a5 2.e5 a4 3.Ke2 Ra5 4.Ke3 Na6 5.Kf4 Nb8 6.Kg5 d5: the white
    king, the white e-pawn, the black d-pawn and the black rook stand on
    the fifth rank, and the d-pawn has just advanced two squares. *)
Definition pinGame : list (Position * Position) :=
  [ (sq 6 4, sq 4 4); (sq 1 0, sq 3 0); (sq 4 4, sq 3 4); (sq 3 0, sq 4 0);
    (sq 7 4, sq 6 4); (sq 0 0, sq 3 0); (sq 6 4, sq 5 4); (sq 0 1, sq 2 0);
    (sq 5 4, sq 4 5); (sq 2 0, sq 0 1); (sq 4 5, sq 3 6); (sq 1 3, sq 3 3) ].

(** 1.e4 d5 *)
Definition captureGame : list (Position * Position) :=
  [ (sq 6 4, sq 4 4); (sq 1 3, sq 3 3) ].

(** 1.e4 a6 2.e5 d5 *)
Definition epGame : list (Position * Position) :=
  [ (sq 6 4, sq 4 4); (sq 1 0, sq 2 0); (sq 4 4, sq 3 4); (sq 1 3, sq 3 3) ].

(** 1.e4 e5 *)
Definition openGame : list (Position * Position) :=
  [ (sq 6 4, sq 4 4); (sq 1 4, sq 3 4) ].

(** The position after 1.e4 f5 2.Qh5+: black is in check and can
    interpose on g6. *)
Definition checkBoard : Board :=
  [ [pc rook black; pc knight black; pc bishop black; pc queen black;
     pc king black; pc bishop black; pc knight black; pc rook black];
    [pc pawn black; pc pawn black; pc pawn black; pc pawn black;
     pc pawn black; Null; pc pawn black; pc pawn black];
    replicate 8 Null;
    [Null; Null; Null; Null; Null; pc pawn black; Null; pc queen white];
    [Null; Null; Null; Null; pc pawn white; Null; Null; Null];
    replicate 8 Null;
    [pc pawn white; pc pawn white; pc pawn white; pc pawn white;
     Null; pc pawn white; pc pawn white; pc pawn white];
    [pc rook white; pc knight white; pc bishop white; Null;
     pc king white; pc bishop white; pc knight white; pc rook white] ].

Definition stateOf (b : Board) (player : PieceColor) (st : GameStatus) (clock : Z)
    : GameState :=
  {| board := b; currentPlayer := player; status := st; moveHistory := [];
     capturedPieces := {| cwhite := 0%nat; cblack := 1%nat |};
     castlingRights := {| whiteKingSide := true; whiteQueenSide := true;
                          blackKingSide := true; blackQueenSide := true |};
     enPassantTarget := None; halfMoveClock := clock; fullMoveNumber := 30 |}.

Definition checkAtFifty : GameState := stateOf checkBoard black check 50.

(** The initial position without the white king. *)
Definition kinglessBoard : Board :=
  [ (λ t, pc t black) <$> pieceOrder; replicate 8 (pc pawn black);
    replicate 8 Null; replicate 8 Null; replicate 8 Null; replicate 8 Null;
    replicate 8 (pc pawn white);
    [pc rook white; pc knight white; pc bishop white; pc queen white;
     Null; pc bishop white; pc knight white; pc rook white] ].

(** 1.e4 f5, then the queen's knights go out and back twelve times
    (48 plies), then 26.Nc3 Nc6: fifty plies without a capture or a pawn
    move. *)
Definition shuffleGame : list (Position * Position) :=
  [ (sq 6 4, sq 4 4); (sq 1 5, sq 3 5) ]
  ++ mjoin (replicate 12 [ (sq 7 1, sq 5 2); (sq 0 1, sq 2 2);
                           (sq 5 2, sq 7 1); (sq 2 2, sq 0 1) ])
  ++ [ (sq 7 1, sq 5 2); (sq 0 1, sq 2 2) ].

(** The state a list of moves leads to from the initial position (the
    initial state itself if one of them is rejected). *)
Definition stateAfter (moves : list (Position * Position)) : Store * GameState :=
  match play 0 start.1 start.2 moves with
  | Ok (Some hs) => hs
  | _ => start
  end.

Definition fileLetter (c : Z) : ascii := ascii_of_nat (97 + Z.to_nat c).
Definition rankDigit (r : Z) : ascii := ascii_of_nat (56 - Z.to_nat r).

(** ** The parts of an accepted move

    The pieces [makeMove] assembles its result from, named so that
    statements about accepted moves can refer to them. *)

Definition isEnPassantMove (s : GameState) (p : ChessPiece) (to : Position) : bool :=
  typeEq (type p) pawn &&
  match enPassantTarget s with
  | Some t => positionsEqual to t
  | None => false
  end.

Definition isCastlingMove (p : ChessPiece) (from to : Position) : bool :=
  typeEq (type p) king && (Z.abs (col to - col from) =? 2).

(** The board writes of [makeMove], in its order. *)
Definition boardAfter (s : GameState) (p : ChessPiece) (from to : Position)
    : Exc Board :=
  let newBoard := copyBoard (board s) in
  newBoard ←
    (if isEnPassantMove s p to then
       let captureRow :=
         match currentPlayer s with white => row to + 1 | black => row to - 1 end in
       writeCell newBoard captureRow (col to) Null
     else Ok newBoard);
  newBoard ←
    (if isCastlingMove p from to then
       let isKingSide := col from <? col to in
       let rookFromCol := if isKingSide then 7 else 0 in
       let rookToCol := if isKingSide then 5 else 3 in
       let rookRow := row from in
       r ← readCell newBoard rookRow rookFromCol;
       nb ← writeCell newBoard rookRow rookToCol r;
       writeCell nb rookRow rookFromCol Null
     else Ok newBoard);
  newBoard ← writeCell newBoard (row to) (col to) (Occ p);
  newBoard ← writeCell newBoard (row from) (col from) Null;
  if typeEq (type p) pawn && ((row to =? 0) || (row to =? 7)) then
    writeCell newBoard (row to) (col to) (Occ {| type := queen; color := color p |})
  else Ok newBoard.

(** The pieces an accepted move pushes on the ledgers: what stood on the
    destination, then the pawn taken en passant. *)
Definition capturedBy (s : GameState) (p : ChessPiece) (cap : Slot) (to : Position)
    : list ChessPiece :=
  match cap with Occ q => [q] | _ => [] end
  ++ (if isEnPassantMove s p to
      then [ {| type := pawn; color := opponent (currentPlayer s) |} ] else []).

Definition storeAfter (h : Store) (s : GameState) (p : ChessPiece) (cap : Slot)
    (to : Position) : Store :=
  foldl (λ h q, pushCaptured h (capturedPieces s) (color q) q) h (capturedBy s p cap to).

Definition moveRecord (now : Z) (s : GameState) (p : ChessPiece) (cap : Slot)
    (from to : Position) : Move :=
  {| from := from; to := to; piece := p;
     capturedPiece := match cap with Occ q => Some q | _ => None end;
     notation := createMoveNotation p from to (negb (isNull cap))
                   (isCastlingMove p from to) (isEnPassantMove s p to);
     timestamp := now; isCheck := None; isCheckmate := None;
     isCastling := Some (isCastlingMove p from to);
     isEnPassant := Some (isEnPassantMove s p to);
     promotionPiece := None |}.

Definition nextState (now : Z) (s : GameState) (p : ChessPiece) (cap : Slot)
    (from to : Position) (nb : Board) (st : GameStatus) : GameState :=
  {| board := nb;
     currentPlayer := opponent (currentPlayer s);
     status := st;
     moveHistory := moveHistory s ++ [moveRecord now s p cap from to];
     capturedPieces := {| cwhite := cwhite (capturedPieces s);
                          cblack := cblack (capturedPieces s) |};
     castlingRights := updateCastlingRights (castlingRights s) p (currentPlayer s) from;
     enPassantTarget :=
       if typeEq (type p) pawn && (Z.abs (row to - row from) =? 2)
       then Some {| row := (row from + row to) / 2; col := col from |}
       else None;
     halfMoveClock :=
       if truthy cap || typeEq (type p) pawn then 0 else halfMoveClock s + 1;
     fullMoveNumber :=
       match currentPlayer s with
       | black => fullMoveNumber s + 1
       | white => fullMoveNumber s
       end |}.

(** ** Vocabulary for the generators *)

(** [from] displaced by [k] times the direction [d]. *)
Definition shift (from : Position) (k : Z) (d : Z * Z) : Position :=
  {| row := row from + k * d.1; col := col from + k * d.2 |}.

(** The square [t] of board [b] is empty or holds a piece that is not of
    colour [c], so a piece of colour [c] may land on it. *)
Definition freeFor (b : Board) (c : PieceColor) (t : Position) : bool :=
  match at_ b t with
  | Ok Null => true
  | Ok (Occ q) => negb (colorEq (color q) c)
  | _ => false
  end.

Definition emptySquare (b : Board) (t : Position) : bool :=
  match at_ b t with Ok Null => true | _ => false end.

(** The square [t] holds a piece of the colour opposite to [c]. *)
Definition enemyAt (b : Board) (c : PieceColor) (t : Position) : bool :=
  match at_ b t with
  | Ok (Occ q) => negb (colorEq (color q) c)
  | _ => false
  end.

Definition rookDirections : list (Z * Z) := [(-1, 0); (1, 0); (0, -1); (0, 1)].
Definition bishopDirections : list (Z * Z) := [(-1, -1); (-1, 1); (1, -1); (1, 1)].
Definition knightOffsets : list (Z * Z) :=
  [(-2, -1); (-2, 1); (-1, -2); (-1, 2); (1, -2); (1, 2); (2, -1); (2, 1)].
Definition kingOffsets : list (Z * Z) :=
  [(-1, -1); (-1, 0); (-1, 1); (0, -1); (0, 1); (1, -1); (1, 0); (1, 1)].

(** [t] is reached from [from] by sliding along [d]: it is the [k]-th
    square of the ray, on the board, free for [c], and the squares before
    it on the ray are on the board and empty. *)
Definition slidesTo (b : Board) (from : Position) (c : PieceColor) (d : Z * Z)
    (t : Position) : Prop :=
  ∃ k, 1 ≤ k ≤ 7 ∧ t = shift from k d ∧ validPos t ∧ freeFor b c t = true ∧
    ∀ j, 1 ≤ j < k → validPos (shift from j d) ∧ emptySquare b (shift from j d) = true.

Definition pawnDir (c : PieceColor) : Z := match c with white => -1 | black => 1 end.

Definition pawnStartRow (c : PieceColor) : Z := match c with white => 6 | black => 1 end.

Definition doublePushSquare (c : PieceColor) (from : Position) : Position :=
  {| row := row from + 2 * pawnDir c; col := col from |}.

(** The two squares diagonally in front of a pawn. *)
Definition captureSquares (c : PieceColor) (from : Position) : list Position :=
  [ {| row := row from + pawnDir c; col := col from - 1 |};
    {| row := row from + pawnDir c; col := col from + 1 |} ].

(** What a pawn of colour [c] on [from] may move to: the empty square in
    front; from its start row the second square when both are empty; a
    diagonal square holding an enemy piece; the en-passant target when
    it is one of the two diagonal squares. *)
Definition pawnReaches (b : Board) (from : Position) (c : PieceColor)
    (ep : option Position) (t : Position) : Prop :=
  (t = pushSquare c from ∧ validPos t ∧ emptySquare b t = true) ∨
  (t = doublePushSquare c from ∧ row from = pawnStartRow c ∧
   validPos (pushSquare c from) ∧ emptySquare b (pushSquare c from) = true ∧
   validPos t ∧ emptySquare b t = true) ∨
  (t ∈ captureSquares c from ∧ validPos t ∧ enemyAt b c t = true) ∨
  (ep = Some t ∧ t ∈ captureSquares c from).

Definition homeRow (c : PieceColor) : Z := match c with white => 7 | black => 0 end.

Definition kingSideRight (c : PieceColor) (rights : CastlingRights) : bool :=
  match c with white => whiteKingSide rights | black => blackKingSide rights end.

Definition queenSideRight (c : PieceColor) (rights : CastlingRights) : bool :=
  match c with white => whiteQueenSide rights | black => blackQueenSide rights end.

(** The three conditions of one castling candidate: the right is set, the
    columns [between] of row [r] are empty, and the scan finds none of the
    columns [pass] of row [r] attacked by [by_]. *)
Definition castlingAllowed (b : Board) (right : bool) (r : Z) (between pass : list Z)
    (by_ : PieceColor) : Prop :=
  right = true ∧
  (∀ k, k ∈ between → emptySquare b (sq r k) = true) ∧
  (∀ k, k ∈ pass → isSquareAttacked b (sq r k) by_ = Ok false).

(** What a king of colour [c] on [from] may move to: an adjacent square on
    the board that is free for [c], or, from its home square, two columns
    towards a rook when that castling is allowed. *)
Definition kingReaches (b : Board) (from : Position) (c : PieceColor)
    (rights : CastlingRights) (t : Position) : Prop :=
  (∃ o, o ∈ kingOffsets ∧ t = shift from 1 o ∧ validPos t ∧ freeFor b c t = true) ∨
  (from = sq (homeRow c) 4 ∧
   ((t = sq (homeRow c) 6 ∧
     castlingAllowed b (kingSideRight c rights) (homeRow c) [5; 6] [4; 5; 6] (opponent c)) ∨
    (t = sq (homeRow c) 2 ∧
     castlingAllowed b (queenSideRight c rights) (homeRow c) [1; 2; 3] [4; 3; 2]
       (opponent c)))).

(** The pseudo-legal targets of piece [p] standing on [from], for a given
    en-passant target and given castling rights. *)
Definition pseudoReaches (b : Board) (ep : option Position) (rights : CastlingRights)
    (from : Position) (p : ChessPiece) (t : Position) : Prop :=
  match type p with
  | pawn => pawnReaches b from (color p) ep t
  | rook => ∃ d, d ∈ rookDirections ∧ slidesTo b from (color p) d t
  | knight =>
      ∃ o, o ∈ knightOffsets ∧ t = shift from 1 o ∧ validPos t ∧
           freeFor b (color p) t = true
  | bishop => ∃ d, d ∈ bishopDirections ∧ slidesTo b from (color p) d t
  | queen => ∃ d, d ∈ rookDirections ++ bishopDirections ∧ slidesTo b from (color p) d t
  | king => kingReaches b from (color p) rights t
  end.

(** The entry [getAllPossibleMoves] makes for the move of [p] from [from]
    to [to]. *)
Definition candidateMove (now : Z) (b : Board) (from to : Position) (p : ChessPiece)
    : Move :=
  {| from := from; to := to; piece := p;
     capturedPiece := match at_ b to with Ok (Occ q) => Some q | _ => None end;
     notation := EmptyString; timestamp := now;
     isCheck := None; isCheckmate := None; isCastling := None;
     isEnPassant := None; promotionPiece := None |}.

(** No piece of colour [c] has a legal move. *)
Definition noLegalMoves (b : Board) (c : PieceColor) (s : GameState) : Prop :=
  ∀ from p, validPos from → at_ b from = Ok (Occ p) → color p = c →
    getPossibleMoves b from s = Ok [].

(** The body of [getAllPossibleMoves] at the square [(r, k)]. *)
Definition movesFrom (now : Z) (b : Board) (c : PieceColor) (s : GameState) (r k : Z)
    : Exc (list Move) :=
  s0 ← readCell b r k;
  match s0 with
  | Occ p =>
      if colorEq (color p) c then
        let from := {| row := r; col := k |} in
        possibleMoves ← getPossibleMoves b from s;
        forPush (λ to,
          t ← at_ b to;
          Ok [ {| from := from; to := to; piece := p;
                  capturedPiece := match t with Occ q => Some q | _ => None end;
                  notation := EmptyString; timestamp := now;
                  isCheck := None; isCheckmate := None; isCastling := None;
                  isEnPassant := None; promotionPiece := None |} ]) possibleMoves
      else Ok []
  | _ => Ok []
  end.

(** ** Squares an accepted move writes *)

(** The square of the pawn taken en passant: behind the destination, seen
    from the side that moves. *)
Definition capturedSquare (s : GameState) (to : Position) : Position :=
  {| row := match currentPlayer s with white => row to + 1 | black => row to - 1 end;
     col := col to |}.

(** The corner the castling rook leaves and the square it lands on. *)
Definition rookHome (from to : Position) : Position :=
  {| row := row from; col := if col from <? col to then 7 else 0 |}.

Definition rookDest (from to : Position) : Position :=
  {| row := row from; col := if col from <? col to then 5 else 3 |}.

Definition promotes (p : ChessPiece) (to : Position) : bool :=
  typeEq (type p) pawn && ((row to =? 0) || (row to =? 7)).

(** The piece found on the destination after the move. *)
Definition arrived (p : ChessPiece) (to : Position) : ChessPiece :=
  if promotes p to then {| type := queen; color := color p |} else p.

(** 1.e4 e5 2.Nf3 Nc6 3.Bc4 Bc5: white may castle king-side. *)
Definition castleGame : list (Position * Position) :=
  [ (sq 6 4, sq 4 4); (sq 1 4, sq 3 4); (sq 7 6, sq 5 5); (sq 0 1, sq 2 2);
    (sq 7 5, sq 4 2); (sq 0 5, sq 3 2) ].

(** 1.f3 e5 2.g4 Qh4: fool's mate. *)
Definition foolsMate : list (Position * Position) :=
  [ (sq 6 5, sq 5 5); (sq 1 4, sq 3 4); (sq 6 6, sq 4 6); (sq 0 3, sq 4 7) ].

(** The two ledger references of a state point to two different arrays of
    the store. *)
Definition ledgersOk (h : Store) (s : GameState) : Prop :=
  cwhite (capturedPieces s) ≠ cblack (capturedPieces s) ∧
  (cwhite (capturedPieces s) < length h)%nat ∧
  (cblack (capturedPieces s) < length h)%nat.

(** The number of moves of [n] successive plies that are black's, when
    [c] is the side that makes the first one. *)
Definition blackPlies (c : PieceColor) (n : nat) : Z :=
  (Z.of_nat n + match c with black => 1 | white => 0 end) / 2.

Definition endpoints (m : Move) : Position * Position := (from m, to m).

(** 1.a4 b5 2.axb5 a6 3.bxa6 h6 4.a7 h5: the white pawn on a7 can take the
    knight on b8. *)
Definition promotionGame : list (Position * Position) :=
  [ (sq 6 0, sq 4 0); (sq 1 1, sq 3 1); (sq 4 0, sq 3 1); (sq 1 0, sq 2 0);
    (sq 3 1, sq 2 0); (sq 1 7, sq 2 7); (sq 2 0, sq 1 0); (sq 2 7, sq 3 7) ].

(** ** Path clearance ([isPathClear])

    The source walks from the square after [from] towards [to] with a
    [while] loop that has no bound of its own.  The loop is modelled with
    fuel; [None] means the fuel ran out, which the theorems below show
    does not happen on an 8x8 board with the fuel [isPathClear] gives. *)
Fixpoint isPathClearLoop (fuel : nat) (b : Board) (to : Position)
    (rowStep colStep currentRow currentCol : Z) : Exc (option bool) :=
  if negb ((currentRow =? row to) && (currentCol =? col to)) then
    match fuel with
    | O => Ok None
    | S fuel' =>
        s ← readCell b currentRow currentCol;
        if negb (isNull s) then Ok (Some false)
        else isPathClearLoop fuel' b to rowStep colStep
               (currentRow + rowStep) (currentCol + colStep)
    end
  else Ok (Some true).

Definition isPathClear (b : Board) (from to : Position) : Exc (option bool) :=
  let rowDiff := row to - row from in
  let colDiff := col to - col from in
  let rowStep := if rowDiff =? 0 then 0 else rowDiff / Z.abs rowDiff in
  let colStep := if colDiff =? 0 then 0 else colDiff / Z.abs colDiff in
  isPathClearLoop 9 b to rowStep colStep (row from + rowStep) (col from + colStep).

(** [to] lies on the row, the column or a diagonal of [from]. *)
Definition onLine (from to : Position) : Prop :=
  row to = row from ∨ col to = col from ∨
  Z.abs (row to - row from) = Z.abs (col to - col from).

(** The direction from [from] to [to], and the number of steps between
    them along it. *)
Definition towards (from to : Position) : Z * Z :=
  (Z.sgn (row to - row from), Z.sgn (col to - col from)).

Definition distance (from to : Position) : Z :=
  Z.max (Z.abs (row to - row from)) (Z.abs (col to - col from)).

(** ** The game component ([ChessGame.tsx])

    The three state variables of [ChessGame] that the click handler
    reads and sets.  The state of the connection to the backend is left
    out: [syncWithBackend] is awaited after the three have been set and
    sets none of them. *)
Record UiState := {
  gameState : GameState;
  selectedSquare : option Position;
  validMoves : list Position }.

(** [setSelectedSquare(null); setValidMoves([])], with the game state
    [gs] in place. *)
Definition deselected (gs : GameState) : UiState :=
  {| gameState := gs; selectedSquare := None; validMoves := [] |}.

(** [piece && piece.color === gameState.currentPlayer] *)
Definition ownPiece (piece : Slot) (gs : GameState) : bool :=
  match piece with
  | Occ p => colorEq (color p) (currentPlayer gs)
  | _ => false
  end.

Definition isGameOver (st : GameStatus) : bool :=
  match st with checkmate | stalemate | draw => true | _ => false end.

Definition handleSquareClick (now : Z) (h : Store) (ui : UiState)
    (position : Position) : Exc (Store * UiState) :=
  let gs := gameState ui in
  (* If game is over, don't allow moves *)
  if isGameOver (status gs) then Ok (h, ui)
  else
      match selectedSquare ui with
      | Some selected =>
          (* If clicking the same square, deselect *)
          if positionsEqual selected position then Ok (h, deselected gs)
          else
            (* Try to make a move *)
            r ← makeMove now h gs selected position;
            match r with
            | (h', Some newGameState) => Ok (h', deselected newGameState)
            | (h', None) =>
                (* Invalid move, try to select the clicked square instead *)
                piece ← at_ (board gs) position;
                if ownPiece piece gs then
                  moves ← getPossibleMoves (board gs) position gs;
                  Ok (h', {| gameState := gs; selectedSquare := Some position;
                             validMoves := moves |})
                else Ok (h', deselected gs)
            end
      | None =>
          (* Select a piece *)
          piece ← at_ (board gs) position;
          if ownPiece piece gs then
            moves ← getPossibleMoves (board gs) position gs;
            Ok (h, {| gameState := gs; selectedSquare := Some position;
                      validMoves := moves |})
          else Ok (h, ui)
      end.

(** What the board shows is consistent: with no square selected nothing
    is highlighted; a selected square is on the board and holds a piece of
    the side to move, and the highlighted squares are the legal moves
    [getPossibleMoves] gives for it in the current state. *)
Definition highlightsLegal (ui : UiState) : Prop :=
  match selectedSquare ui with
  | None => validMoves ui = []
  | Some q =>
      validPos q ∧
      (∃ p, at_ (board (gameState ui)) q = Ok (Occ p) ∧
            color p = currentPlayer (gameState ui)) ∧
      getPossibleMoves (board (gameState ui)) q (gameState ui) = Ok (validMoves ui)
  end.

(** The state of the component after the clicks [clicks], in order. *)
Fixpoint clickAll (now : Z) (h : Store) (ui : UiState) (clicks : list Position)
    : Exc (Store * UiState) :=
  match clicks with
  | [] => Ok (h, ui)
  | p :: rest =>
      r ← handleSquareClick now h ui p;
      clickAll now r.1 r.2 rest
  end.

(** ** Further positions, and the range of exact numbers *)

(** 1.a4 e6 2.Nf3 Ke7 3.Ng1 Kd6 4.Nf3 Kc5 5.Ng1 Kb6 6.Nf3: the black
    king stands on b6, next to a5, the empty square in front of the white
    pawn on a4; black is to move. *)
Definition kingWalkGame : list (Position * Position) :=
  [ (sq 6 0, sq 4 0); (sq 1 4, sq 2 4); (sq 7 6, sq 5 5); (sq 0 4, sq 1 4);
    (sq 5 5, sq 7 6); (sq 1 4, sq 2 3); (sq 7 6, sq 5 5); (sq 2 3, sq 3 2);
    (sq 5 5, sq 7 6); (sq 3 2, sq 2 1); (sq 7 6, sq 5 5) ].

(** 1.h4 g5 2.hxg5 Nf6 3.g6 Bh6 4.g7: a white pawn stands on g7 in front
    of the empty square g8, f8 is empty too, and the black king and rook
    have not moved; black is to move. *)
Definition pawnOnG7Game : list (Position * Position) :=
  [ (sq 6 7, sq 4 7); (sq 1 6, sq 3 6); (sq 4 7, sq 3 6); (sq 0 6, sq 2 5);
    (sq 3 6, sq 2 6); (sq 0 5, sq 2 7); (sq 2 6, sq 1 6) ].

(** A move record with its timestamp replaced by [t]. *)
Definition withTimestamp (t : Z) (m : Move) : Move :=
  {| from := from m; to := to m; piece := piece m;
     capturedPiece := capturedPiece m; notation := notation m;
     timestamp := t; isCheck := isCheck m; isCheckmate := isCheckmate m;
     isCastling := isCastling m; isEnPassant := isEnPassant m;
     promotionPiece := promotionPiece m |}.

(** [Number.MAX_SAFE_INTEGER]: up to this magnitude the numbers of the
    source are integers and adding or subtracting one is exact, so the
    integers of this development compute what the source computes. *)
Definition maxSafeInteger : Z := 2 ^ 53 - 1.

Definition safePos (p : Position) : Prop :=
  Z.abs (row p) ≤ maxSafeInteger ∧ Z.abs (col p) ≤ maxSafeInteger.

(** * Reasoning about calls that return *)

Lemma returns_bind {A B} (m : Exc A) (f : A → Exc B) (P : A → Prop) (Q : B → Prop) :
  returns m P → (∀ a, P a → returns (f a) Q) → returns (bindExc m f) Q.
Proof. destruct m as [a|]; simpl; [auto | tauto]. Qed.

Lemma returns_mono {A} (m : Exc A) (P Q : A → Prop) :
  returns m P → (∀ a, P a → Q a) → returns m Q.
Proof. destruct m; simpl; auto. Qed.

Lemma returns_inv {A} (m : Exc A) (P : A → Prop) :
  returns m P → ∃ a, m = Ok a ∧ P a.
Proof. destruct m as [a|]; simpl; [eauto | tauto]. Qed.

Lemma returns_eq {A} (m : Exc A) (P : A → Prop) a : m = Ok a → P a → returns m P.
Proof. by intros ->. Qed.

Lemma bind_Ok_inv {A B} (m : Exc A) (f : A → Exc B) b :
  bindExc m f = Ok b → ∃ a, m = Ok a ∧ f a = Ok b.
Proof. destruct m as [a|]; simpl; [eauto | discriminate]. Qed.

Section Loops.
Context {A B : Type}.

Lemma forPush_returns (body : A → Exc (list B)) (P : B → Prop) (l : list A) :
  (∀ x, x ∈ l → returns (body x) (Forall P)) →
  returns (forPush body l) (Forall P).
Proof.
  induction l as [|x l IH]; intros Hbody; simpl; [constructor|].
  eapply returns_bind; [apply Hbody; left|].
  intros ms Hms. eapply returns_bind; [apply IH; intros; apply Hbody; by right|].
  intros more Hmore. simpl. by apply Forall_app.
Qed.

Lemma forReturn_returns (body : A → Exc (option B)) (Q : B → Prop) (l : list A) :
  (∀ x, x ∈ l → returns (body x) (λ r, ∀ v, r = Some v → Q v)) →
  returns (forReturn body l)
    (λ r, (∀ v, r = Some v → Q v) ∧ (r = None → ∀ x, x ∈ l → body x = Ok None)).
Proof.
  induction l as [|x l IH]; intros Hbody; simpl.
  - split; [discriminate | intros _ x Hx; by apply elem_of_nil in Hx].
  - destruct (returns_inv _ _ (Hbody x ltac:(left))) as (r & Hr & HQ).
    rewrite Hr. simpl. destruct r as [v|].
    + simpl. split; [intros ? [= <-]; auto | discriminate].
    + eapply returns_mono; [apply IH; intros; apply Hbody; by right|].
      intros r [H1 H2]. split; [done|].
      intros -> y [->|Hy]%elem_of_cons; auto.
Qed.

Lemma filterM_returns (p : A → Exc bool) (l : list A) :
  (∀ x, x ∈ l → returns (p x) (λ _, True)) →
  returns (filterM p l) (λ l', ∀ x, x ∈ l' → x ∈ l ∧ p x = Ok true).
Proof.
  induction l as [|x l IH]; intros Hp; simpl.
  - intros x Hx. by apply elem_of_nil in Hx.
  - destruct (returns_inv _ _ (Hp x ltac:(left))) as (k & Hk & _).
    rewrite Hk. simpl.
    eapply returns_bind; [apply IH; intros; apply Hp; by right|].
    intros more Hmore. simpl. intros y Hy. destruct k.
    + apply elem_of_cons in Hy as [->|Hy]; [split; [left|done]|].
      destruct (Hmore y Hy). split; [by right|done].
    + destruct (Hmore y Hy). split; [by right|done].
Qed.

Lemma everyM_returns (p : A → Exc bool) (l : list A) :
  (∀ x, x ∈ l → returns (p x) (λ _, True)) →
  returns (everyM p l) (λ _, True).
Proof.
  induction l as [|x l IH]; intros Hp; simpl; [done|].
  destruct (returns_inv _ _ (Hp x ltac:(left))) as (k & Hk & _).
  rewrite Hk. simpl. destruct k; [|done].
  apply IH. intros; apply Hp; by right.
Qed.
End Loops.

(** * Well-formed boards and states *)

Lemma validPos_bounds p : validPos p ↔ 0 ≤ row p < 8 ∧ 0 ≤ col p < 8.
Proof. unfold validPos, isValidPosition. rewrite !andb_true_iff. lia. Qed.

Lemma positionsEqual_eq p q : positionsEqual p q = true ↔ p = q.
Proof.
  unfold positionsEqual. destruct p, q; simpl. rewrite andb_true_iff. split.
  - intros [?%Z.eqb_eq ?%Z.eqb_eq]. by subst.
  - intros [= -> ->]. by rewrite !Z.eqb_refl.
Qed.

Lemma existsb_positionsEqual (ms : list Position) (t : Position) :
  existsb (λ m, positionsEqual m t) ms = true ↔ t ∈ ms.
Proof.
  rewrite existsb_exists. split.
  - intros (m & Hm%list_elem_of_In & ->%positionsEqual_eq). done.
  - intros Ht. exists t. split; [by apply list_elem_of_In | by apply positionsEqual_eq].
Qed.

Lemma index_Some {A} (l : list A) (i : Z) :
  0 ≤ i < Z.of_nat (length l) → ∃ x, index l i = Some x ∧ l !! Z.to_nat i = Some x.
Proof.
  intros Hi. unfold index. rewrite decide_True by lia.
  destruct (lookup_lt_is_Some_2 l (Z.to_nat i)) as [x Hx]; [lia | eauto].
Qed.

Lemma wfBoard_length b : wfBoard b → length b = 8%nat.
Proof. intros [H%Nat.eqb_eq _]%andb_true_iff. done. Qed.

Lemma wfBoard_row b i cells :
  wfBoard b → b !! i = Some cells →
  length cells = 8%nat ∧ ∀ s, s ∈ cells → properSlot s = true.
Proof.
  intros [_ H]%andb_true_iff Hi. rewrite forallb_forall in H.
  specialize (H cells). destruct (proj1 (andb_true_iff _ _) (H ltac:(apply list_elem_of_In; by eapply list_elem_of_lookup_2))) as [Hl%Nat.eqb_eq Hs].
  split; [done|]. intros s Hs'. rewrite forallb_forall in Hs. by apply Hs, list_elem_of_In.
Qed.

Lemma readCell_wf b r c :
  wfBoard b → 0 ≤ r < 8 → 0 ≤ c < 8 →
  ∃ s, readCell b r c = Ok s ∧ properSlot s = true.
Proof.
  intros Hb Hr Hc. unfold readCell.
  destruct (index_Some b r) as (cells & -> & Hcells); [rewrite (wfBoard_length b Hb); lia|].
  destruct (wfBoard_row b _ cells Hb Hcells) as [Hlen Hslots].
  destruct (index_Some cells c) as (s & -> & Hs); [lia|].
  specialize (Hslots s ltac:(by eapply list_elem_of_lookup_2)).
  exists s. by destruct s.
Qed.

Lemma at_wf b p :
  wfBoard b → validPos p → ∃ s, at_ b p = Ok s ∧ properSlot s = true.
Proof. intros Hb [? ?]%validPos_bounds. by apply readCell_wf. Qed.

Lemma wfBoard_intro b :
  length b = 8%nat →
  (∀ cells, cells ∈ b → length cells = 8%nat ∧ ∀ s, s ∈ cells → properSlot s = true) →
  wfBoard b.
Proof.
  intros Hl H. apply andb_true_iff. split; [by apply Nat.eqb_eq|].
  apply forallb_forall. intros cells Hc%list_elem_of_In.
  destruct (H cells Hc) as [Hlen Hs]. apply andb_true_iff. split; [by apply Nat.eqb_eq|].
  apply forallb_forall. intros s Hs'%list_elem_of_In. auto.
Qed.

Lemma writeCell_wf b r c v :
  wfBoard b → 0 ≤ r < 8 → 0 ≤ c < 8 → properSlot v = true →
  ∃ b', writeCell b r c v = Ok b' ∧ wfBoard b'.
Proof.
  intros Hb Hr Hc Hv. unfold writeCell.
  destruct (index_Some b r) as (cells & -> & Hcells); [rewrite (wfBoard_length b Hb); lia|].
  destruct (wfBoard_row b _ cells Hb Hcells) as [Hlen Hslots].
  eexists; split; [done|]. apply wfBoard_intro.
  - rewrite length_insert. by apply wfBoard_length.
  - intros cells' [i Hi]%list_elem_of_lookup_1.
    destruct (decide (i = Z.to_nat r)) as [->|Hne].
    + rewrite list_lookup_insert_eq in Hi by (rewrite (wfBoard_length b Hb); lia).
      injection Hi as <-. unfold writeRow.
      rewrite decide_False by lia. rewrite decide_True by lia.
      rewrite length_insert. split; [done|].
      intros s [j Hj]%list_elem_of_lookup_1.
      destruct (decide (j = Z.to_nat c)) as [->|Hne'].
      * rewrite list_lookup_insert_eq in Hj by lia. by injection Hj as <-.
      * rewrite list_lookup_insert_ne in Hj by done.
        apply Hslots. by eapply list_elem_of_lookup_2.
    + rewrite list_lookup_insert_ne in Hi by done.
      eapply wfBoard_row; eauto.
Qed.

Lemma spreadRow_proper cells :
  (∀ s, s ∈ cells → properSlot s = true) → spreadRow cells = cells.
Proof.
  induction cells as [|s cells IH]; intros H; [done|].
  unfold spreadRow in *. rewrite fmap_cons. rewrite IH.
  - specialize (H s ltac:(left)). by destruct s.
  - intros; apply H; by right.
Qed.

(** Copying a well-formed board gives an equal board (as a value). *)
Lemma copyBoard_wf b : wfBoard b → copyBoard b = b.
Proof.
  intros Hb. unfold copyBoard.
  assert (H : ∀ cells, cells ∈ b → spreadRow cells = cells).
  { intros cells [i Hi]%list_elem_of_lookup_1. apply spreadRow_proper.
    eapply wfBoard_row; eauto. }
  clear Hb. induction b as [|x b IH]; [done|].
  rewrite fmap_cons, IH, (H x); [done | left | intros; apply H; by right].
Qed.

(** * The generators return, and return squares of the board *)

Ltac read_at b p :=
  let s := fresh "s" in
  let Hs := fresh "Hs" in
  let E := fresh "E" in
  destruct (at_wf b p) as (s & E & Hs); [assumption | assumption |];
  rewrite E; simpl; clear E.

Lemma getPawnMoves_returns b from c ep :
  wfBoard b → (∀ t, ep = Some t → validPos t) →
  returns (getPawnMoves b from c ep)
    (Forall (λ t, validPos t ∧ forwardOf c from t)).
Proof.
  intros Hb Hep. unfold getPawnMoves.
  set (P := λ t, validPos t ∧ forwardOf c from t).
  assert (Hcap : ∀ target, forwardOf c from target → returns
    (if isValidPosition target
     then s ← at_ b target;
          match s with
          | Occ p => Ok (if negb (colorEq (color p) c) then [target] else [])
          | _ => Ok []
          end
     else Ok []) (Forall P)).
  { intros target Hfw.
    destruct (isValidPosition _) eqn:Hv; simpl; [|constructor].
    read_at b target.
    destruct s as [| | |p]; simpl; try constructor.
    destruct (negb _); simpl; repeat constructor; done. }
  set (one := {| row := row from + match c with white => -1 | black => 1 end;
                 col := col from |}).
  set (two := {| row := row from + 2 * match c with white => -1 | black => 1 end;
                 col := col from |}).
  assert (Hfw1 : forwardOf c from one) by (destruct c; simpl; lia).
  assert (Hfw2 : forwardOf c from two) by (destruct c; simpl; lia).
  eapply returns_bind with (P := Forall P).
  - destruct (isValidPosition one) eqn:Hv1; [|constructor].
    read_at b one.
    destruct (isNull s); [|constructor].
    assert (Hone : Forall P [one]) by (apply Forall_cons_2; [done|constructor]).
    destruct (row from =? _); [|done].
    destruct (isValidPosition two) eqn:Hv2; [|done].
    read_at b two.
    destruct (isNull s0); [|done].
    apply Forall_cons_2; [done|]. apply Forall_cons_2; [done|constructor].
  - intros forward Hf.
    eapply returns_bind; [apply Hcap; destruct c; simpl; lia|]. intros left Hl.
    eapply returns_bind; [apply Hcap; destruct c; simpl; lia|]. intros right Hr. simpl.
    repeat (apply Forall_app; split); try done.
    destruct ep as [t|]; [|constructor].
    destruct (_ || _) eqn:Hor; [|constructor].
    repeat constructor; [by apply Hep|].
    apply orb_true_iff in Hor as [<-%positionsEqual_eq | <-%positionsEqual_eq];
      destruct c; simpl; lia.
Qed.

Lemma slide_returns b from c rowDir colDir steps :
  wfBoard b →
  returns (slide b from c rowDir colDir steps) (Forall validPos).
Proof.
  intros Hb. induction steps as [|i rest IH]; simpl; [constructor|].
  destruct (isValidPosition _) eqn:Hv; simpl; [|constructor].
  read_at b {| row := row from + i * rowDir; col := col from + i * colDir |}.
  destruct s as [| | |p]; try done; simpl.
  - eapply returns_bind; [apply IH|]. intros more Hm. simpl. by constructor.
  - destruct (negb _); repeat constructor. done.
Qed.

Lemma slideAll_returns b from c directions :
  wfBoard b → returns (slideAll b from c directions) (Forall validPos).
Proof.
  intros Hb. apply forPush_returns. intros d _. by apply slide_returns.
Qed.

Lemma stepAll_returns b from c offsets :
  wfBoard b → returns (stepAll b from c offsets) (Forall validPos).
Proof.
  intros Hb. apply forPush_returns. intros o _. cbv beta zeta.
  destruct (isValidPosition {| row := row from + o.1; col := col from + o.2 |}) eqn:Hv;
    simpl; [|constructor].
  read_at b {| row := row from + o.1; col := col from + o.2 |}.
  destruct s as [| | |p]; try done; simpl.
  - by repeat constructor.
  - destruct (negb _); repeat constructor. done.
Qed.

Lemma getQueenMoves_returns b from c :
  wfBoard b → returns (getQueenMoves b from c) (Forall validPos).
Proof.
  intros Hb. unfold getQueenMoves.
  eapply returns_bind; [by apply slideAll_returns|]. intros r Hr.
  eapply returns_bind; [by apply slideAll_returns|]. intros d Hd.
  simpl. by apply Forall_app.
Qed.

Lemma allOf_returns (tests : list (Exc bool)) :
  (∀ t, t ∈ tests → returns t (λ _, True)) → returns (allOf tests) (λ _, True).
Proof.
  induction tests as [|t tests IH]; intros H; simpl; [done|].
  destruct (returns_inv _ _ (H t ltac:(left))) as (v & -> & _). simpl.
  destruct v; [|done]. apply IH. intros; apply H. by right.
Qed.

Lemma emptyAt_returns b r c :
  wfBoard b → 0 ≤ r < 8 → 0 ≤ c < 8 → returns (emptyAt b r c) (λ _, True).
Proof.
  intros Hb Hr Hc. unfold emptyAt.
  by destruct (readCell_wf b r c Hb Hr Hc) as (s & -> & _).
Qed.

Section KingMovesReturn.
Variable attacked : Board → Position → PieceColor → Exc bool.
Variable b : Board.
Hypothesis Hb : wfBoard b.

Lemma castle_returns_norights r between pass by_ target :
  castle attacked b false r between pass by_ target = Ok [].
Proof. reflexivity. Qed.

Lemma castle_returns right r between pass by_ target :
  (∀ sq c, returns (attacked b sq c) (λ _, True)) →
  0 ≤ r < 8 → Forall (λ c, 0 ≤ c < 8) between → 0 ≤ target < 8 →
  returns (castle attacked b right r between pass by_ target) (Forall validPos).
Proof.
  intros Hatt Hr Hbetween Ht. unfold castle.
  eapply returns_bind with (P := λ _, True).
  - apply allOf_returns. intros t [->|Ht']%elem_of_cons; [done|].
    apply elem_of_app in Ht' as [Ht'|Ht'].
    + apply list_elem_of_fmap in Ht' as (c & -> & Hc).
      rewrite Forall_forall in Hbetween. apply emptyAt_returns; auto.
    + apply list_elem_of_fmap in Ht' as (c & -> & Hc).
      unfold notAttacked.
      by destruct (returns_inv _ _ (Hatt {| row := r; col := c |} by_)) as (a & -> & _).
  - intros ok _. destruct ok; simpl; repeat constructor.
    apply validPos_bounds. simpl. lia.
Qed.

Lemma getKingMovesWith_norights from c :
  returns (getKingMovesWith attacked b from c noCastlingRights) (Forall validPos).
Proof.
  unfold getKingMovesWith.
  eapply returns_bind; [by apply stepAll_returns|]. intros regular Hreg.
  destruct (_ && _); [|destruct (_ && _)]; simpl; rewrite ?app_nil_r; done.
Qed.

Lemma getKingMovesWith_returns from c rights :
  (∀ sq c, returns (attacked b sq c) (λ _, True)) →
  returns (getKingMovesWith attacked b from c rights) (Forall validPos).
Proof.
  intros Hatt. unfold getKingMovesWith.
  eapply returns_bind; [by apply stepAll_returns|]. intros regular Hreg.
  assert (Hc : ∀ right r between pass by_ target,
    0 ≤ r < 8 → Forall (λ c, 0 ≤ c < 8) between → 0 ≤ target < 8 →
    returns (castle attacked b right r between pass by_ target) (Forall validPos))
    by (intros; by apply castle_returns).
  destruct (_ && _); [|destruct (_ && _)]; try done.
  - eapply returns_bind; [apply Hc; [lia | repeat constructor; lia | lia]|]. intros ks Hks.
    eapply returns_bind; [apply Hc; [lia | repeat constructor; lia | lia]|]. intros qs Hqs.
    simpl. repeat (apply Forall_app; split); done.
  - eapply returns_bind; [apply Hc; [lia | repeat constructor; lia | lia]|]. intros ks Hks.
    eapply returns_bind; [apply Hc; [lia | repeat constructor; lia | lia]|]. intros qs Hqs.
    simpl. repeat (apply Forall_app; split); done.
Qed.
End KingMovesReturn.

Lemma elem_of_rows8 x : x ∈ rows8 ↔ 0 ≤ x < 8.
Proof. unfold rows8. rewrite elem_of_seqZ. lia. Qed.

(** The row-major scan of the 64 squares with an early [return]. *)
Lemma scan_returns {R} (body : Z → Z → Exc (option R)) (Q : R → Prop) :
  (∀ r c, 0 ≤ r < 8 → 0 ≤ c < 8 → returns (body r c) (λ x, ∀ v, x = Some v → Q v)) →
  returns (forReturn (λ r, forReturn (λ c, body r c) rows8) rows8)
    (λ x, (∀ v, x = Some v → Q v) ∧
          (x = None → ∀ r c, 0 ≤ r < 8 → 0 ≤ c < 8 → body r c = Ok None)).
Proof.
  intros Hbody.
  assert (Hin : ∀ r, 0 ≤ r < 8 →
    returns (forReturn (λ c, body r c) rows8)
      (λ x, (∀ v, x = Some v → Q v) ∧
            (x = None → ∀ c, 0 ≤ c < 8 → body r c = Ok None))).
  { intros r Hr. eapply returns_mono.
    - apply forReturn_returns with (Q := Q). intros c Hc%elem_of_rows8. by apply Hbody.
    - intros x [H1 H2]. split; [done|]. intros -> c Hc. apply H2; [done|].
      by apply elem_of_rows8. }
  eapply returns_mono.
  - apply forReturn_returns with (Q := Q). intros r Hr%elem_of_rows8.
    eapply returns_mono; [by apply Hin|]. by intros x [H1 _].
  - intros x [H1 H2]. split; [done|]. intros -> r c Hr Hc.
    specialize (H2 eq_refl r (proj2 (elem_of_rows8 r) Hr)).
    destruct (returns_inv _ _ (Hin r Hr)) as (y & Hy & _ & Hnone).
    rewrite H2 in Hy. injection Hy as <-. by apply Hnone.
Qed.

Lemma getPossibleMovesWithoutCheckValidation_returns b from :
  wfBoard b → validPos from →
  returns (getPossibleMovesWithoutCheckValidation b from) (Forall validPos).
Proof.
  intros Hb Hfrom. unfold getPossibleMovesWithoutCheckValidation.
  read_at b from. destruct s as [| | |p]; try constructor.
  destruct (type p).
  - eapply returns_mono; [by apply getPawnMoves_returns|].
    intros ms Hms. eapply Forall_impl; [done|]. by intros t [? _].
  - by apply slideAll_returns.
  - by apply stepAll_returns.
  - by apply slideAll_returns.
  - by apply getQueenMoves_returns.
  - eapply returns_bind; [by apply getKingMovesWith_norights|].
    intros ms Hms. simpl. rewrite Forall_forall in Hms. apply Forall_forall.
    intros t [_ Ht]%list_elem_of_filter. auto.
Qed.

Lemma attackedFrom_returns b square byColor r c :
  wfBoard b → 0 ≤ r < 8 → 0 ≤ c < 8 →
  returns (attackedFrom b square byColor r c) (λ x, ∀ v, x = Some v → v = true).
Proof.
  intros Hb Hr Hc. unfold attackedFrom.
  destruct (readCell_wf b r c Hb Hr Hc) as (s & -> & Hs). simpl.
  destruct s as [| | |p]; try done. destruct (colorEq _ _); [|done].
  eapply returns_bind.
  - apply getPossibleMovesWithoutCheckValidation_returns; [done|].
    apply validPos_bounds. simpl. lia.
  - intros ms _. simpl. destruct (existsb _ _); [by intros ? [= <-] | done].
Qed.

Lemma isSquareAttacked_returns b square byColor :
  wfBoard b → returns (isSquareAttacked b square byColor) (λ _, True).
Proof.
  intros Hb. unfold isSquareAttacked.
  eapply returns_bind; [|done].
  apply scan_returns with (Q := λ v, v = true). intros. by apply attackedFrom_returns.
Qed.

(** A piece of [byColor] whose pseudo-legal moves contain the square makes
    the scan answer [true]. *)
Lemma isSquareAttacked_by b square byColor from p ms :
  wfBoard b → validPos from →
  at_ b from = Ok (Occ p) → color p = byColor →
  getPossibleMovesWithoutCheckValidation b from = Ok ms → square ∈ ms →
  isSquareAttacked b square byColor = Ok true.
Proof.
  intros Hb [Hr Hc]%validPos_bounds Hat Hcol Hms Hin.
  unfold isSquareAttacked.
  destruct (returns_inv _ _ (scan_returns (attackedFrom b square byColor) (λ v, v = true)
    (λ r c Hr Hc, attackedFrom_returns b square byColor r c Hb Hr Hc)))
    as (x & -> & Hsome & Hnone).
  simpl. destruct x as [v|]; [by rewrite (Hsome v eq_refl)|].
  specialize (Hnone eq_refl (row from) (col from) Hr Hc).
  unfold attackedFrom in Hnone. unfold at_ in Hat. rewrite Hat in Hnone. simpl in Hnone.
  unfold colorEq in Hnone. rewrite bool_decide_eq_true_2 in Hnone by done.
  replace {| row := row from; col := col from |} with from in Hnone by by destruct from.
  rewrite Hms in Hnone. simpl in Hnone.
  rewrite (proj2 (existsb_positionsEqual ms square) Hin) in Hnone. discriminate.
Qed.

Lemma kingAt_returns b c r k :
  wfBoard b → 0 ≤ r < 8 → 0 ≤ k < 8 →
  returns (kingAt b c r k)
    (λ x, ∀ v, x = Some v →
       validPos v ∧ at_ b v = Ok (Occ {| type := king; color := c |})).
Proof.
  intros Hb Hr Hk. unfold kingAt.
  destruct (readCell_wf b r k Hb Hr Hk) as (s & E & Hs). rewrite E. simpl.
  destruct s as [| | |p]; try done.
  destruct (_ && _) eqn:Hkc; [|done]. intros v [= <-].
  apply andb_true_iff in Hkc as [Ht%bool_decide_eq_true Hc%bool_decide_eq_true].
  split; [apply validPos_bounds; simpl; lia|].
  unfold at_. simpl. rewrite E. destruct p; simpl in *. by subst.
Qed.

Lemma findKing_returns b c :
  wfBoard b →
  returns (findKing b c)
    (λ x, ∀ v, x = Some v →
       validPos v ∧ at_ b v = Ok (Occ {| type := king; color := c |})).
Proof.
  intros Hb. unfold findKing. eapply returns_mono.
  - apply scan_returns with
      (Q := λ v, validPos v ∧ at_ b v = Ok (Occ {| type := king; color := c |})).
    intros. by apply kingAt_returns.
  - by intros x [H _].
Qed.

Lemma wouldBeInCheck_returns b from to c :
  wfBoard b → validPos from → validPos to →
  returns (wouldBeInCheck b from to c) (λ _, True).
Proof.
  intros Hb Hfrom Hto. unfold wouldBeInCheck. rewrite copyBoard_wf by done.
  read_at b from.
  apply validPos_bounds in Hfrom as [? ?]. apply validPos_bounds in Hto as [? ?].
  destruct (writeCell_wf b (row to) (col to) s) as (b1 & -> & Hb1); try done. simpl.
  destruct (writeCell_wf b1 (row from) (col from) Null) as (b2 & -> & Hb2); try done. simpl.
  eapply returns_bind; [by apply findKing_returns|].
  intros [k|] _; [|done]. by apply isSquareAttacked_returns.
Qed.

Lemma isInCheck_returns b c : wfBoard b → returns (isInCheck b c) (λ _, True).
Proof.
  intros Hb. unfold isInCheck.
  eapply returns_bind; [by apply findKing_returns|].
  intros [k|] _; [|done]. by apply isSquareAttacked_returns.
Qed.

Lemma getPossibleMoves_returns b from s :
  wfBoard b → validPos from → (∀ t, enPassantTarget s = Some t → validPos t) →
  returns (getPossibleMoves b from s)
    (Forall (λ t, validPos t ∧
       ∀ p, at_ b from = Ok (Occ p) → type p = pawn → forwardOf (color p) from t)).
Proof.
  intros Hb Hfrom Hep. unfold getPossibleMoves.
  destruct (at_wf b from Hb Hfrom) as (s0 & E & Hs). rewrite E. simpl.
  destruct s0 as [| | |p]; try constructor.
  set (P := λ t, validPos t ∧ (type p = pawn → forwardOf (color p) from t)).
  eapply returns_bind with (P := Forall P).
  - assert (Hweak : ∀ m, type p ≠ pawn →
      returns m (Forall validPos) → returns m (Forall P)).
    { intros m Hne Hm. eapply returns_mono; [done|]. intros ms Hms.
      eapply Forall_impl; [done|]. intros t Ht. split; [done|]. by intros. }
    destruct (type p) eqn:Ht.
    + eapply returns_mono; [by apply getPawnMoves_returns|].
      intros ms Hms. eapply Forall_impl; [done|]. intros t [? ?]. by split.
    + apply Hweak; [done|]. by apply slideAll_returns.
    + apply Hweak; [done|]. by apply stepAll_returns.
    + apply Hweak; [done|]. by apply slideAll_returns.
    + apply Hweak; [done|]. by apply getQueenMoves_returns.
    + apply Hweak; [done|]. apply getKingMovesWith_returns; [done|].
      intros. by apply isSquareAttacked_returns.
  - intros moves Hmoves. rewrite Forall_forall in Hmoves.
    eapply returns_mono.
    + apply filterM_returns. intros t Ht.
      eapply returns_bind; [apply wouldBeInCheck_returns; try done; by apply Hmoves|].
      done.
    + intros ms Hms. apply Forall_forall. intros t [Ht _]%Hms.
      destruct (Hmoves t Ht) as [? Hfw]. split; [done|].
      intros q [= <-]. done.
Qed.

Lemma Forall_True {A} (l : list A) : Forall (λ _, True) l.
Proof. by apply Forall_forall. Qed.

Lemma getAllPossibleMoves_returns now b c s :
  wfBoard b → (∀ t, enPassantTarget s = Some t → validPos t) →
  returns (getAllPossibleMoves now b c s) (λ _, True).
Proof.
  intros Hb Hep. unfold getAllPossibleMoves.
  eapply returns_mono; [|done].
  apply forPush_returns with (P := λ _, True). intros r Hr%elem_of_rows8.
  apply forPush_returns. intros k Hk%elem_of_rows8.
  destruct (readCell_wf b r k Hb Hr Hk) as (s0 & -> & Hs). simpl.
  destruct s0 as [| | |p]; try constructor.
  destruct (colorEq _ _); [|constructor].
  eapply returns_bind.
  - apply getPossibleMoves_returns; [done | | done]. apply validPos_bounds. simpl. lia.
  - intros ms Hms. rewrite Forall_forall in Hms.
    apply forPush_returns. intros t [Ht _]%Hms.
    destruct (at_wf b t Hb Ht) as (s1 & -> & _). simpl. apply Forall_True.
Qed.

Lemma flatNonNull_wf b s : wfBoard b → s ∈ flatNonNull b → ∃ p, s = Occ p.
Proof.
  intros Hb [[Hh Hn] Hin]%list_elem_of_filter.
  apply list_elem_of_In, in_concat in Hin as (cells & Hc%list_elem_of_In & Hs%list_elem_of_In).
  apply list_elem_of_lookup_1 in Hc as [i Hi].
  destruct (wfBoard_row b i cells Hb Hi) as [_ Hp]. specialize (Hp s Hs).
  destruct s; try done. eauto.
Qed.

Lemma getGameStatus_returns now s :
  wfState s → returns (getGameStatus now s) (λ _, True).
Proof.
  intros [Hb Hep]. unfold getGameStatus. cbv zeta.
  eapply returns_bind; [by apply isInCheck_returns|]. intros inCheck _.
  eapply returns_bind; [by apply getAllPossibleMoves_returns|]. intros moves _.
  destruct (_ =? _)%nat; [done|]. destruct inCheck; [done|].
  destruct (50 <=? _); [done|]. destruct (_ <=? _)%nat; [|done].
  eapply returns_bind; [|done].
  apply everyM_returns. intros x Hx.
  by destruct (flatNonNull_wf (board s) x Hb Hx) as [p ->].
Qed.

(** What an accepted move tells about its input and its result. *)
Lemma makeMove_accepted_inv now h s from to h' s' :
  makeMove now h s from to = Ok (h', Some s') →
  ∃ p ms, at_ (board s) from = Ok (Occ p) ∧ color p = currentPlayer s ∧
    getPossibleMoves (board s) from s = Ok ms ∧ to ∈ ms ∧
    castlingRights s' = updateCastlingRights (castlingRights s) p (currentPlayer s) from.
Proof.
  unfold makeMove. intros H.
  apply bind_Ok_inv in H as (s0 & Hat & H).
  destruct s0 as [| | |p]; try discriminate.
  destruct (colorEq (color p) (currentPlayer s)) eqn:Hc; simpl in H; [|discriminate].
  apply bool_decide_eq_true in Hc.
  apply bind_Ok_inv in H as (ms & Hms & H).
  destruct (existsb _ ms) eqn:Hex; simpl in H; [|discriminate].
  apply existsb_positionsEqual in Hex.
  exists p, ms. repeat split; try done.
  repeat (apply bind_Ok_inv in H as (? & _ & H)).
  by injection H as _ <-.
Qed.

Lemma makeMove_rejects_foreign now h s from to s0 :
  at_ (board s) from = Ok s0 →
  (∀ p, s0 = Occ p → color p ≠ currentPlayer s) →
  makeMove now h s from to = Ok (h, None).
Proof.
  intros Hat Hs. unfold makeMove. rewrite Hat. simpl.
  destruct s0 as [| | |p]; try done.
  unfold colorEq. rewrite bool_decide_eq_false_2 by by apply Hs. done.
Qed.

Lemma makeMove_rejects_illegal now h s from to ms :
  getPossibleMoves (board s) from s = Ok ms → to ∉ ms →
  makeMove now h s from to = Ok (h, None).
Proof.
  intros Hms Hto. unfold makeMove.
  unfold getPossibleMoves in Hms.
  destruct (at_ (board s) from) as [s0|] eqn:Hat; [|discriminate]. simpl in *.
  destruct s0 as [| | |p]; try done.
  destruct (negb _); [done|].
  unfold getPossibleMoves. rewrite Hat. simpl. rewrite Hms. simpl.
  destruct (existsb _ ms) eqn:Hex; [|done].
  by apply existsb_positionsEqual in Hex.
Qed.

Lemma average_valid a c : 0 ≤ a < 8 → 0 ≤ c < 8 → 0 ≤ (a + c) / 2 < 8.
Proof. intros. split; [apply Z.div_pos; lia | apply Z.div_lt_upper_bound; lia]. Qed.

Lemma makeMove_accepts now h s from to p ms :
  wfState s → validPos from →
  at_ (board s) from = Ok (Occ p) → color p = currentPlayer s →
  getPossibleMoves (board s) from s = Ok ms → to ∈ ms →
  returns (makeMove now h s from to) (λ r, ∃ s', r.2 = Some s' ∧ wfState s').
Proof.
  intros [Hb Hep] Hfrom Hat Hcol Hms Hto.
  pose proof (getPossibleMoves_returns (board s) from s Hb Hfrom Hep) as Hret.
  rewrite Hms in Hret. simpl in Hret. rewrite Forall_forall in Hret.
  destruct (Hret to Hto) as [Hvto Hfw]. specialize (Hfw p Hat).
  pose proof (proj1 (validPos_bounds from) Hfrom) as [Hfr Hfc].
  pose proof (proj1 (validPos_bounds to) Hvto) as [Htr Htc].
  unfold makeMove. rewrite Hat. simpl.
  unfold colorEq at 1. rewrite bool_decide_eq_true_2 by done. simpl.
  rewrite Hms. simpl.
  rewrite (proj2 (existsb_positionsEqual ms to) Hto). simpl.
  rewrite copyBoard_wf by done.
  destruct (at_wf (board s) to Hb Hvto) as (cap & -> & Hcap). simpl.
  eapply returns_bind with (P := wfBoard).
  { destruct (_ && _) eqn:Hep'; [|done].
    apply andb_true_iff in Hep' as [Hpawn%bool_decide_eq_true _].
    specialize (Hfw Hpawn). rewrite Hcol in Hfw.
    destruct (writeCell_wf (board s)
      (match currentPlayer s with white => row to + 1 | black => row to - 1 end)
      (col to) Null) as (b1 & -> & Hb1); try done.
    destruct (currentPlayer s); simpl in Hfw; lia. }
  intros b1 Hb1.
  eapply returns_bind with (P := wfBoard).
  { destruct (_ && _); [|done].
    assert (Hc7 : ∀ c, c = 7 ∨ c = 0 → ∃ r, readCell b1 (row from) c = Ok r ∧ properSlot r = true)
      by (intros c [-> | ->]; apply readCell_wf; try done; lia).
    assert (Hw : ∀ c r, c = 5 ∨ c = 3 → properSlot r = true →
      returns (nb ← writeCell b1 (row from) c r;
               writeCell nb (row from) (if col from <? col to then 7 else 0) Null) wfBoard).
    { intros c r Hc Hr.
      destruct (writeCell_wf b1 (row from) c r) as (b2 & -> & Hb2); try done; [lia|]. simpl.
      destruct (writeCell_wf b2 (row from) (if col from <? col to then 7 else 0) Null)
        as (b3 & -> & Hb3); try done. destruct (_ <? _); lia. }
    destruct (col from <? col to) eqn:Hks.
    - destruct (Hc7 7) as (r & -> & Hr); [by left|]. simpl. apply (Hw 5); [by left | done].
    - destruct (Hc7 0) as (r & -> & Hr); [by right|]. simpl. apply (Hw 3); [by right | done]. }
  intros b2 Hb2.
  destruct (writeCell_wf b2 (row to) (col to) (Occ p)) as (b3 & -> & Hb3); try done. simpl.
  destruct (writeCell_wf b3 (row from) (col from) Null) as (b4 & -> & Hb4); try done. simpl.
  eapply returns_bind with (P := wfBoard).
  { destruct (_ && _); [|done].
    by destruct (writeCell_wf b4 (row to) (col to) (Occ {| type := queen; color := color p |}))
      as (b5 & -> & Hb5). }
  intros b5 Hb5.
  match goal with |- returns (bindExc (getGameStatus now ?st) _) _ =>
    assert (Hwf : wfState st) end.
  { split; [done|]. simpl. intros t Ht.
    destruct (_ && _); [|discriminate]. injection Ht as <-.
    apply validPos_bounds. simpl. split; [by apply average_valid | done]. }
  eapply returns_bind; [by apply getGameStatus_returns|].
  intros st _. simpl. eexists. split; [done|].
  destruct Hwf as [? ?]. split; done.
Qed.

(** * Reachable states are states of the data model *)

Lemma at_Occ_valid b p q : wfBoard b → at_ b p = Ok (Occ q) → validPos p.
Proof.
  intros Hb. unfold at_, readCell, index. intros H.
  destruct (decide (0 ≤ row p)) as [Hr|]; [|discriminate].
  destruct (b !! Z.to_nat (row p)) as [cells|] eqn:Hcells; [|discriminate].
  destruct (decide (0 ≤ col p)) as [Hc|]; [|discriminate].
  destruct (cells !! Z.to_nat (col p)) as [x|] eqn:Hx; [|discriminate].
  apply lookup_lt_Some in Hcells as Hlt. rewrite (wfBoard_length b Hb) in Hlt.
  destruct (wfBoard_row b _ cells Hb Hcells) as [Hlen _].
  apply lookup_lt_Some in Hx. rewrite Hlen in Hx.
  apply validPos_bounds. lia.
Qed.

Lemma start_wf : wfState start.2.
Proof. split; [reflexivity | discriminate]. Qed.

Lemma makeMove_wf now h s from to h' s' :
  wfState s → makeMove now h s from to = Ok (h', Some s') → wfState s'.
Proof.
  intros Hs H.
  destruct (makeMove_accepted_inv _ _ _ _ _ _ _ H) as (p & ms & Hat & Hcol & Hms & Hto & _).
  pose proof (at_Occ_valid _ _ _ (proj1 Hs) Hat) as Hfrom.
  pose proof (makeMove_accepts now h s from to p ms Hs Hfrom Hat Hcol Hms Hto) as Hret.
  rewrite H in Hret. simpl in Hret. destruct Hret as (s'' & [= <-] & Hwf). done.
Qed.

Lemma play_wf now moves : ∀ h s h' s',
  wfState s → play now h s moves = Ok (Some (h', s')) → wfState s'.
Proof.
  induction moves as [|[f t] moves IH]; intros h s h' s' Hs H; simpl in H.
  - by injection H as _ <-.
  - apply bind_Ok_inv in H as ([h1 [s1|]] & Hm & H); [|discriminate].
    eapply IH; [|done]. by eapply makeMove_wf.
Qed.

(** Every state reached from the initial one by accepted moves has an 8x8
    board and an en-passant target on the board. *)
Lemma reachable_wf now moves h s :
  play now start.1 start.2 moves = Ok (Some (h, s)) → wfState s.
Proof. intros H. eapply play_wf; [apply start_wf | done]. Qed.

(** With every right off, [getKingMovesWith] does not depend on the scan it
    is given: the king case of [getPossibleMovesWithoutCheckValidation] is
    the source's call of [getKingMoves] with all four rights [false]. *)
Lemma getKingMoves_norights b from c attacked :
  getKingMovesWith attacked b from c noCastlingRights
  = getKingMoves b from c noCastlingRights.
Proof.
  unfold getKingMoves, getKingMovesWith.
  destruct (stepAll _ _ _ _); [|done]. simpl.
  destruct (_ && _); [|destruct (_ && _)]; reflexivity.
Qed.

(** * Boards without a king *)

Lemma readCell_elem b r k s :
  readCell b r k = Ok s → s ≠ Undefined → ∃ cells, cells ∈ b ∧ s ∈ cells.
Proof.
  unfold readCell, index. intros H Hs.
  destruct (decide (0 ≤ r)); [|discriminate].
  destruct (b !! Z.to_nat r) as [cells|] eqn:Hr; [|discriminate].
  injection H as H. exists cells. split; [by eapply list_elem_of_lookup_2|].
  destruct (decide (0 ≤ k)); [|congruence].
  destruct (cells !! Z.to_nat k) as [x|] eqn:Hk; [|congruence].
  assert (x = s) as -> by (destruct x; congruence).
  by eapply list_elem_of_lookup_2.
Qed.

Lemma hasKing_false_read b c r k :
  hasKing b c = false → readCell b r k ≠ Ok (kingOf c).
Proof.
  intros Hno Hread.
  destruct (readCell_elem b r k _ Hread) as (cells & Hc & Hs); [done|].
  assert (hasKing b c = true); [|congruence].
  apply existsb_exists. exists cells. split; [by apply list_elem_of_In|].
  apply existsb_exists. exists (kingOf c). split; [by apply list_elem_of_In|].
  by apply bool_decide_eq_true.
Qed.

Lemma index_nat {A} (l : list A) (i : Z) : 0 ≤ i → index l i = l !! Z.to_nat i.
Proof. intros. unfold index. by rewrite decide_True. Qed.

Lemma readCell_writeCell b r c v b' r' c' :
  wfBoard b → 0 ≤ r < 8 → 0 ≤ c < 8 → properSlot v = true →
  writeCell b r c v = Ok b' → 0 ≤ r' < 8 → 0 ≤ c' < 8 →
  readCell b' r' c' = if decide (r' = r ∧ c' = c) then Ok v else readCell b r' c'.
Proof.
  intros Hb Hr Hc Hv Hw Hr' Hc'. unfold writeCell in Hw.
  destruct (index_Some b r) as (cells & E & Hcells); [rewrite (wfBoard_length b Hb); lia|].
  rewrite E in Hw. injection Hw as <-.
  destruct (wfBoard_row b _ cells Hb Hcells) as [Hlen _].
  unfold readCell. rewrite !index_nat by lia.
  destruct (decide (r' = r)) as [->|Hne].
  - rewrite list_lookup_insert_eq by (rewrite (wfBoard_length b Hb); lia).
    rewrite Hcells. rewrite !index_nat by lia. unfold writeRow.
    rewrite decide_False by lia. rewrite decide_True by lia.
    destruct (decide (c' = c)) as [->|Hnc].
    + rewrite list_lookup_insert_eq by lia.
      rewrite decide_True by done. by destruct v.
    + rewrite list_lookup_insert_ne by lia.
      rewrite decide_False by tauto. done.
  - rewrite list_lookup_insert_ne by lia. rewrite decide_False by tauto. done.
Qed.

Lemma findKing_absent b c :
  wfBoard b →
  (∀ r k, 0 ≤ r < 8 → 0 ≤ k < 8 → readCell b r k ≠ Ok (kingOf c)) →
  findKing b c = Ok None.
Proof.
  intros Hb Hno.
  destruct (returns_inv _ _ (findKing_returns b c Hb)) as ([v|] & -> & Hv); [|done].
  destruct (Hv v eq_refl) as [[? ?]%validPos_bounds Hat]. by apply Hno in Hat.
Qed.

(** * A pawn's push square *)

Lemma getPawnMoves_push b from c ep ms :
  getPawnMoves b from c ep = Ok ms →
  validPos (pushSquare c from) → at_ b (pushSquare c from) = Ok Null →
  pushSquare c from ∈ ms.
Proof.
  unfold getPawnMoves. fold (pushSquare c from). intros H Hv Hat.
  apply bind_Ok_inv in H as (fw & Hfw & H).
  apply bind_Ok_inv in H as (l & _ & H).
  apply bind_Ok_inv in H as (r & _ & H).
  injection H as <-. apply elem_of_app. left.
  unfold validPos in Hv. rewrite Hv, Hat in Hfw. simpl in Hfw.
  destruct (row from =? _); [|injection Hfw as <-; left].
  destruct (isValidPosition _); [|injection Hfw as <-; left].
  apply bind_Ok_inv in Hfw as (s2 & _ & Hfw).
  injection Hfw as <-. destruct (isNull s2); left.
Qed.

(** * The claims *)

(** C1 (fails on the code).  The legal-move filter is meant to drop every
    target that leaves the mover's king attacked.  After [pinGame] the
    filter keeps the en-passant capture e5xd6 although applying it with
    [makeMove] removes the black d-pawn from the fifth rank and leaves
    the white king attacked by the rook on a5: [wouldBeInCheck] moves the
    capturing pawn on its scratch board but does not remove the captured
    one. *)
Theorem en_passant_exposes_own_king :
  ∃ h s, play 0 start.1 start.2 pinGame = Ok (Some (h, s)) ∧
    currentPlayer s = white ∧
    isInCheck (board s) white = Ok false ∧
    (∃ ms, getPossibleMoves (board s) (sq 3 4) s = Ok ms ∧ sq 2 3 ∈ ms) ∧
    ∃ h' s', makeMove 0 h s (sq 3 4) (sq 2 3) = Ok (h', Some s') ∧
      isInCheck (board s') white = Ok true.
Proof.
  do 2 eexists. split; [vm_compute; reflexivity|].
  split; [reflexivity|]. split; [vm_compute; reflexivity|]. split.
  - eexists. split; [vm_compute; reflexivity|]. apply list_elem_of_In. simpl. tauto.
  - do 2 eexists. split; vm_compute; reflexivity.
Qed.

(** C2 (fails on the code).  A capturing move pushes onto the captured
    array that the prior state still refers to: after 1.e4 d5 the black
    ledger of the state is empty, and once 2.exd5 has been applied to it
    the same state reads a black pawn there. *)
Theorem capture_changes_prior_state :
  ∃ h s h' s', play 0 start.1 start.2 captureGame = Ok (Some (h, s)) ∧
    makeMove 0 h s (sq 4 4) (sq 3 3) = Ok (h', Some s') ∧
    capturedOf h s black = [] ∧
    capturedOf h' s black = [ {| type := pawn; color := black |} ].
Proof.
  do 4 eexists. split; [vm_compute; reflexivity|].
  split; [vm_compute; reflexivity|]. split; reflexivity.
Qed.

(** C3 (counterexample).  With the half-move clock at 50 and black in
    check with a legal reply, the status is [check], not [draw].  The same
    happens in play: after [shuffleGame] the clock is 50, and 27.Qh5+ gives
    a state with clock 51 whose status is [check]. *)
Lemma clock_fifty_in_check_is_check :
  (50 ≤ halfMoveClock checkAtFifty ∧
   getGameStatus 0 checkAtFifty = Ok check ∧
   getGameStatus 0 checkAtFifty ≠ Ok draw) ∧
  ∃ h' s', makeMove 0 (stateAfter shuffleGame).1 (stateAfter shuffleGame).2
             (sq 7 3) (sq 3 7) = Ok (h', Some s') ∧
    halfMoveClock s' = 51 ∧ status s' = check ∧ getGameStatus 0 s' = Ok check.
Proof.
  split.
  - split; [done|]. split; [vm_compute; reflexivity | vm_compute; discriminate].
  - do 2 eexists. split; [vm_compute; reflexivity|].
    split; [reflexivity|]. split; [reflexivity|]. vm_compute. reflexivity.
Qed.

(** C3 (amended).  When the side to move is not in check and has at
    least one legal move, a half-move clock of at least 50 gives the
    status [draw]. *)
Theorem clock_fifty_draw now s ms :
  isInCheck (board s) (currentPlayer s) = Ok false →
  getAllPossibleMoves now (board s) (currentPlayer s) s = Ok ms →
  ms ≠ [] →
  50 ≤ halfMoveClock s →
  getGameStatus now s = Ok draw.
Proof.
  intros Hcheck Hmoves Hne Hclock. unfold getGameStatus. cbv zeta.
  rewrite Hcheck, Hmoves. simpl.
  destruct ms as [|m ms]; [done|]. simpl.
  by rewrite (proj2 (Z.leb_le _ _) Hclock).
Qed.

Lemma clock_fifty_draw_witness :
  getGameStatus 0 (stateOf createInitialBoard white active 50) = Ok draw.
Proof.
  eapply (clock_fifty_draw 0 (stateOf createInitialBoard white active 50));
    [vm_compute; reflexivity | vm_compute; reflexivity | discriminate | simpl; lia].
Defined.

(** C4.  On the 8x8 board and for a square [from]: when no piece of the
    side to move stands on [from], or [to] is not among the legal moves
    from [from], [makeMove] returns [null] without throwing, and the
    store it hands back is the one it was given, so the prior state reads
    exactly as before. *)
Theorem makeMove_rejects now h s from to :
  wfBoard (board s) → validPos from →
  (∀ p, at_ (board s) from = Ok (Occ p) → color p ≠ currentPlayer s) ∨
  (∃ ms, getPossibleMoves (board s) from s = Ok ms ∧ to ∉ ms) →
  makeMove now h s from to = Ok (h, None).
Proof.
  intros Hb Hfrom [Hforeign | (ms & Hms & Hto)].
  - destruct (at_wf (board s) from Hb Hfrom) as (s0 & Hat & _).
    eapply makeMove_rejects_foreign; [done|]. intros p ->. by apply Hforeign.
  - by eapply makeMove_rejects_illegal.
Qed.

Lemma makeMove_rejects_witness :
  makeMove 0 start.1 start.2 (sq 6 4) (sq 3 4) = Ok (start.1, None) ∧
  makeMove 0 start.1 start.2 (sq 1 4) (sq 2 4) = Ok (start.1, None).
Proof.
  split.
  - apply makeMove_rejects; [reflexivity | reflexivity |].
    right. eexists. split; [vm_compute; reflexivity|].
    intros H%list_elem_of_In. simpl in H. by repeat destruct H as [H|H].
  - apply makeMove_rejects; [reflexivity | reflexivity |].
    left. intros p [= <-]. discriminate.
Defined.

(** C5 (counterexample).  On a board without the white king the
    would-be-in-check test answers [true], so the legal-move filter
    discards every candidate of a white piece. *)
Lemma kingless_wouldBeInCheck_is_true :
  hasKing kinglessBoard white = false ∧
  wouldBeInCheck kinglessBoard (sq 6 4) (sq 4 4) white = Ok true ∧
  getPossibleMoves kinglessBoard (sq 6 4) (stateOf kinglessBoard white active 0) = Ok [].
Proof. split; [reflexivity|]. split; vm_compute; reflexivity. Qed.

(** C5 (amended).  On an 8x8 board without the king of colour [c],
    [isInCheck] returns [false] for [c], while the would-be-in-check test
    of the legal-move filter returns [true] for every pair of squares;
    neither throws. *)
Theorem kingless_scans b c :
  wfBoard b → hasKing b c = false →
  isInCheck b c = Ok false ∧
  ∀ from to, validPos from → validPos to → wouldBeInCheck b from to c = Ok true.
Proof.
  intros Hb Hno. split.
  - unfold isInCheck. rewrite findKing_absent; [done | done |].
    intros. by apply hasKing_false_read.
  - intros from to Hfrom Hto. unfold wouldBeInCheck. rewrite copyBoard_wf by done.
    destruct (at_wf b from Hb Hfrom) as (s & Hat & Hs). rewrite Hat. simpl.
    assert (Hsk : s ≠ kingOf c).
    { intros ->. by eapply hasKing_false_read. }
    apply validPos_bounds in Hfrom as [? ?]. apply validPos_bounds in Hto as [? ?].
    destruct (writeCell_wf b (row to) (col to) s) as (b1 & Hw1 & Hb1); try done.
    rewrite Hw1. simpl.
    destruct (writeCell_wf b1 (row from) (col from) Null) as (b2 & Hw2 & Hb2); try done.
    rewrite Hw2. simpl.
    rewrite findKing_absent; [done | done |].
    intros r k Hr Hk.
    rewrite (readCell_writeCell b1 (row from) (col from) Null b2 r k Hb1) by done.
    destruct (decide _); [done|].
    rewrite (readCell_writeCell b (row to) (col to) s b1 r k Hb) by done.
    destruct (decide _); [congruence|].
    by apply hasKing_false_read.
Qed.

Lemma kingless_scans_witness :
  isInCheck kinglessBoard white = Ok false ∧
  wouldBeInCheck kinglessBoard (sq 7 3) (sq 7 4) white = Ok true.
Proof.
  destruct (kingless_scans kinglessBoard white) as [H1 H2]; [reflexivity | reflexivity |].
  split; [exact H1 | apply H2; reflexivity].
Defined.

(** C6 (fails on the code).  After 1.e4 a6 2.e5 d5 the capture 3.exd6 is
    accepted and flagged as en passant, and the notation recorded for it
    is "d6 e.p.": the origin file and the "x" are missing, because the
    capture flag handed to [createMoveNotation] only looks at the
    destination square, which an en-passant capture finds empty. *)
Theorem en_passant_notation_recorded :
  ∃ h s h' s' m, play 0 start.1 start.2 epGame = Ok (Some (h, s)) ∧
    makeMove 0 h s (sq 3 4) (sq 2 3) = Ok (h', Some s') ∧
    last (moveHistory s') = Some m ∧
    isEnPassant m = Some true ∧
    capturedOf h' s' black = [ {| type := pawn; color := black |} ] ∧
    notation m = "d6 e.p.".
Proof.
  do 5 eexists. split; [vm_compute; reflexivity|].
  split; [vm_compute; reflexivity|]. split; [reflexivity|].
  repeat split; reflexivity.
Qed.

(** C7.  Every castling right that holds after an accepted move held
    before it. *)
Theorem castling_rights_never_regained now h s from to h' s' :
  makeMove now h s from to = Ok (h', Some s') →
  (whiteKingSide (castlingRights s') = true → whiteKingSide (castlingRights s) = true) ∧
  (whiteQueenSide (castlingRights s') = true → whiteQueenSide (castlingRights s) = true) ∧
  (blackKingSide (castlingRights s') = true → blackKingSide (castlingRights s) = true) ∧
  (blackQueenSide (castlingRights s') = true → blackQueenSide (castlingRights s) = true).
Proof.
  intros H.
  destruct (makeMove_accepted_inv _ _ _ _ _ _ _ H) as (p & ms & _ & _ & _ & _ & ->).
  unfold updateCastlingRights.
  destruct (typeEq (type p) king), (typeEq (type p) rook), (currentPlayer s),
    (col from =? 7), (col from =? 0); simpl; repeat split; done.
Qed.

Lemma castling_rights_never_regained_witness :
  ∃ h s h' s', play 0 start.1 start.2 openGame = Ok (Some (h, s)) ∧
    makeMove 0 h s (sq 7 4) (sq 6 4) = Ok (h', Some s') ∧
    castlingRights s' = {| whiteKingSide := false; whiteQueenSide := false;
                           blackKingSide := true; blackQueenSide := true |} ∧
    (blackKingSide (castlingRights s') = true → blackKingSide (castlingRights s) = true).
Proof.
  do 4 eexists. split; [vm_compute; reflexivity|].
  match goal with |- ?A ∧ _ => assert (Hm : A) by (vm_compute; reflexivity) end.
  split; [exact Hm|]. split; [reflexivity|].
  exact (proj1 (proj2 (proj2 (castling_rights_never_regained _ _ _ _ _ _ _ Hm)))).
Defined.

(** C8.  For every square of the board, [positionToAlgebraic] gives the
    two-character string made of the file letter 'a'..'h' of the column
    and the rank digit '8'..'1' of the row, and [algebraicToPosition]
    maps that string back to the square. *)
Theorem algebraic_round_trip p :
  validPos p →
  ∃ text, positionToAlgebraic p = JsString text ∧
    text = String (fileLetter (col p)) (String (rankDigit (row p)) EmptyString) ∧
    algebraicToPosition text = p.
Proof.
  intros [Hr Hc]%validPos_bounds. destruct p as [r c]. simpl in *.
  assert (Hrs : r = 0 ∨ r = 1 ∨ r = 2 ∨ r = 3 ∨ r = 4 ∨ r = 5 ∨ r = 6 ∨ r = 7) by lia.
  assert (Hcs : c = 0 ∨ c = 1 ∨ c = 2 ∨ c = 3 ∨ c = 4 ∨ c = 5 ∨ c = 6 ∨ c = 7) by lia.
  clear Hr Hc.
  destruct Hrs as [->|[->|[->|[->|[->|[->|[->| ->]]]]]]];
    destruct Hcs as [->|[->|[->|[->|[->|[->|[->| ->]]]]]]];
    (eexists; split; [reflexivity | split; reflexivity]).
Qed.

Lemma algebraic_round_trip_witness :
  positionToAlgebraic (sq 4 4) = JsString "e4" ∧ algebraicToPosition "e4" = sq 4 4.
Proof.
  destruct (algebraic_round_trip (sq 4 4)) as (text & H1 & H2 & H3); [reflexivity|].
  rewrite H2 in H1, H3. split; [exact H1 | exact H3].
Defined.

(** C10.  [makeMove] does not read the status of its input: replacing it
    by any other status gives the same outcome, and on a state of the
    data model a move is accepted exactly when a piece of the side to
    move stands on [from] and [to] is one of its legal moves. *)
Theorem makeMove_ignores_status now h s from to st :
  wfState s →
  makeMove now h (withStatus s st) from to = makeMove now h s from to ∧
  ((∃ h' s', makeMove now h s from to = Ok (h', Some s')) ↔
   (∃ p ms, at_ (board s) from = Ok (Occ p) ∧ color p = currentPlayer s ∧
            getPossibleMoves (board s) from s = Ok ms ∧ to ∈ ms)).
Proof.
  intros Hs. split; [reflexivity|]. split.
  - intros (h' & s' & H).
    destruct (makeMove_accepted_inv _ _ _ _ _ _ _ H) as (p & ms & ? & ? & ? & ? & _).
    by exists p, ms.
  - intros (p & ms & Hat & Hcol & Hms & Hto).
    pose proof (at_Occ_valid _ _ _ (proj1 Hs) Hat) as Hfrom.
    destruct (returns_inv _ _ (makeMove_accepts now h s from to p ms Hs Hfrom Hat Hcol Hms Hto))
      as ([h' r] & E & s' & Hr & _).
    simpl in Hr. subst r. by exists h', s'.
Qed.

(** After [shuffleGame] the status is [draw]; 27.Qh5+ is accepted all the
    same, and so is 1.e4 on the initial state relabelled [checkmate]. *)
Lemma makeMove_ignores_status_witness :
  status (stateAfter shuffleGame).2 = draw ∧
  (∃ h' s', makeMove 0 (stateAfter shuffleGame).1 (stateAfter shuffleGame).2
              (sq 7 3) (sq 3 7) = Ok (h', Some s')) ∧
  (∃ h' s', makeMove 0 start.1 (withStatus start.2 checkmate) (sq 6 4) (sq 4 4)
              = Ok (h', Some s')).
Proof.
  split; [vm_compute; reflexivity|]. split.
  - apply (makeMove_ignores_status 0 _ _ (sq 7 3) (sq 3 7) draw).
    + apply (reachable_wf 0 shuffleGame (stateAfter shuffleGame).1).
      vm_compute. reflexivity.
    + do 2 eexists. split; [vm_compute; reflexivity|]. split; [reflexivity|].
      split; [vm_compute; reflexivity|]. apply list_elem_of_In. simpl. tauto.
  - destruct (makeMove_ignores_status 0 start.1 start.2 (sq 6 4) (sq 4 4) checkmate)
      as [Hsame [_ Haccept]]; [apply start_wf|].
    rewrite Hsame. apply Haccept.
    do 2 eexists. split; [reflexivity|]. split; [reflexivity|].
    split; [vm_compute; reflexivity|]. apply list_elem_of_In. simpl. tauto.
Defined.

(** * More of the engine *)

(** An accepted move, taken apart: the piece moved, what stood on the
    destination, the board written and the status computed for it. *)
Lemma makeMove_accepted_shape now h s from to h' s' :
  makeMove now h s from to = Ok (h', Some s') →
  ∃ p ms cap nb st,
    at_ (board s) from = Ok (Occ p) ∧ color p = currentPlayer s ∧
    getPossibleMoves (board s) from s = Ok ms ∧ to ∈ ms ∧
    at_ (copyBoard (board s)) to = Ok cap ∧
    boardAfter s p from to = Ok nb ∧
    getGameStatus now (nextState now s p cap from to nb active) = Ok st ∧
    h' = storeAfter h s p cap to ∧
    s' = nextState now s p cap from to nb st.
Proof.
  unfold makeMove. intros H.
  apply bind_Ok_inv in H as (s0 & Hat & H).
  destruct s0 as [| | |p]; try discriminate.
  destruct (colorEq (color p) (currentPlayer s)) eqn:Hc; simpl in H; [|discriminate].
  apply bool_decide_eq_true in Hc.
  apply bind_Ok_inv in H as (ms & Hms & H).
  destruct (existsb _ ms) eqn:Hex; simpl in H; [|discriminate].
  apply existsb_positionsEqual in Hex.
  apply bind_Ok_inv in H as (cap & Hcap & H).
  apply bind_Ok_inv in H as (b1 & Hb1 & H).
  apply bind_Ok_inv in H as (b2 & Hb2 & H).
  apply bind_Ok_inv in H as (b3 & Hb3 & H).
  apply bind_Ok_inv in H as (b4 & Hb4 & H).
  apply bind_Ok_inv in H as (b5 & Hb5 & H).
  apply bind_Ok_inv in H as (st & Hst & H).
  injection H as <- <-.
  exists p, ms, cap, b5, st. repeat split; try done.
  - unfold boardAfter. fold (isEnPassantMove s p to) in Hb1. rewrite Hb1. simpl.
    fold (isCastlingMove p from to) in Hb2. rewrite Hb2. simpl.
    rewrite Hb3. simpl. rewrite Hb4. simpl. exact Hb5.
  - unfold storeAfter, capturedBy, isEnPassantMove.
    destruct cap; simpl; destruct (_ && _); reflexivity.
Qed.

Section LoopMembers.
Context {A B : Type}.

Lemma forPush_elem (body : A → Exc (list B)) (l : list A) : ∀ ms t,
  forPush body l = Ok ms →
  (t ∈ ms ↔ ∃ x ms', x ∈ l ∧ body x = Ok ms' ∧ t ∈ ms').
Proof.
  induction l as [|x l IH]; intros ms t H; simpl in H.
  - injection H as <-. split; [by intros ?%elem_of_nil|].
    by intros (? & ? & ?%elem_of_nil & _).
  - apply bind_Ok_inv in H as (m1 & H1 & H).
    apply bind_Ok_inv in H as (m2 & H2 & H). injection H as <-.
    rewrite elem_of_app, (IH m2 t H2). split.
    + intros [Ht | (y & ms' & Hy & Hb & Ht)].
      * exists x, m1. split; [left | done].
      * exists y, ms'. split; [by right | done].
    + intros (y & ms' & [->|Hy]%elem_of_cons & Hb & Ht).
      * left. congruence.
      * right. by exists y, ms'.
Qed.

Lemma forReturn_Some (body : A → Exc (option B)) (l : list A) v :
  forReturn body l = Ok (Some v) → ∃ x, x ∈ l ∧ body x = Ok (Some v).
Proof.
  induction l as [|x l IH]; simpl; [discriminate|]. intros H.
  apply bind_Ok_inv in H as ([w|] & Hx & H).
  - injection H as ->. exists x. split; [left | done].
  - destruct (IH H) as (y & Hy & Hb). exists y. split; [by right | done].
Qed.

Lemma filterM_elem (p : A → Exc bool) (l : list A) : ∀ l' t,
  filterM p l = Ok l' → (t ∈ l' ↔ t ∈ l ∧ p t = Ok true).
Proof.
  induction l as [|x l IH]; intros l' t H; simpl in H.
  - injection H as <-. split; [by intros ?%elem_of_nil | by intros [?%elem_of_nil _]].
  - apply bind_Ok_inv in H as (k & Hk & H).
    apply bind_Ok_inv in H as (more & Hm & H). injection H as <-.
    specialize (IH more t Hm). destruct k.
    + rewrite elem_of_cons, IH, elem_of_cons. split.
      * intros [-> | [? ?]]; [split; [by left | done] | split; [by right | done]].
      * intros [[-> | ?] ?]; [by left | by right].
    + rewrite IH, elem_of_cons. split.
      * intros [? ?]. split; [by right | done].
      * intros [[-> | ?] ?]; [congruence | done].
Qed.
End LoopMembers.

Lemma at_proper b t :
  wfBoard b → validPos t →
  at_ b t = Ok Null ∨ ∃ q, at_ b t = Ok (Occ q).
Proof.
  intros Hb Ht. destruct (at_wf b t Hb Ht) as (s & -> & Hs).
  destruct s; try done; eauto.
Qed.

(** One candidate of the knight or the king. *)
Lemma step_body b from c o :
  wfBoard b →
  (if isValidPosition {| row := row from + o.1; col := col from + o.2 |} then
     targetPiece ← at_ b {| row := row from + o.1; col := col from + o.2 |};
     if isNull targetPiece
     then Ok [ {| row := row from + o.1; col := col from + o.2 |} ]
     else tc ← colorOf targetPiece;
          Ok (if negb (colorEq tc c)
              then [ {| row := row from + o.1; col := col from + o.2 |} ] else [])
   else Ok [])
  = Ok (if isValidPosition (shift from 1 o) && freeFor b c (shift from 1 o)
        then [shift from 1 o] else []).
Proof.
  intros Hb. unfold shift. rewrite !Z.mul_1_l.
  set (to := {| row := row from + o.1; col := col from + o.2 |}).
  destruct (isValidPosition to) eqn:Hv; [|done]. simpl.
  unfold freeFor.
  destruct (at_proper b to Hb Hv) as [-> | [q ->]]; simpl; [done|].
  by destruct (negb _).
Qed.

Lemma stepAll_eq b from c offsets :
  wfBoard b →
  stepAll b from c offsets
  = Ok (filter (λ t, isValidPosition t && freeFor b c t = true)
          ((λ o, shift from 1 o) <$> offsets)).
Proof.
  intros Hb. unfold stepAll. induction offsets as [|o offsets IH]; [done|].
  cbn [forPush]. cbv beta zeta. rewrite (step_body b from c o Hb).
  cbv beta zeta in IH. rewrite IH. simpl.
  rewrite filter_cons. by destruct (isValidPosition _ && freeFor _ _ _).
Qed.

Lemma seqZ_split m n pre i post :
  seqZ m n = pre ++ i :: post →
  m ≤ i < m + n ∧ ∀ j, j ∈ pre ↔ m ≤ j < i.
Proof.
  intros H.
  assert (Hi : seqZ m n !! length pre = Some i).
  { rewrite H. rewrite lookup_app_r by lia. by rewrite Nat.sub_diag. }
  apply lookup_seqZ in Hi as [-> Hlt]. split; [lia|].
  intros j. split.
  - intros [k Hk]%list_elem_of_lookup_1.
    assert (Hk' : seqZ m n !! k = Some j).
    { rewrite H. by apply lookup_app_l_Some. }
    apply lookup_lt_Some in Hk. apply lookup_seqZ in Hk' as [-> _]. lia.
  - intros Hj.
    assert (Hk : seqZ m n !! Z.to_nat (j - m) = Some j).
    { apply lookup_seqZ. lia. }
    rewrite H, lookup_app_l in Hk by lia.
    by eapply list_elem_of_lookup_2.
Qed.

Lemma seqZ_split_at m n i :
  m ≤ i < m + n → ∃ post, seqZ m n = seqZ m (i - m) ++ i :: post.
Proof.
  intros Hi. exists (seqZ (i + 1) (m + n - i - 1)).
  replace n with ((i - m) + (1 + (m + n - i - 1))) at 1 by lia.
  rewrite seqZ_app by lia. f_equal.
  replace (m + (i - m)) with i by lia.
  rewrite seqZ_cons by lia. f_equal. f_equal; lia.
Qed.

Lemma freeFor_cases b c t :
  wfBoard b → validPos t →
  (at_ b t = Ok Null ∧ freeFor b c t = true ∧ emptySquare b t = true) ∨
  (∃ q, at_ b t = Ok (Occ q) ∧ freeFor b c t = negb (colorEq (color q) c) ∧
        emptySquare b t = false).
Proof.
  intros Hb Ht. unfold freeFor, emptySquare.
  destruct (at_proper b t Hb Ht) as [-> | [q ->]]; [by left | right; by exists q].
Qed.

(** The squares one ray of a sliding piece yields. *)
Lemma slide_elem b from c d steps :
  wfBoard b → ∀ ms, slide b from c d.1 d.2 steps = Ok ms →
  ∀ t, t ∈ ms ↔
    ∃ pre i post, steps = pre ++ i :: post ∧ t = shift from i d ∧ validPos t ∧
      freeFor b c t = true ∧
      Forall (λ j, validPos (shift from j d) ∧ emptySquare b (shift from j d) = true) pre.
Proof.
  intros Hb. induction steps as [|i0 rest IH]; intros ms H t; simpl in H.
  - injection H as <-. split; [by intros ?%elem_of_nil|].
    intros (pre & i & post & Hs & _). by destruct pre.
  - fold (shift from i0 d) in H.
    destruct (isValidPosition (shift from i0 d)) eqn:Hv; simpl in H.
    + destruct (freeFor_cases b c (shift from i0 d) Hb Hv)
        as [(Hat & Hfree & Hempty) | (q & Hat & Hfree & Hempty)];
        rewrite Hat in H; simpl in H.
      * apply bind_Ok_inv in H as (more & Hmore & H). injection H as <-.
        rewrite elem_of_cons, (IH more Hmore t). split.
        -- intros [-> | (pre & i & post & -> & Ht & Hvt & Hf & Hpre)].
           ++ by exists [], i0, rest.
           ++ exists (i0 :: pre), i, post. repeat split; try done. by constructor.
        -- intros (pre & i & post & Hs & Ht & Hvt & Hf & Hpre).
           destruct pre as [|j pre]; simpl in Hs; injection Hs as <- ->.
           ++ by left.
           ++ right. apply Forall_cons in Hpre as [_ Hpre]. by exists pre, i, post.
      * injection H as <-. split.
        -- intros Ht. exists [], i0, rest.
           destruct (negb _) eqn:Hn; [|by apply elem_of_nil in Ht].
           apply list_elem_of_singleton in Ht as ->. repeat split; try done.
        -- intros (pre & i & post & Hs & Ht & Hvt & Hf & Hpre).
           destruct pre as [|j pre]; simpl in Hs; injection Hs as <- ->.
           ++ subst t. rewrite Hfree in Hf. rewrite Hf. left.
           ++ apply Forall_cons in Hpre as [[_ He] _]. congruence.
    + injection H as <-. split; [by intros ?%elem_of_nil|].
      intros (pre & i & post & Hs & Ht & Hvt & Hf & Hpre).
      destruct pre as [|j pre]; simpl in Hs; injection Hs as <- ->.
      * subst t. unfold validPos in Hvt. congruence.
      * apply Forall_cons in Hpre as [[Hvj _] _]. unfold validPos in Hvj. congruence.
Qed.

Lemma slide_slidesTo b from c d ms :
  wfBoard b → slide b from c d.1 d.2 (seqZ 1 7) = Ok ms →
  ∀ t, t ∈ ms ↔ slidesTo b from c d t.
Proof.
  intros Hb H t. rewrite (slide_elem b from c d (seqZ 1 7) Hb ms H t).
  unfold slidesTo. split.
  - intros (pre & i & post & Hs & Ht & Hvt & Hf & Hpre).
    apply seqZ_split in Hs as [Hi Hj]. exists i. repeat split; try done; try lia.
    + rewrite Forall_forall in Hpre. apply Hpre, Hj. lia.
    + rewrite Forall_forall in Hpre. apply Hpre, Hj. lia.
  - intros (k & Hk & Ht & Hvt & Hf & Hbefore).
    destruct (seqZ_split_at 1 7 k ltac:(lia)) as [post Hs].
    exists (seqZ 1 (k - 1)), k, post. repeat split; try done.
    apply Forall_forall. intros j Hj%elem_of_seqZ. apply Hbefore. lia.
Qed.

Lemma slideAll_elem b from c directions ms :
  wfBoard b → slideAll b from c directions = Ok ms →
  ∀ t, t ∈ ms ↔ ∃ d, d ∈ directions ∧ slidesTo b from c d t.
Proof.
  intros Hb H t. unfold slideAll in H. rewrite (forPush_elem _ _ ms t H). split.
  - intros (d & ms' & Hd & Hs & Ht). exists d. split; [done|].
    by apply (slide_slidesTo b from c d ms' Hb Hs).
  - intros (d & Hd & Ht).
    destruct (returns_inv _ _ (slide_returns b from c d.1 d.2 (seqZ 1 7) Hb))
      as (ms' & Hs & _).
    exists d, ms'. repeat split; try done.
    by apply (slide_slidesTo b from c d ms' Hb Hs).
Qed.

Lemma emptySquare_isNull b t s : at_ b t = Ok s → emptySquare b t = isNull s.
Proof. unfold emptySquare. intros ->. by destruct s. Qed.

Lemma getPawnMoves_elem b from c ep ms :
  wfBoard b → getPawnMoves b from c ep = Ok ms →
  ∀ t, t ∈ ms ↔ pawnReaches b from c ep t.
Proof.
  intros Hb H t. unfold getPawnMoves in H.
  fold (pawnDir c) in H. fold (pawnStartRow c) in H.
  change {| row := row from + pawnDir c; col := col from |} with (pushSquare c from) in H.
  change {| row := row from + 2 * pawnDir c; col := col from |}
    with (doublePushSquare c from) in H.
  set (one := pushSquare c from) in *. set (two := doublePushSquare c from) in *.
  set (cl := {| row := row from + pawnDir c; col := col from - 1 |}) in *.
  set (cr := {| row := row from + pawnDir c; col := col from + 1 |}) in *.
  apply bind_Ok_inv in H as (fw & Hfw & H).
  apply bind_Ok_inv in H as (l & Hl & H).
  apply bind_Ok_inv in H as (r & Hr & H). injection H as <-.
  assert (Hcap : ∀ sq ls,
    (if isValidPosition sq then
       s ← at_ b sq;
       match s with
       | Occ p => Ok (if negb (colorEq (color p) c) then [sq] else [])
       | _ => Ok []
       end
     else Ok []) = Ok ls →
    ∀ t, t ∈ ls ↔ t = sq ∧ validPos t ∧ enemyAt b c t = true).
  { intros sq ls Hls u. unfold enemyAt, validPos.
    destruct (isValidPosition sq) eqn:Hv.
    - destruct (at_proper b sq Hb Hv) as [Hat | [q Hat]]; rewrite Hat in Hls;
        simpl in Hls; injection Hls as <-.
      + split; [by intros ?%elem_of_nil | intros (-> & _ & He)]. by rewrite Hat in He.
      + destruct (negb _) eqn:Hn.
        * rewrite list_elem_of_singleton. split; [intros ->; by rewrite Hat | by intros [? _]].
        * split; [by intros ?%elem_of_nil | intros (-> & _ & He)].
          rewrite Hat in He. congruence.
    - injection Hls as <-. split; [by intros ?%elem_of_nil | intros (-> & ? & _)]. congruence. }
  assert (Hforward : ∀ u, u ∈ fw ↔
    (u = one ∧ validPos u ∧ emptySquare b u = true) ∨
    (u = two ∧ row from = pawnStartRow c ∧ validPos one ∧ emptySquare b one = true ∧
     validPos u ∧ emptySquare b u = true)).
  { intros u. unfold validPos.
    assert (Hne : one ≠ two).
    { unfold one, two, pushSquare, doublePushSquare, pawnDir. destruct c; intros [=]; lia. }
    destruct (isValidPosition one) eqn:Hv1.
    - destruct (at_wf b one Hb Hv1) as (s1 & Hat1 & _). rewrite Hat1 in Hfw. simpl in Hfw.
      pose proof (emptySquare_isNull b one s1 Hat1) as He1.
      destruct (isNull s1).
      + destruct (row from =? pawnStartRow c) eqn:Hrow.
        * apply Z.eqb_eq in Hrow. destruct (isValidPosition two) eqn:Hv2.
          -- destruct (at_wf b two Hb Hv2) as (s2 & Hat2 & _). rewrite Hat2 in Hfw.
             simpl in Hfw. injection Hfw as <-.
             pose proof (emptySquare_isNull b two s2 Hat2) as He2.
             destruct (isNull s2).
             ++ rewrite elem_of_cons, list_elem_of_singleton. intuition (subst; congruence).
             ++ rewrite list_elem_of_singleton. intuition (subst; congruence).
          -- injection Hfw as <-. rewrite list_elem_of_singleton. intuition (subst; congruence).
        * apply Z.eqb_neq in Hrow. injection Hfw as <-.
          rewrite list_elem_of_singleton. intuition (subst; congruence).
      + injection Hfw as <-. rewrite elem_of_nil. intuition (subst; congruence).
    - injection Hfw as <-. rewrite elem_of_nil. intuition (subst; congruence). }
  unfold pawnReaches. fold one two. unfold captureSquares. fold cl cr.
  rewrite !elem_of_app, Hforward, (Hcap cl l Hl), (Hcap cr r Hr).
  rewrite elem_of_cons, list_elem_of_singleton.
  assert (Hep : t ∈ match ep with
                    | Some t0 => if positionsEqual cl t0 || positionsEqual cr t0
                                 then [t0] else []
                    | None => []
                    end ↔ ep = Some t ∧ (t = cl ∨ t = cr)).
  { destruct ep as [t0|]; [|split; [by intros ?%elem_of_nil | by intros [? _]]].
    destruct (_ || _) eqn:Hor.
    - rewrite list_elem_of_singleton. apply orb_true_iff in Hor.
      rewrite !positionsEqual_eq in Hor. intuition (subst; congruence).
    - apply orb_false_iff in Hor as [H1 H2]. split; [by intros ?%elem_of_nil|].
      intros [[= ->] [-> | ->]].
      + rewrite (proj2 (positionsEqual_eq cl cl) eq_refl) in H1. done.
      + rewrite (proj2 (positionsEqual_eq cr cr) eq_refl) in H2. done. }
  rewrite Hep. intuition (subst; congruence).
Qed.

Lemma stepAll_elem b from c offsets ms :
  wfBoard b → stepAll b from c offsets = Ok ms →
  ∀ t, t ∈ ms ↔
    ∃ o, o ∈ offsets ∧ t = shift from 1 o ∧ validPos t ∧ freeFor b c t = true.
Proof.
  intros Hb H t. rewrite (stepAll_eq b from c offsets Hb) in H. injection H as <-.
  rewrite list_elem_of_filter, list_elem_of_fmap. unfold validPos. split.
  - intros [[Hv Hf]%andb_true_iff (o & -> & Ho)]. by exists o.
  - intros (o & Ho & -> & Hv & Hf). split; [by apply andb_true_iff | by exists o].
Qed.

Lemma allOf_true (tests : list (Exc bool)) v :
  allOf tests = Ok v → (v = true ↔ ∀ t, t ∈ tests → t = Ok true).
Proof.
  revert v. induction tests as [|t tests IH]; intros v H; simpl in H.
  - injection H as <-. split; [by intros _ ? ?%elem_of_nil | done].
  - apply bind_Ok_inv in H as (w & Hw & H). destruct w.
    + rewrite (IH v H). split.
      * intros Hall u [-> | Hu]%elem_of_cons; auto.
      * intros Hall u Hu. apply Hall. by right.
    + injection H as <-. split; [done|]. intros Hall.
      specialize (Hall t ltac:(left)). congruence.
Qed.

Lemma emptyAt_true b r k :
  emptyAt b r k = Ok true ↔ emptySquare b (sq r k) = true.
Proof.
  unfold emptyAt, emptySquare, at_, sq. simpl.
  destruct (readCell b r k) as [s|]; simpl; [|split; discriminate].
  destruct s; simpl; split; intros; congruence.
Qed.

Lemma notAttacked_true b r k by_ :
  notAttacked isSquareAttacked b r k by_ = Ok true ↔
  isSquareAttacked b (sq r k) by_ = Ok false.
Proof.
  unfold notAttacked, sq.
  destruct (isSquareAttacked _ _ _) as [[|]|]; simpl; split; intros; congruence.
Qed.

Lemma castle_elem b right r between pass by_ target ms :
  castle isSquareAttacked b right r between pass by_ target = Ok ms →
  ∀ t, t ∈ ms ↔ t = sq r target ∧ castlingAllowed b right r between pass by_.
Proof.
  unfold castle. intros H t.
  apply bind_Ok_inv in H as (ok & Hok & H). injection H as <-.
  apply allOf_true in Hok.
  assert (Hallowed : ok = true ↔ castlingAllowed b right r between pass by_).
  { rewrite Hok. unfold castlingAllowed. split.
    - intros Hall. split; [|split].
      + specialize (Hall (Ok right) ltac:(left)). congruence.
      + intros k Hk. apply emptyAt_true, Hall. right. apply elem_of_app. left.
        apply list_elem_of_fmap. by exists k.
      + intros k Hk. apply notAttacked_true, Hall. right. apply elem_of_app. right.
        apply list_elem_of_fmap. by exists k.
    - intros (-> & Hbetween & Hpass) u [-> | Hu]%elem_of_cons; [done|].
      apply elem_of_app in Hu as [(k & -> & Hk)%list_elem_of_fmap | (k & -> & Hk)%list_elem_of_fmap].
      + by apply emptyAt_true, Hbetween.
      + by apply notAttacked_true, Hpass. }
  destruct ok.
  - rewrite list_elem_of_singleton. unfold sq. intuition.
  - rewrite elem_of_nil. intuition congruence.
Qed.

Lemma getKingMoves_elem b from c rights ms :
  wfBoard b → getKingMoves b from c rights = Ok ms →
  ∀ t, t ∈ ms ↔ kingReaches b from c rights t.
Proof.
  intros Hb H t. unfold getKingMoves, getKingMovesWith in H.
  apply bind_Ok_inv in H as (regular & Hreg & H).
  fold kingOffsets in Hreg.
  pose proof (stepAll_elem b from c kingOffsets regular Hb Hreg t) as Hregular.
  unfold kingReaches. rewrite <- Hregular.
  assert (Hfrom : ∀ r, (row from =? r) && (col from =? 4) = true ↔ from = sq r 4).
  { intros r. rewrite andb_true_iff, !Z.eqb_eq. unfold sq. destruct from. simpl.
    split; [intros [-> ->]; done | intros [= -> ->]; done]. }
  destruct c; simpl in *.
  - destruct ((row from =? 7) && (col from =? 4)) eqn:Hhome.
    + apply bind_Ok_inv in H as (ks & Hks & H).
      apply bind_Ok_inv in H as (qs & Hqs & H). injection H as <-.
      rewrite !elem_of_app, (castle_elem _ _ _ _ _ _ _ ks Hks t),
        (castle_elem _ _ _ _ _ _ _ qs Hqs t).
      apply Hfrom in Hhome. intuition.
    + injection H as <-. split; [by left|]. intros [? | [Hf _]]; [done|].
      apply Hfrom in Hf. congruence.
  - destruct ((row from =? 0) && (col from =? 4)) eqn:Hhome.
    + apply bind_Ok_inv in H as (ks & Hks & H).
      apply bind_Ok_inv in H as (qs & Hqs & H). injection H as <-.
      rewrite !elem_of_app, (castle_elem _ _ _ _ _ _ _ ks Hks t),
        (castle_elem _ _ _ _ _ _ _ qs Hqs t).
      apply Hfrom in Hhome. intuition.
    + injection H as <-. split; [by left|]. intros [? | [Hf _]]; [done|].
      apply Hfrom in Hf. congruence.
Qed.

Lemma getQueenMoves_elem b from c ms :
  wfBoard b → getQueenMoves b from c = Ok ms →
  ∀ t, t ∈ ms ↔ ∃ d, d ∈ rookDirections ++ bishopDirections ∧ slidesTo b from c d t.
Proof.
  intros Hb H t. unfold getQueenMoves in H.
  apply bind_Ok_inv in H as (r & Hr & H).
  apply bind_Ok_inv in H as (d & Hd & H). injection H as <-.
  rewrite elem_of_app, (slideAll_elem b from c _ r Hb Hr t),
    (slideAll_elem b from c _ d Hb Hd t).
  fold rookDirections bishopDirections. split.
  - intros [(x & Hx & Hs) | (x & Hx & Hs)]; exists x; (split; [|done]);
      apply elem_of_app; [by left | by right].
  - intros (x & [Hx | Hx]%elem_of_app & Hs); [left | right]; by exists x.
Qed.

(** The legal moves of the piece on [from] are its pseudo-legal targets
    that the would-be-in-check test lets through. *)
Lemma getPossibleMoves_elem b from s p ms :
  wfBoard b → at_ b from = Ok (Occ p) → getPossibleMoves b from s = Ok ms →
  ∀ t, t ∈ ms ↔
    pseudoReaches b (enPassantTarget s) (castlingRights s) from p t ∧
    wouldBeInCheck b from t (color p) = Ok false.
Proof.
  intros Hb Hat H t. unfold getPossibleMoves in H. rewrite Hat in H. simpl in H.
  apply bind_Ok_inv in H as (moves & Hmoves & H).
  rewrite (filterM_elem _ _ ms t H).
  assert (Hw : (w ← wouldBeInCheck b from t (color p); Ok (negb w)) = Ok true ↔
               wouldBeInCheck b from t (color p) = Ok false).
  { destruct (wouldBeInCheck _ _ _ _) as [[|]|]; simpl; split; intros; congruence. }
  rewrite Hw. unfold pseudoReaches.
  destruct (type p).
  - by rewrite (getPawnMoves_elem _ _ _ _ moves Hb Hmoves t).
  - by rewrite (slideAll_elem _ _ _ _ moves Hb Hmoves t).
  - unfold getKnightMoves in Hmoves. fold knightOffsets in Hmoves.
    by rewrite (stepAll_elem _ _ _ _ moves Hb Hmoves t).
  - by rewrite (slideAll_elem _ _ _ _ moves Hb Hmoves t).
  - by rewrite (getQueenMoves_elem _ _ _ moves Hb Hmoves t).
  - by rewrite (getKingMoves_elem _ _ _ _ moves Hb Hmoves t).
Qed.

(** Membership in a list written out, or in an append of such lists. *)
Ltac in_list :=
  first [ assumption
        | by (rewrite ?elem_of_app; tauto)
        | by (apply list_elem_of_In; simpl; tauto) ].

Lemma shift_ne from k d :
  1 ≤ k → d ∈ rookDirections ++ bishopDirections ++ knightOffsets ++ kingOffsets →
  shift from k d ≠ from.
Proof.
  intros Hk Hd. unfold shift. destruct from as [r c]. simpl. intros [= Hr Hc].
  assert (d.1 ≠ 0 ∨ d.2 ≠ 0) as [Hd1 | Hd2]; [|nia|nia].
  unfold rookDirections, bishopDirections, knightOffsets, kingOffsets in Hd.
  simpl in Hd. repeat (apply elem_of_cons in Hd as [-> | Hd]; [simpl; lia|]).
  by apply elem_of_nil in Hd.
Qed.

Lemma slidesTo_ne b from c d t :
  d ∈ rookDirections ++ bishopDirections → slidesTo b from c d t → t ≠ from.
Proof.
  intros Hd (k & Hk & -> & _). apply shift_ne; [lia|].
  apply elem_of_app in Hd as [Hd | Hd]; in_list.
Qed.

Lemma captureSquares_row c from t :
  t ∈ captureSquares c from → row t = row from + pawnDir c.
Proof.
  unfold captureSquares. intros [-> | [-> | []%elem_of_nil]%elem_of_cons]%elem_of_cons; done.
Qed.

Lemma pawnReaches_forward b from c ep t :
  pawnReaches b from c ep t →
  row t = row from + pawnDir c ∨
  (row t = row from + 2 * pawnDir c ∧ t = doublePushSquare c from ∧
   row from = pawnStartRow c ∧ emptySquare b (pushSquare c from) = true ∧
   emptySquare b t = true).
Proof.
  intros [(-> & _) | [(-> & ? & _ & ? & _ & ?) | [(Ht & _) | (_ & Ht)]]].
  - left. unfold pushSquare, pawnDir. by destruct c.
  - right. done.
  - left. by apply captureSquares_row.
  - left. by apply captureSquares_row.
Qed.

(** No pseudo-legal target is the square the piece stands on. *)
Lemma pseudoReaches_ne b ep rights from p t :
  pseudoReaches b ep rights from p t → t ≠ from.
Proof.
  unfold pseudoReaches. destruct (type p).
  - intros [Hr | (Hr & _)]%pawnReaches_forward Heq; subst t;
      unfold pawnDir in Hr; destruct (color p); lia.
  - intros (d & Hd & Hs). eapply slidesTo_ne; [|done]. in_list.
  - intros (o & Ho & -> & _). apply shift_ne; [lia | in_list].
  - intros (d & Hd & Hs). eapply slidesTo_ne; [|done]. in_list.
  - intros (d & Hd & Hs). by eapply slidesTo_ne.
  - intros [(o & Ho & -> & _) | (-> & [(-> & _) | (-> & _)])].
    + apply shift_ne; [lia | in_list].
    + discriminate.
    + discriminate.
Qed.

Lemma enemyAt_freeFor b c t : enemyAt b c t = true → freeFor b c t = true.
Proof. unfold enemyAt, freeFor. by destruct (at_ b t) as [[| | |q]|]. Qed.

Lemma emptySquare_freeFor b c t : emptySquare b t = true → freeFor b c t = true.
Proof. unfold emptySquare, freeFor. by destruct (at_ b t) as [[| | |q]|]. Qed.

(** No pseudo-legal target holds a piece of the mover's colour, as long
    as the en-passant target does not. *)
Lemma pseudoReaches_free b ep rights from p t :
  (∀ e, ep = Some e → freeFor b (color p) e = true) →
  pseudoReaches b ep rights from p t → freeFor b (color p) t = true.
Proof.
  intros Hep. unfold pseudoReaches. destruct (type p).
  - intros [(_ & _ & He) | [(_ & _ & _ & _ & _ & He) | [(_ & _ & He) | (He & _)]]].
    + by apply emptySquare_freeFor.
    + by apply emptySquare_freeFor.
    + by apply enemyAt_freeFor.
    + by apply Hep.
  - by intros (d & _ & k & _ & _ & _ & Hf & _).
  - by intros (o & _ & _ & _ & Hf).
  - by intros (d & _ & k & _ & _ & _ & Hf & _).
  - by intros (d & _ & k & _ & _ & _ & Hf & _).
  - intros [(o & _ & _ & _ & Hf) | (_ & [(-> & _ & Hb & _) | (-> & _ & Hb & _)])];
      [done | |]; apply emptySquare_freeFor, Hb; in_list.
Qed.

Lemma kingReaches_norights b from c t :
  kingReaches b from c noCastlingRights t ↔
  ∃ o, o ∈ kingOffsets ∧ t = shift from 1 o ∧ validPos t ∧ freeFor b c t = true.
Proof.
  unfold kingReaches, castlingAllowed. split; [|by left].
  intros [H | (_ & [(_ & Hr & _) | (_ & Hr & _)])]; [done | |]; by destruct c.
Qed.

Lemma kingOffsets_near from o :
  o ∈ kingOffsets → Z.abs (col (shift from 1 o) - col from) ≤ 1.
Proof.
  unfold kingOffsets, shift. simpl. intros Ho.
  repeat (apply elem_of_cons in Ho as [-> | Ho]; [simpl; lia|]).
  by apply elem_of_nil in Ho.
Qed.

(** The targets the attack scan sees for the piece on [from]: its
    pseudo-legal targets without en passant and without castling. *)
Lemma getPossibleMovesWithoutCheckValidation_elem b from p ms :
  wfBoard b → at_ b from = Ok (Occ p) →
  getPossibleMovesWithoutCheckValidation b from = Ok ms →
  ∀ t, t ∈ ms ↔ pseudoReaches b None noCastlingRights from p t.
Proof.
  intros Hb Hat H t. unfold getPossibleMovesWithoutCheckValidation in H.
  rewrite Hat in H. simpl in H. unfold pseudoReaches.
  destruct (type p).
  - by rewrite (getPawnMoves_elem _ _ _ _ ms Hb H t).
  - by rewrite (slideAll_elem _ _ _ _ ms Hb H t).
  - unfold getKnightMoves in H. fold knightOffsets in H.
    by rewrite (stepAll_elem _ _ _ _ ms Hb H t).
  - by rewrite (slideAll_elem _ _ _ _ ms Hb H t).
  - by rewrite (getQueenMoves_elem _ _ _ ms Hb H t).
  - apply bind_Ok_inv in H as (km & Hkm & H). injection H as <-.
    rewrite getKingMoves_norights in Hkm.
    rewrite list_elem_of_filter, (getKingMoves_elem _ _ _ _ km Hb Hkm t).
    rewrite kingReaches_norights. split; [by intros [_ ?]|].
    intros (o & Ho & -> & Hv & Hf). split; [by apply kingOffsets_near|]. by exists o.
Qed.

Lemma isSquareAttacked_true_inv b square byColor :
  isSquareAttacked b square byColor = Ok true →
  ∃ from p ms, validPos from ∧ at_ b from = Ok (Occ p) ∧ color p = byColor ∧
    getPossibleMovesWithoutCheckValidation b from = Ok ms ∧ square ∈ ms.
Proof.
  unfold isSquareAttacked. intros H.
  apply bind_Ok_inv in H as ([v|] & Hscan & H); [|discriminate].
  injection H as ->.
  apply forReturn_Some in Hscan as (r & Hr%elem_of_rows8 & Hscan).
  apply forReturn_Some in Hscan as (k & Hk%elem_of_rows8 & Hbody).
  unfold attackedFrom in Hbody.
  apply bind_Ok_inv in Hbody as (s & Hread & Hbody).
  destruct s as [| | |p]; try discriminate.
  destruct (colorEq (color p) byColor) eqn:Hc; [|discriminate].
  apply bool_decide_eq_true in Hc.
  apply bind_Ok_inv in Hbody as (ms & Hms & Hbody).
  destruct (existsb _ ms) eqn:Hex; [|discriminate].
  apply existsb_positionsEqual in Hex.
  exists {| row := r; col := k |}, p, ms. repeat split; try done.
  apply validPos_bounds. simpl. lia.
Qed.

Lemma forPush_body {A B} (body : A → Exc (list B)) (l : list A) ms x :
  forPush body l = Ok ms → x ∈ l → ∃ ms', body x = Ok ms'.
Proof.
  revert ms. induction l as [|y l IH]; intros ms H Hx; [by apply elem_of_nil in Hx|].
  simpl in H. apply bind_Ok_inv in H as (m1 & H1 & H).
  apply bind_Ok_inv in H as (m2 & H2 & _).
  apply elem_of_cons in Hx as [-> | Hx]; [by exists m1 | by eapply IH].
Qed.

Lemma getAllPossibleMoves_unfold now b c s :
  getAllPossibleMoves now b c s
  = forPush (λ r, forPush (λ k, movesFrom now b c s r k) rows8) rows8.
Proof. reflexivity. Qed.

Lemma movesFrom_elem now b c s from p lm out :
  wfBoard b → (∀ t, enPassantTarget s = Some t → validPos t) →
  validPos from → at_ b from = Ok (Occ p) → color p = c →
  getPossibleMoves b from s = Ok lm →
  movesFrom now b c s (row from) (col from) = Ok out →
  ∀ m, m ∈ out ↔ ∃ to, to ∈ lm ∧ m = candidateMove now b from to p.
Proof.
  intros Hb Hep Hfrom Hat Hc Hlm H m. unfold movesFrom in H.
  unfold at_ in Hat. rewrite Hat in H. simpl in H.
  unfold colorEq in H. rewrite bool_decide_eq_true_2 in H by done.
  replace {| row := row from; col := col from |} with from in H by by destruct from.
  rewrite Hlm in H. simpl in H.
  pose proof (getPossibleMoves_returns b from s Hb Hfrom Hep) as Hv.
  rewrite Hlm in Hv. simpl in Hv. rewrite Forall_forall in Hv.
  rewrite (forPush_elem _ _ out m H). split.
  - intros (to & one & Hto & Hbody & Hm). exists to. split; [done|].
    destruct (at_wf b to Hb (proj1 (Hv to Hto))) as (t & Et & _).
    rewrite Et in Hbody. simpl in Hbody. injection Hbody as <-.
    apply list_elem_of_singleton in Hm as ->. unfold candidateMove. by rewrite Et.
  - intros (to & Hto & ->). exists to, [candidateMove now b from to p].
    split; [done|]. split; [|left].
    destruct (at_wf b to Hb (proj1 (Hv to Hto))) as (t & Et & _).
    unfold candidateMove. by rewrite Et.
Qed.

(** [getAllPossibleMoves] lists exactly the legal moves of the pieces of
    colour [c]. *)
Lemma getAllPossibleMoves_elem now b c s ms :
  wfBoard b → (∀ t, enPassantTarget s = Some t → validPos t) →
  getAllPossibleMoves now b c s = Ok ms →
  ∀ m, m ∈ ms ↔
    ∃ from p lm to, validPos from ∧ at_ b from = Ok (Occ p) ∧ color p = c ∧
      getPossibleMoves b from s = Ok lm ∧ to ∈ lm ∧ m = candidateMove now b from to p.
Proof.
  intros Hb Hep H m. rewrite getAllPossibleMoves_unfold in H.
  rewrite (forPush_elem _ _ ms m H). split.
  - intros (r & row_ms & Hr%elem_of_rows8 & Hrow & Hm).
    apply (forPush_elem _ _ row_ms m Hrow) in Hm
      as (k & out & Hk%elem_of_rows8 & Hcell & Hm).
    assert (Hfrom : validPos {| row := r; col := k |})
      by (apply validPos_bounds; simpl; lia).
    pose proof Hcell as Hcell'. unfold movesFrom in Hcell'.
    apply bind_Ok_inv in Hcell' as (s0 & Hread & Hcell').
    destruct s0 as [| | |p]; try (injection Hcell' as <-; by apply elem_of_nil in Hm).
    destruct (colorEq (color p) c) eqn:Hc;
      [|injection Hcell' as <-; by apply elem_of_nil in Hm].
    apply bool_decide_eq_true in Hc.
    apply bind_Ok_inv in Hcell' as (lm & Hlm & _).
    apply (movesFrom_elem now b c s {| row := r; col := k |} p lm out) in Hm
      as (to & Hto & ->); try done.
    by exists {| row := r; col := k |}, p, lm, to.
  - intros (from & p & lm & to & Hfrom & Hat & Hc & Hlm & Hto & ->).
    pose proof (proj1 (validPos_bounds from) Hfrom) as [Hr%elem_of_rows8 Hk%elem_of_rows8].
    destruct (forPush_body _ _ _ _ H Hr) as [row_ms Hrow].
    exists (row from), row_ms. split; [done|]. split; [done|].
    destruct (forPush_body _ _ _ _ Hrow Hk) as [out Hcell].
    apply (forPush_elem _ _ row_ms _ Hrow). exists (col from), out.
    split; [done|]. split; [done|].
    apply (movesFrom_elem now b c s from p lm out); try done. by exists to.
Qed.

Lemma getAllPossibleMoves_nil now b c s ms :
  wfBoard b → (∀ t, enPassantTarget s = Some t → validPos t) →
  getAllPossibleMoves now b c s = Ok ms →
  ms = [] ↔ noLegalMoves b c s.
Proof.
  intros Hb Hep H. pose proof (getAllPossibleMoves_elem now b c s ms Hb Hep H) as Hspec.
  unfold noLegalMoves. split.
  - intros -> from p Hfrom Hat Hc.
    destruct (returns_inv _ _ (getPossibleMoves_returns b from s Hb Hfrom Hep))
      as ([|to lm] & Hlm & _); [done|].
    exfalso. eapply elem_of_nil. apply Hspec.
    exists from, p, (to :: lm), to. repeat split; try done. left.
  - intros Hnone. destruct ms as [|m ms]; [done|]. exfalso.
    destruct (proj1 (Hspec m) ltac:(left))
      as (from & p & lm & to & Hfrom & Hat & Hc & Hlm & Hto & _).
    rewrite (Hnone from p Hfrom Hat Hc) in Hlm. injection Hlm as <-.
    by apply elem_of_nil in Hto.
Qed.

Lemma at_writeCell b r c v b' t :
  wfBoard b → 0 ≤ r < 8 → 0 ≤ c < 8 → properSlot v = true →
  writeCell b r c v = Ok b' → validPos t →
  at_ b' t = if decide (t = {| row := r; col := c |}) then Ok v else at_ b t.
Proof.
  intros Hb Hr Hc Hv Hw [Htr Htc]%validPos_bounds. unfold at_.
  rewrite (readCell_writeCell b r c v b' (row t) (col t)) by done.
  destruct t as [tr tc]. simpl.
  destruct (decide (tr = r ∧ tc = c)) as [[-> ->] | Hne].
  - by rewrite decide_True.
  - rewrite decide_False; [done|]. intros [= -> ->]. tauto.
Qed.

(** A write that only happens under a condition. *)
Lemma at_writeCell_if (cond : bool) b w v b' :
  wfBoard b → (cond = true → validPos w) → properSlot v = true →
  (if cond then writeCell b (row w) (col w) v else Ok b) = Ok b' →
  wfBoard b' ∧
  ∀ t, validPos t →
    at_ b' t = if cond && bool_decide (t = w) then Ok v else at_ b t.
Proof.
  intros Hb Hw Hv H. destruct cond; simpl.
  - destruct (proj1 (validPos_bounds w) (Hw eq_refl)) as [Hr Hc].
    destruct (writeCell_wf b (row w) (col w) v Hb Hr Hc Hv) as (b1 & H1 & Hb1).
    rewrite H1 in H. injection H as <-. split; [done|]. intros t Ht.
    rewrite (at_writeCell b (row w) (col w) v b1 t) by done.
    replace {| row := row w; col := col w |} with w by by destruct w.
    destruct (decide (t = w)).
    + by rewrite bool_decide_eq_true_2.
    + by rewrite bool_decide_eq_false_2.
  - injection H as <-. done.
Qed.

(** What each square of the board holds after the writes of an accepted
    move, read off in the reverse order of the writes. *)
Lemma boardAfter_read s p from to nb :
  wfBoard (board s) → validPos from → validPos to →
  (isEnPassantMove s p to = true → validPos (capturedSquare s to)) →
  boardAfter s p from to = Ok nb →
  wfBoard nb ∧
  ∀ t, validPos t →
    at_ nb t =
      if promotes p to && bool_decide (t = to)
      then Ok (Occ {| type := queen; color := color p |})
      else if bool_decide (t = from) then Ok Null
      else if bool_decide (t = to) then Ok (Occ p)
      else if isCastlingMove p from to && bool_decide (t = rookHome from to) then Ok Null
      else if isCastlingMove p from to && bool_decide (t = rookDest from to)
           then at_ (board s) (rookHome from to)
      else if isEnPassantMove s p to && bool_decide (t = capturedSquare s to) then Ok Null
      else at_ (board s) t.
Proof.
  intros Hb Hfrom Hto Hep H. unfold boardAfter in H.
  rewrite copyBoard_wf in H by done.
  apply bind_Ok_inv in H as (b1 & H1 & H).
  apply bind_Ok_inv in H as (b2 & H2 & H).
  apply bind_Ok_inv in H as (b3 & H3 & H).
  apply bind_Ok_inv in H as (b4 & H4 & H).
  change (writeCell (board s)
            match currentPlayer s with white => row to + 1 | black => row to - 1 end
            (col to) Null)
    with (writeCell (board s) (row (capturedSquare s to)) (col (capturedSquare s to)) Null)
    in H1.
  apply at_writeCell_if in H1 as [Hb1 R1]; [|done..].
  pose proof (proj1 (validPos_bounds from) Hfrom) as [Hfr Hfc].
  pose proof (proj1 (validPos_bounds to) Hto) as [Htr Htc].
  assert (Hhome : validPos (rookHome from to)).
  { apply validPos_bounds. unfold rookHome. simpl. destruct (_ <? _); lia. }
  assert (Hdest : validPos (rookDest from to)).
  { apply validPos_bounds. unfold rookDest. simpl. destruct (_ <? _); lia. }
  assert (Hexcl : isCastlingMove p from to = true → isEnPassantMove s p to = false).
  { unfold isCastlingMove, isEnPassantMove, typeEq.
    intros [Hk%bool_decide_eq_true _]%andb_true_iff. rewrite Hk. done. }
  assert (Hb2 : wfBoard b2 ∧ ∀ t, validPos t →
    at_ b2 t =
      if isCastlingMove p from to && bool_decide (t = rookHome from to) then Ok Null
      else if isCastlingMove p from to && bool_decide (t = rookDest from to)
           then at_ (board s) (rookHome from to)
      else at_ b1 t).
  { destruct (isCastlingMove p from to) eqn:Hcastle; simpl.
    - apply bind_Ok_inv in H2 as (r & Hr & H2).
      apply bind_Ok_inv in H2 as (c1 & Hc1 & H2).
      destruct (readCell_wf b1 (row from) (if col from <? col to then 7 else 0) Hb1)
        as (r' & Hr' & Hproper); [done | destruct (_ <? _); lia |].
      rewrite Hr' in Hr. injection Hr as <-.
      assert (Hold : at_ (board s) (rookHome from to) = Ok r').
      { pose proof (R1 (rookHome from to) Hhome) as E.
        rewrite (Hexcl eq_refl) in E. simpl in E. rewrite <- E. exact Hr'. }
      destruct (writeCell_wf b1 (row from) (if col from <? col to then 5 else 3) r' Hb1)
        as (c1' & Hc1' & Hbc1); [done | destruct (_ <? _); lia | done |].
      rewrite Hc1' in Hc1. injection Hc1 as <-.
      destruct (writeCell_wf c1' (row from) (if col from <? col to then 7 else 0) Null Hbc1)
        as (b2' & Hb2' & Hwf2); [done | destruct (_ <? _); lia | done |].
      rewrite Hb2' in H2. injection H2 as <-. split; [done|]. intros t Ht.
      rewrite (at_writeCell c1' (row from) (if col from <? col to then 7 else 0)
                 Null b2' t Hbc1) by (try done; destruct (_ <? _); lia).
      fold (rookHome from to).
      destruct (decide (t = rookHome from to)) as [-> | Hne].
      + by rewrite bool_decide_eq_true_2.
      + rewrite bool_decide_eq_false_2 by done.
        rewrite (at_writeCell b1 (row from) (if col from <? col to then 5 else 3)
                   r' c1' t Hb1) by (try done; destruct (_ <? _); lia).
        fold (rookDest from to).
        destruct (decide (t = rookDest from to)) as [-> | Hne'].
        * by rewrite bool_decide_eq_true_2.
        * by rewrite bool_decide_eq_false_2.
    - injection H2 as <-. done. }
  destruct Hb2 as [Hb2 R2].
  destruct (writeCell_wf b2 (row to) (col to) (Occ p) Hb2) as (b3' & H3' & Hb3); try done.
  rewrite H3' in H3. injection H3 as <-.
  destruct (writeCell_wf b3' (row from) (col from) Null Hb3) as (b4' & H4' & Hb4); try done.
  rewrite H4' in H4. injection H4 as <-.
  fold (promotes p to) in H.
  apply at_writeCell_if in H as [Hb5 R5]; [|done..].
  split; [done|]. intros t Ht. rewrite (R5 t Ht).
  destruct (promotes p to && bool_decide (t = to)); [done|].
  rewrite (at_writeCell b3' (row from) (col from) Null b4' t Hb3) by done.
  replace {| row := row from; col := col from |} with from by by destruct from.
  destruct (decide (t = from)) as [-> | Hnf].
  { by rewrite bool_decide_eq_true_2. }
  rewrite bool_decide_eq_false_2 by done.
  rewrite (at_writeCell b2 (row to) (col to) (Occ p) b3' t Hb2) by done.
  replace {| row := row to; col := col to |} with to by by destruct to.
  destruct (decide (t = to)) as [-> | Hnt].
  { by rewrite bool_decide_eq_true_2. }
  rewrite bool_decide_eq_false_2 by done.
  rewrite (R2 t Ht).
  destruct (isCastlingMove p from to && bool_decide (t = rookHome from to)); [done|].
  destruct (isCastlingMove p from to && bool_decide (t = rookDest from to)); [done|].
  by rewrite (R1 t Ht).
Qed.

Lemma forwardOf_capturedSquare s p from to :
  validPos from → validPos to → color p = currentPlayer s →
  forwardOf (color p) from to → validPos (capturedSquare s to).
Proof.
  intros [? ?]%validPos_bounds [? ?]%validPos_bounds Hc Hfw.
  apply validPos_bounds. unfold capturedSquare. rewrite Hc in Hfw.
  destruct (currentPlayer s); simpl in *; lia.
Qed.

(** Everything an accepted move on a state of the data model fixes. *)
Lemma makeMove_accepted_facts now h s from to h' s' :
  wfState s → makeMove now h s from to = Ok (h', Some s') →
  ∃ p cap nb st,
    at_ (board s) from = Ok (Occ p) ∧ color p = currentPlayer s ∧
    at_ (board s) to = Ok cap ∧ properSlot cap = true ∧
    validPos from ∧ validPos to ∧
    pseudoReaches (board s) (enPassantTarget s) (castlingRights s) from p to ∧
    wouldBeInCheck (board s) from to (color p) = Ok false ∧
    (isEnPassantMove s p to = true → validPos (capturedSquare s to)) ∧
    boardAfter s p from to = Ok nb ∧
    getGameStatus now (nextState now s p cap from to nb active) = Ok st ∧
    h' = storeAfter h s p cap to ∧
    s' = nextState now s p cap from to nb st.
Proof.
  intros [Hb Hep] H.
  destruct (makeMove_accepted_shape _ _ _ _ _ _ _ H)
    as (p & ms & cap & nb & st & Hat & Hc & Hms & Hto & Hcap & Hnb & Hst & Hh & Hs).
  pose proof (at_Occ_valid _ _ _ Hb Hat) as Hfrom.
  pose proof (getPossibleMoves_returns (board s) from s Hb Hfrom Hep) as Hret.
  rewrite Hms in Hret. simpl in Hret. rewrite Forall_forall in Hret.
  destruct (Hret to Hto) as [Hvto Hfw].
  rewrite copyBoard_wf in Hcap by done.
  destruct (at_wf (board s) to Hb Hvto) as (cap' & Hcap' & Hproper).
  rewrite Hcap in Hcap'. injection Hcap' as <-.
  apply (getPossibleMoves_elem (board s) from s p ms Hb Hat Hms to) in Hto as [Hpseudo Hw].
  exists p, cap, nb, st. repeat split; try done.
  intros [Hpawn%bool_decide_eq_true _]%andb_true_iff.
  apply forwardOf_capturedSquare with p from; try done. by apply Hfw.
Qed.

Lemma pseudoReaches_castling b ep rights from p to :
  pseudoReaches b ep rights from p to → isCastlingMove p from to = true →
  from = sq (homeRow (color p)) 4 ∧
  (to = sq (homeRow (color p)) 6 ∨ to = sq (homeRow (color p)) 2).
Proof.
  unfold isCastlingMove, typeEq, pseudoReaches.
  intros Hreach [Hk%bool_decide_eq_true Habs%Z.eqb_eq]%andb_true_iff.
  rewrite Hk in Hreach.
  destruct Hreach as [(o & Ho & -> & _) | (-> & [(-> & _) | (-> & _)])].
  - pose proof (kingOffsets_near from o Ho). lia.
  - split; [done | by left].
  - split; [done | by right].
Qed.

Lemma promotes_pawn p to : promotes p to = true → type p = pawn.
Proof. unfold promotes, typeEq. by intros [?%bool_decide_eq_true _]%andb_true_iff. Qed.

Lemma isCastlingMove_king p from to : isCastlingMove p from to = true → type p = king.
Proof. unfold isCastlingMove, typeEq. by intros [?%bool_decide_eq_true _]%andb_true_iff. Qed.

Lemma isEnPassantMove_pawn s p to : isEnPassantMove s p to = true → type p = pawn.
Proof. unfold isEnPassantMove, typeEq. by intros [?%bool_decide_eq_true _]%andb_true_iff. Qed.

(** * Properties of the move generators *)

(** X1.  On an 8x8 board, for a square [from] and an en-passant target on
    the board, [getPossibleMoves] returns without throwing, and every
    target it lists is a square of the board other than [from]. *)
Theorem legal_moves_on_board b from s :
  wfBoard b → validPos from →
  (∀ e, enPassantTarget s = Some e → validPos e) →
  ∃ ms, getPossibleMoves b from s = Ok ms ∧ ∀ t, t ∈ ms → validPos t ∧ t ≠ from.
Proof.
  intros Hb Hfrom Hep.
  destruct (returns_inv _ _ (getPossibleMoves_returns b from s Hb Hfrom Hep))
    as (ms & Hms & Hv).
  exists ms. split; [done|]. intros t Ht. rewrite Forall_forall in Hv.
  split; [by apply Hv|].
  destruct (at_proper b from Hb Hfrom) as [Hat | [p Hat]].
  - unfold getPossibleMoves in Hms. rewrite Hat in Hms. injection Hms as <-.
    by apply elem_of_nil in Ht.
  - destruct (proj1 (getPossibleMoves_elem b from s p ms Hb Hat Hms t) Ht) as [Hreach _].
    by eapply pseudoReaches_ne.
Qed.

Lemma legal_moves_on_board_witness :
  ∃ ms, getPossibleMoves createInitialBoard (sq 6 4) start.2 = Ok ms ∧
    ∀ t, t ∈ ms → validPos t ∧ t ≠ sq 6 4.
Proof.
  apply (legal_moves_on_board createInitialBoard (sq 6 4) start.2);
    [reflexivity | reflexivity | discriminate].
Defined.

(** X2.  No legal move lands on a piece of the mover's own colour,
    provided the en-passant target (which the pawn generator adds without
    looking at the square) does not hold one. *)
Theorem legal_moves_spare_own_pieces b from s p ms :
  wfBoard b → at_ b from = Ok (Occ p) →
  (∀ e, enPassantTarget s = Some e → freeFor b (color p) e = true) →
  getPossibleMoves b from s = Ok ms →
  ∀ t, t ∈ ms → freeFor b (color p) t = true.
Proof.
  intros Hb Hat Hep Hms t Ht.
  destruct (proj1 (getPossibleMoves_elem b from s p ms Hb Hat Hms t) Ht) as [Hreach _].
  by eapply pseudoReaches_free.
Qed.

Lemma legal_moves_spare_own_pieces_witness :
  getPossibleMoves createInitialBoard (sq 7 1) start.2 = Ok [sq 5 0; sq 5 2] ∧
  freeFor createInitialBoard white (sq 5 0) = true ∧
  freeFor createInitialBoard white (sq 5 2) = true.
Proof.
  assert (Hms : getPossibleMoves createInitialBoard (sq 7 1) start.2 = Ok [sq 5 0; sq 5 2])
    by (vm_compute; reflexivity).
  pose proof (legal_moves_spare_own_pieces createInitialBoard (sq 7 1) start.2
                {| type := knight; color := white |} [sq 5 0; sq 5 2]
                eq_refl eq_refl ltac:(discriminate) Hms) as H.
  split; [exact Hms|]. split; apply H; in_list.
Defined.

(** X3.  On an 8x8 board the knight generator returns exactly the squares
    at one of the eight knight offsets from [from] that are on the board
    and empty or enemy-occupied. *)
Theorem knight_moves_spec b from c :
  wfBoard b →
  ∃ ms, getKnightMoves b from c = Ok ms ∧
    ∀ t, t ∈ ms ↔
      ∃ o, o ∈ knightOffsets ∧ t = shift from 1 o ∧ validPos t ∧ freeFor b c t = true.
Proof.
  intros Hb. unfold getKnightMoves. fold knightOffsets.
  destruct (returns_inv _ _ (stepAll_returns b from c knightOffsets Hb)) as (ms & Hms & _).
  exists ms. split; [done|]. by apply stepAll_elem.
Qed.

Lemma knight_moves_spec_witness :
  ∃ ms, getKnightMoves createInitialBoard (sq 7 1) white = Ok ms ∧
    sq 5 2 ∈ ms ∧ sq 6 3 ∉ ms.
Proof.
  destruct (knight_moves_spec createInitialBoard (sq 7 1) white) as (ms & Hms & Hspec);
    [reflexivity|].
  exists ms. split; [done|]. split.
  - apply Hspec. exists (-2, 1). repeat split. in_list.
  - intros (o & _ & _ & _ & Hfree)%Hspec. discriminate.
Defined.

(** X4.  On an 8x8 board the rook, bishop and queen generators return
    exactly the squares reached by sliding along one of their directions:
    on the board, empty or enemy-occupied, with every square passed on
    the way empty.  A friendly blocker stops the ray before it, an enemy
    blocker is included and stops it. *)
Theorem sliding_moves_spec b from c :
  wfBoard b →
  (∃ ms, getRookMoves b from c = Ok ms ∧
     ∀ t, t ∈ ms ↔ ∃ d, d ∈ rookDirections ∧ slidesTo b from c d t) ∧
  (∃ ms, getBishopMoves b from c = Ok ms ∧
     ∀ t, t ∈ ms ↔ ∃ d, d ∈ bishopDirections ∧ slidesTo b from c d t) ∧
  (∃ ms, getQueenMoves b from c = Ok ms ∧
     ∀ t, t ∈ ms ↔ ∃ d, d ∈ rookDirections ++ bishopDirections ∧ slidesTo b from c d t).
Proof.
  intros Hb. split; [|split].
  - destruct (returns_inv _ _ (slideAll_returns b from c rookDirections Hb)) as (ms & Hms & _).
    exists ms. split; [done|]. by apply slideAll_elem.
  - destruct (returns_inv _ _ (slideAll_returns b from c bishopDirections Hb))
      as (ms & Hms & _).
    exists ms. split; [done|]. by apply slideAll_elem.
  - destruct (returns_inv _ _ (getQueenMoves_returns b from c Hb)) as (ms & Hms & _).
    exists ms. split; [done|]. by apply getQueenMoves_elem.
Qed.

(** The white queen of [checkBoard] on h5 reaches the black king on e8
    over g6 and f7, and does not reach h8 behind the pawn on h7. *)
Lemma sliding_moves_spec_witness :
  ∃ ms, getQueenMoves checkBoard (sq 3 7) white = Ok ms ∧ sq 0 4 ∈ ms ∧ sq 0 7 ∉ ms.
Proof.
  destruct (sliding_moves_spec checkBoard (sq 3 7) white) as (_ & _ & ms & Hms & Hspec);
    [reflexivity|].
  exists ms. split; [done|]. split.
  - apply Hspec. exists (-1, -1). split; [in_list|].
    exists 3. split; [lia|]. split; [reflexivity|]. split; [reflexivity|].
    split; [reflexivity|]. intros j Hj.
    assert (j = 1 ∨ j = 2) as [-> | ->] by lia; split; reflexivity.
  - intros (d & Hd & k & Hk & Ht & _ & _ & Hbefore)%Hspec.
    unfold shift in Ht. injection Ht as Hr Hc.
    assert (d = (-1, 0) ∧ k = 3) as [-> ->].
    { rewrite elem_of_app in Hd. unfold rookDirections, bishopDirections in Hd.
      destruct Hd as [Hd | Hd];
        repeat (apply elem_of_cons in Hd as [-> | Hd]; [simpl in *; first [lia | split; [done | lia]]|]);
        by apply elem_of_nil in Hd. }
    destruct (Hbefore 2 ltac:(lia)) as [_ He]. discriminate.
Defined.

(** X5.  On an 8x8 board the pawn generator returns exactly: the empty
    square in front; from the start row the second square when both are
    empty; a diagonal-forward square holding an enemy piece; and the
    en-passant target when it is one of the two diagonal-forward squares
    (whatever stands on it, and whatever stands beside the pawn). *)
Theorem pawn_moves_spec b from c ep :
  wfBoard b → (∀ e, ep = Some e → validPos e) →
  ∃ ms, getPawnMoves b from c ep = Ok ms ∧ ∀ t, t ∈ ms ↔ pawnReaches b from c ep t.
Proof.
  intros Hb Hep.
  destruct (returns_inv _ _ (getPawnMoves_returns b from c ep Hb Hep)) as (ms & Hms & _).
  exists ms. split; [done|]. by apply getPawnMoves_elem.
Qed.

Lemma pawn_moves_spec_witness :
  ∃ ms, getPawnMoves createInitialBoard (sq 6 4) white None = Ok ms ∧
    sq 4 4 ∈ ms ∧ sq 5 3 ∉ ms.
Proof.
  destruct (pawn_moves_spec createInitialBoard (sq 6 4) white None) as (ms & Hms & Hspec);
    [reflexivity | discriminate |].
  exists ms. split; [done|]. split.
  - apply Hspec. right. left. repeat split.
  - intros [(Heq & _) | [(Heq & _) | [(_ & _ & He) | (He & _)]]]%Hspec; discriminate.
Defined.

(** X6.  On an 8x8 board the king generator returns exactly: the adjacent
    squares on the board that are empty or enemy-occupied; and, for a
    king on its home square e1 or e8, the square two columns towards a
    side when that side's right is set, the squares between king and
    corner are empty, and the scan finds the king's square, the square it
    crosses and the square it lands on not attacked.  Whether a rook
    stands on the corner is not looked at. *)
Theorem king_moves_spec b from c rights :
  wfBoard b →
  ∃ ms, getKingMoves b from c rights = Ok ms ∧
    ∀ t, t ∈ ms ↔ kingReaches b from c rights t.
Proof.
  intros Hb.
  destruct (returns_inv _ _ (getKingMovesWith_returns isSquareAttacked b Hb from c rights
    (λ sq c, isSquareAttacked_returns b sq c Hb))) as (ms & Hms & _).
  exists ms. split; [done|]. by apply getKingMoves_elem.
Qed.

Lemma king_moves_spec_witness :
  ∃ ms, getKingMoves (board (stateAfter castleGame).2) (sq 7 4) white
          (castlingRights (stateAfter castleGame).2) = Ok ms ∧
    sq 7 6 ∈ ms ∧ sq 7 2 ∉ ms.
Proof.
  destruct (king_moves_spec (board (stateAfter castleGame).2) (sq 7 4) white
              (castlingRights (stateAfter castleGame).2)) as (ms & Hms & Hspec);
    [vm_compute; reflexivity|].
  exists ms. split; [done|]. split.
  - apply Hspec. right. split; [reflexivity|]. left. split; [reflexivity|].
    split; [vm_compute; reflexivity|]. split; intros k Hk%list_elem_of_In;
      simpl in Hk; repeat (destruct Hk as [<- | Hk]; [vm_compute; reflexivity|]);
      destruct Hk.
  - intros [(o & Ho & Ht & _) | (_ & [(Ht & _) | (_ & _ & Hempty & _)])]%Hspec.
    + unfold shift in Ht. injection Ht as _ Hc.
      unfold kingOffsets in Ho.
      repeat (apply elem_of_cons in Ho as [-> | Ho]; [simpl in Hc; lia|]).
      by apply elem_of_nil in Ho.
    + discriminate.
    + specialize (Hempty 1 ltac:(in_list)). vm_compute in Hempty. discriminate.
Defined.

(** X7.  The legal moves of the piece on [from] are exactly its
    pseudo-legal targets (for the state's en-passant target and castling
    rights) on which the would-be-in-check test answers [false]. *)
Theorem legal_moves_spec b from s p :
  wfBoard b → at_ b from = Ok (Occ p) →
  (∀ e, enPassantTarget s = Some e → validPos e) →
  ∃ ms, getPossibleMoves b from s = Ok ms ∧
    ∀ t, t ∈ ms ↔
      pseudoReaches b (enPassantTarget s) (castlingRights s) from p t ∧
      wouldBeInCheck b from t (color p) = Ok false.
Proof.
  intros Hb Hat Hep.
  pose proof (at_Occ_valid b from p Hb Hat) as Hfrom.
  destruct (returns_inv _ _ (getPossibleMoves_returns b from s Hb Hfrom Hep))
    as (ms & Hms & _).
  exists ms. split; [done|]. by apply getPossibleMoves_elem.
Qed.

(** In [checkBoard] black is in check from h5: the pawn g7 may interpose
    on g6, the knight b8 may not go to c6. *)
Lemma legal_moves_spec_witness :
  (∃ ms, getPossibleMoves checkBoard (sq 1 6) checkAtFifty = Ok ms ∧ sq 2 6 ∈ ms) ∧
  (∃ ms, getPossibleMoves checkBoard (sq 0 1) checkAtFifty = Ok ms ∧ sq 2 2 ∉ ms).
Proof.
  split.
  - destruct (legal_moves_spec checkBoard (sq 1 6) checkAtFifty
                {| type := pawn; color := black |}) as (ms & Hms & Hspec);
      [reflexivity | reflexivity | discriminate |].
    exists ms. split; [done|]. apply Hspec. split; [|vm_compute; reflexivity].
    left. repeat split.
  - destruct (legal_moves_spec checkBoard (sq 0 1) checkAtFifty
                {| type := knight; color := black |}) as (ms & Hms & Hspec);
      [reflexivity | reflexivity | discriminate |].
    exists ms. split; [done|]. intros [_ Hw]%Hspec. vm_compute in Hw. discriminate.
Defined.

(** X8.  On an 8x8 board [isSquareAttacked] returns without throwing, and
    it returns [true] exactly when some piece of [byColor] has the square
    among its pseudo-legal targets computed without en-passant target and
    without castling rights.  (Pawn pushes count, pawn diagonals onto
    empty squares do not.) *)
Theorem square_attacked_spec b square byColor :
  wfBoard b →
  ∃ r, isSquareAttacked b square byColor = Ok r ∧
    (r = true ↔
     ∃ from p, validPos from ∧ at_ b from = Ok (Occ p) ∧ color p = byColor ∧
       pseudoReaches b None noCastlingRights from p square).
Proof.
  intros Hb.
  destruct (returns_inv _ _ (isSquareAttacked_returns b square byColor Hb)) as (r & Hr & _).
  exists r. split; [done|]. split.
  - intros ->.
    destruct (isSquareAttacked_true_inv b square byColor Hr)
      as (from & p & ms & Hfrom & Hat & Hc & Hms & Hin).
    exists from, p. repeat split; try done.
    by apply (getPossibleMovesWithoutCheckValidation_elem b from p ms Hb Hat Hms).
  - intros (from & p & Hfrom & Hat & Hc & Hreach).
    destruct (returns_inv _ _
      (getPossibleMovesWithoutCheckValidation_returns b from Hb Hfrom)) as (ms & Hms & _).
    assert (isSquareAttacked b square byColor = Ok true); [|congruence].
    eapply isSquareAttacked_by; try done.
    by apply (getPossibleMovesWithoutCheckValidation_elem b from p ms Hb Hat Hms).
Qed.

(** On the initial board d3 is attacked by white (the pawn d2 may push
    there; so may c2 and e2 not capture there, the square being empty),
    and e4 is attacked by nobody. *)
Lemma square_attacked_spec_witness :
  isSquareAttacked createInitialBoard (sq 5 3) white = Ok true ∧
  ∃ r, isSquareAttacked createInitialBoard (sq 4 4) black = Ok r.
Proof.
  split.
  - destruct (square_attacked_spec createInitialBoard (sq 5 3) white) as (r & Hr & Hspec);
      [reflexivity|].
    rewrite Hr. f_equal. apply Hspec.
    exists (sq 6 3), {| type := pawn; color := white |}.
    repeat split. left. repeat split.
  - destruct (square_attacked_spec createInitialBoard (sq 4 4) black) as (r & Hr & _);
      [reflexivity|].
    by exists r.
Defined.

(** X9.  On a state of the data model [getAllPossibleMoves] returns
    without throwing, and its entries are exactly the legal moves
    ([getPossibleMoves]) of the pieces of colour [c], each recorded with
    its origin, destination, piece and the piece standing on the
    destination.  Every record carries its own reading of the clock; the
    timestamps are therefore left out of the comparison. *)
Theorem all_moves_spec now b c s :
  wfBoard b → (∀ e, enPassantTarget s = Some e → validPos e) →
  ∃ ms, getAllPossibleMoves now b c s = Ok ms ∧
    ∀ m, m ∈ withTimestamp 0 <$> ms ↔
      ∃ from p lm to, validPos from ∧ at_ b from = Ok (Occ p) ∧ color p = c ∧
        getPossibleMoves b from s = Ok lm ∧ to ∈ lm ∧
        m = candidateMove 0 b from to p.
Proof.
  intros Hb Hep.
  destruct (returns_inv _ _ (getAllPossibleMoves_returns now b c s Hb Hep)) as (ms & Hms & _).
  exists ms. split; [done|]. intros m. rewrite list_elem_of_fmap. split.
  - intros (m' & -> & Hin).
    apply (getAllPossibleMoves_elem now b c s ms Hb Hep Hms) in Hin
      as (from & p & lm & to & Hv & Hat & Hc & Hlm & Hto & ->).
    by exists from, p, lm, to.
  - intros (from & p & lm & to & Hv & Hat & Hc & Hlm & Hto & ->).
    exists (candidateMove now b from to p). split; [done|].
    apply (getAllPossibleMoves_elem now b c s ms Hb Hep Hms).
    by exists from, p, lm, to.
Qed.

Lemma all_moves_spec_witness :
  ∃ ms, getAllPossibleMoves 1700000000000 createInitialBoard white start.2 = Ok ms ∧
    candidateMove 0 createInitialBoard (sq 6 4) (sq 4 4) {| type := pawn; color := white |}
      ∈ withTimestamp 0 <$> ms.
Proof.
  destruct (all_moves_spec 1700000000000 createInitialBoard white start.2)
    as (ms & Hms & Hspec); [reflexivity | discriminate |].
  exists ms. split; [done|]. apply Hspec.
  exists (sq 6 4), {| type := pawn; color := white |}, [sq 5 4; sq 4 4], (sq 4 4).
  split; [reflexivity|]. split; [reflexivity|]. split; [reflexivity|].
  split; [vm_compute; reflexivity|]. split; [in_list | reflexivity].
Defined.

(** X10.  On a state of the data model [getGameStatus] returns without
    throwing; it returns [checkmate] exactly when the side to move is in
    check and none of its pieces has a legal move, and [stalemate] exactly
    when it is not in check and none of its pieces has a legal move. *)
Theorem status_mate_spec now s :
  wfState s →
  ∃ st, getGameStatus now s = Ok st ∧
    (st = checkmate ↔
       isInCheck (board s) (currentPlayer s) = Ok true ∧
       noLegalMoves (board s) (currentPlayer s) s) ∧
    (st = stalemate ↔
       isInCheck (board s) (currentPlayer s) = Ok false ∧
       noLegalMoves (board s) (currentPlayer s) s).
Proof.
  intros [Hb Hep].
  destruct (returns_inv _ _ (getGameStatus_returns now s (conj Hb Hep))) as (st & Hst & _).
  exists st. split; [done|].
  unfold getGameStatus in Hst. cbv zeta in Hst.
  apply bind_Ok_inv in Hst as (inCheck & Hcheck & Hst).
  apply bind_Ok_inv in Hst as (ms & Hms & Hst).
  pose proof (getAllPossibleMoves_nil now _ _ s ms Hb Hep Hms) as Hnil.
  rewrite Hcheck.
  destruct ms as [|m ms]; simpl in Hst.
  - injection Hst as <-. pose proof (proj1 Hnil eq_refl).
    destruct inCheck; split; split; intros; try done; intuition congruence.
  - assert (Hsome : ¬ noLegalMoves (board s) (currentPlayer s) s)
      by (intros Hn%Hnil; discriminate).
    assert (st ≠ checkmate ∧ st ≠ stalemate) as [? ?].
    { destruct inCheck; [injection Hst as <-; done|].
      destruct (50 <=? _); [injection Hst as <-; done|].
      destruct (_ <=? _)%nat; [|injection Hst as <-; done].
      apply bind_Ok_inv in Hst as (only & _ & Hst).
      destruct only; injection Hst as <-; done. }
    split; split; intros; try done; tauto.
Qed.

(** After fool's mate white is checkmated. *)
Lemma status_mate_spec_witness :
  isInCheck (board (stateAfter foolsMate).2) white = Ok true ∧
  noLegalMoves (board (stateAfter foolsMate).2) white (stateAfter foolsMate).2.
Proof.
  destruct (status_mate_spec 0 (stateAfter foolsMate).2) as (st & Hst & Hmate & _).
  - split; [vm_compute; reflexivity | vm_compute; discriminate].
  - apply Hmate. vm_compute in Hst. by injection Hst as <-.
Defined.

(** * Properties of the transition *)

(** X11.  On a state of the data model and for a square [from],
    [makeMove] never throws, whatever [to] is: it returns a state or
    [null]. *)
Theorem makeMove_returns_on_squares now h s from to :
  wfState s → validPos from → ∃ h' r, makeMove now h s from to = Ok (h', r).
Proof.
  intros Hs Hfrom. destruct Hs as [Hb Hep].
  destruct (at_proper (board s) from Hb Hfrom) as [Hat | [p Hat]].
  - exists h, None. eapply makeMove_rejects_foreign; [done|]. discriminate.
  - destruct (decide (color p = currentPlayer s)) as [Hc | Hc].
    + destruct (returns_inv _ _ (getPossibleMoves_returns (board s) from s Hb Hfrom Hep))
        as (ms & Hms & _).
      destruct (decide (to ∈ ms)) as [Hto | Hto].
      * destruct (returns_inv _ _
          (makeMove_accepts now h s from to p ms (conj Hb Hep) Hfrom Hat Hc Hms Hto))
          as ([h' r] & E & _).
        by exists h', r.
      * exists h, None. by eapply makeMove_rejects_illegal.
    + exists h, None. eapply makeMove_rejects_foreign; [done|]. by intros q [= <-].
Qed.

Lemma makeMove_returns_on_squares_witness :
  ∃ h' r, makeMove 0 start.1 start.2 (sq 7 1) (sq 100 (-3)) = Ok (h', r).
Proof.
  apply makeMove_returns_on_squares; [apply start_wf | reflexivity].
Defined.

(** X12.  With an origin whose row is off the 8x8 board [makeMove]
    throws (the row lookup is [undefined]); with a row on the board and a
    column off it, it returns [null] and leaves the store alone. *)
Theorem makeMove_off_board_origin now h s from to :
  wfBoard (board s) →
  (¬ 0 ≤ row from < 8 → makeMove now h s from to = Throw) ∧
  (0 ≤ row from < 8 → ¬ 0 ≤ col from < 8 → makeMove now h s from to = Ok (h, None)).
Proof.
  intros Hb. pose proof (wfBoard_length _ Hb) as Hlen. split.
  - intros Hr. unfold makeMove, at_, readCell, index.
    destruct (decide (0 ≤ row from)); [|done].
    rewrite lookup_ge_None_2 by lia. done.
  - intros Hr Hc.
    eapply (makeMove_rejects_foreign now h s from to Undefined); [|discriminate].
    unfold at_, readCell.
    destruct (index_Some (board s) (row from)) as (cells & -> & Hcells); [lia|].
    destruct (wfBoard_row _ _ cells Hb Hcells) as [Hl _].
    unfold index. destruct (decide (0 ≤ col from)); [|done].
    rewrite lookup_ge_None_2 by lia. done.
Qed.

Lemma makeMove_off_board_origin_witness :
  makeMove 0 start.1 start.2 (sq 8 0) (sq 7 0) = Throw ∧
  makeMove 0 start.1 start.2 (sq 6 8) (sq 5 7) = Ok (start.1, None).
Proof.
  destruct (makeMove_off_board_origin 0 start.1 start.2 (sq 8 0) (sq 7 0)) as [H1 _];
    [reflexivity|].
  destruct (makeMove_off_board_origin 0 start.1 start.2 (sq 6 8) (sq 5 7)) as [_ H2];
    [reflexivity|].
  split; [apply H1; simpl; lia | apply H2; simpl; lia].
Defined.

(** X13.  An accepted move keeps the state inside the data model: the new
    board is 8x8 with every slot a piece or [null], and the new
    en-passant target, if any, is a square of the board. *)
Theorem makeMove_keeps_data_model now h s from to h' s' :
  wfState s → makeMove now h s from to = Ok (h', Some s') → wfState s'.
Proof. intros Hs H. by eapply makeMove_wf. Qed.

Lemma makeMove_keeps_data_model_witness :
  ∃ h' s', makeMove 0 start.1 start.2 (sq 6 4) (sq 4 4) = Ok (h', Some s') ∧ wfState s'.
Proof.
  do 2 eexists.
  match goal with |- ?A ∧ _ => assert (Hm : A) by (vm_compute; reflexivity) end.
  split; [exact Hm|].
  exact (makeMove_keeps_data_model _ _ _ _ _ _ _ start_wf Hm).
Defined.

Lemma accepted_board now h s from to h' s' p :
  wfState s → makeMove now h s from to = Ok (h', Some s') →
  at_ (board s) from = Ok (Occ p) →
  validPos from ∧ validPos to ∧ to ≠ from ∧
  pseudoReaches (board s) (enPassantTarget s) (castlingRights s) from p to ∧
  wfBoard (board s') ∧
  ∀ t, validPos t →
    at_ (board s') t =
      if promotes p to && bool_decide (t = to)
      then Ok (Occ {| type := queen; color := color p |})
      else if bool_decide (t = from) then Ok Null
      else if bool_decide (t = to) then Ok (Occ p)
      else if isCastlingMove p from to && bool_decide (t = rookHome from to) then Ok Null
      else if isCastlingMove p from to && bool_decide (t = rookDest from to)
           then at_ (board s) (rookHome from to)
      else if isEnPassantMove s p to && bool_decide (t = capturedSquare s to) then Ok Null
      else at_ (board s) t.
Proof.
  intros Hs H Hat.
  destruct (makeMove_accepted_facts now h s from to h' s' Hs H)
    as (p' & cap & nb & st & Hat' & Hc & Hcap & Hproper & Hfrom & Hto & Hreach & Hw &
        Hep & Hnb & Hst & Hh & ->).
  rewrite Hat in Hat'. injection Hat' as <-.
  destruct (boardAfter_read s p from to nb (proj1 Hs) Hfrom Hto Hep Hnb) as [Hwf Hread].
  repeat split; try done. by eapply pseudoReaches_ne.
Qed.

(** X14.  After an accepted move the origin is empty and the destination
    holds the piece that moved, or a queen of its colour when that piece
    is a pawn arriving on row 0 or row 7. *)
Theorem move_vacates_and_lands now h s from to h' s' p :
  wfState s → makeMove now h s from to = Ok (h', Some s') →
  at_ (board s) from = Ok (Occ p) →
  at_ (board s') from = Ok Null ∧ at_ (board s') to = Ok (Occ (arrived p to)).
Proof.
  intros Hs H Hat.
  destruct (accepted_board now h s from to h' s' p Hs H Hat)
    as (Hfrom & Hto & Hne & _ & _ & Hread).
  split.
  - rewrite (Hread from Hfrom). rewrite (bool_decide_eq_false_2 (from = to)) by done.
    rewrite andb_false_r. by rewrite bool_decide_eq_true_2.
  - rewrite (Hread to Hto). unfold arrived.
    rewrite (bool_decide_eq_true_2 (to = to)) by done. rewrite andb_true_r.
    destruct (promotes p to); [done|]. by rewrite bool_decide_eq_false_2.
Qed.

Lemma stateAfter_wf moves : wfState (stateAfter moves).2.
Proof.
  unfold stateAfter.
  destruct (play 0 start.1 start.2 moves) as [[[h s]|]|] eqn:E; try apply start_wf.
  by eapply reachable_wf.
Qed.

Lemma move_vacates_and_lands_witness :
  ∃ h' s', makeMove 0 (stateAfter promotionGame).1 (stateAfter promotionGame).2
             (sq 1 0) (sq 0 1) = Ok (h', Some s') ∧
    at_ (board s') (sq 1 0) = Ok Null ∧ at_ (board s') (sq 0 1) = Ok (pc queen white).
Proof.
  do 2 eexists.
  match goal with |- ?A ∧ _ => assert (Hm : A) by (vm_compute; reflexivity) end.
  split; [exact Hm|].
  apply (move_vacates_and_lands _ _ _ _ _ _ _ {| type := pawn; color := white |}
           (stateAfter_wf promotionGame) Hm).
  vm_compute. reflexivity.
Defined.

(** X15.  An accepted move changes no square other than its origin, its
    destination, the square of the pawn taken en passant (for a pawn
    arriving on the en-passant target) and the rook's corner and landing
    square (for a king moving two columns). *)
Theorem move_frame now h s from to h' s' p t :
  wfState s → makeMove now h s from to = Ok (h', Some s') →
  at_ (board s) from = Ok (Occ p) →
  validPos t → t ≠ from → t ≠ to →
  (isEnPassantMove s p to = true → t ≠ capturedSquare s to) →
  (isCastlingMove p from to = true → t ≠ rookHome from to ∧ t ≠ rookDest from to) →
  at_ (board s') t = at_ (board s) t.
Proof.
  intros Hs H Hat Ht Hnf Hnt Hnep Hncastle.
  destruct (accepted_board now h s from to h' s' p Hs H Hat) as (_ & _ & _ & _ & _ & Hread).
  rewrite (Hread t Ht).
  rewrite (bool_decide_eq_false_2 (t = to)), (bool_decide_eq_false_2 (t = from)) by done.
  rewrite andb_false_r.
  destruct (isCastlingMove p from to).
  - destruct (Hncastle eq_refl) as [? ?].
    rewrite (bool_decide_eq_false_2 (t = rookHome from to)),
      (bool_decide_eq_false_2 (t = rookDest from to)) by done. simpl.
    destruct (isEnPassantMove s p to); [|done].
    by rewrite bool_decide_eq_false_2 by by apply Hnep.
  - simpl. destruct (isEnPassantMove s p to); [|done].
    by rewrite bool_decide_eq_false_2 by by apply Hnep.
Qed.

Lemma move_frame_witness :
  ∃ h' s', makeMove 0 start.1 start.2 (sq 6 4) (sq 4 4) = Ok (h', Some s') ∧
    at_ (board s') (sq 7 4) = at_ (board start.2) (sq 7 4).
Proof.
  do 2 eexists.
  match goal with |- ?A ∧ _ => assert (Hm : A) by (vm_compute; reflexivity) end.
  split; [exact Hm|].
  apply (move_frame _ _ _ _ _ _ _ {| type := pawn; color := white |} (sq 7 4) start_wf Hm);
    try reflexivity; discriminate.
Defined.

(** X16.  When a pawn is accepted onto the en-passant target, the square
    behind the destination (on the mover's side) is empty afterwards,
    whatever stood there, and the move record is flagged en passant. *)
Theorem en_passant_clears_square_behind now h s from to h' s' p :
  wfState s → makeMove now h s from to = Ok (h', Some s') →
  at_ (board s) from = Ok (Occ p) → type p = pawn → enPassantTarget s = Some to →
  at_ (board s') (capturedSquare s to) = Ok Null ∧
  (isEnPassant <$> last (moveHistory s')) = Some (Some true).
Proof.
  intros Hs H Hat Hpawn Hep.
  assert (Hisep : isEnPassantMove s p to = true).
  { unfold isEnPassantMove, typeEq. rewrite Hpawn, Hep.
    by rewrite (proj2 (positionsEqual_eq to to) eq_refl). }
  destruct (makeMove_accepted_facts now h s from to h' s' Hs H)
    as (p' & cap & nb & st & Hat' & Hc & Hcap & Hproper & Hfrom & Hto & Hreach & Hw &
        Hvep & Hnb & Hst & Hh & Hs').
  rewrite Hat in Hat'. injection Hat' as <-.
  destruct (accepted_board now h s from to h' s' p Hs H Hat) as (_ & _ & _ & _ & _ & Hread).
  split.
  - rewrite (Hread _ (Hvep Hisep)).
    assert (Hne : capturedSquare s to ≠ to).
    { unfold capturedSquare. destruct to as [r c]. destruct (currentPlayer s);
        simpl; intros [=]; lia. }
    rewrite (bool_decide_eq_false_2 (capturedSquare s to = to)) by done.
    rewrite andb_false_r.
    destruct (bool_decide (capturedSquare s to = from)); [done|].
    assert (isCastlingMove p from to = false) as ->
      by (unfold isCastlingMove, typeEq; by rewrite Hpawn).
    simpl. rewrite Hisep. by rewrite bool_decide_eq_true_2.
  - rewrite Hs'. simpl. rewrite last_snoc. simpl. by rewrite Hisep.
Qed.

Lemma en_passant_clears_square_behind_witness :
  ∃ h' s', makeMove 0 (stateAfter epGame).1 (stateAfter epGame).2 (sq 3 4) (sq 2 3)
             = Ok (h', Some s') ∧
    at_ (board (stateAfter epGame).2) (sq 3 3) = Ok (pc pawn black) ∧
    at_ (board s') (sq 3 3) = Ok Null.
Proof.
  do 2 eexists.
  match goal with |- ?A ∧ _ => assert (Hm : A) by (vm_compute; reflexivity) end.
  split; [exact Hm|]. split; [vm_compute; reflexivity|].
  refine (proj1 (en_passant_clears_square_behind _ _ _ _ _ _ _
            {| type := pawn; color := white |} (stateAfter_wf epGame) Hm _ eq_refl _));
    vm_compute; reflexivity.
Defined.

(** X17.  When a king is accepted two columns away (castling), it started
    from e1 or e8, the corner on the side it moved to is empty afterwards
    and the square next to the king on that side holds whatever stood on
    the corner before; the record is flagged castling. *)
Theorem castling_relocates_corner now h s from to h' s' p :
  wfState s → makeMove now h s from to = Ok (h', Some s') →
  at_ (board s) from = Ok (Occ p) → isCastlingMove p from to = true →
  from = sq (homeRow (color p)) 4 ∧
  (to = sq (homeRow (color p)) 6 ∨ to = sq (homeRow (color p)) 2) ∧
  at_ (board s') (rookHome from to) = Ok Null ∧
  at_ (board s') (rookDest from to) = at_ (board s) (rookHome from to) ∧
  at_ (board s') to = Ok (Occ p) ∧
  (isCastling <$> last (moveHistory s')) = Some (Some true).
Proof.
  intros Hs H Hat Hcastle.
  destruct (makeMove_accepted_facts now h s from to h' s' Hs H)
    as (p' & cap & nb & st & Hat' & _ & _ & _ & _ & _ & _ & _ & _ & _ & _ & _ & Hs').
  rewrite Hat in Hat'. injection Hat' as <-.
  destruct (accepted_board now h s from to h' s' p Hs H Hat)
    as (Hfrom & Hto & Hne & Hreach & _ & Hread).
  destruct (pseudoReaches_castling _ _ _ _ _ _ Hreach Hcastle) as [Hf Ht].
  pose proof (isCastlingMove_king _ _ _ Hcastle) as Hking.
  assert (Hpromo : promotes p to = false) by (unfold promotes, typeEq; by rewrite Hking).
  assert (Hhome : validPos (rookHome from to)).
  { apply validPos_bounds. apply validPos_bounds in Hfrom.
    unfold rookHome. simpl. destruct (_ <? _); lia. }
  assert (Hdest : validPos (rookDest from to)).
  { apply validPos_bounds. apply validPos_bounds in Hfrom.
    unfold rookDest. simpl. destruct (_ <? _); lia. }
  assert (Hdistinct : rookHome from to ≠ from ∧ rookHome from to ≠ to ∧
                      rookDest from to ≠ from ∧ rookDest from to ≠ to ∧
                      rookDest from to ≠ rookHome from to).
  { rewrite Hf. unfold rookHome, rookDest, sq.
    destruct Ht as [-> | ->]; simpl; repeat split; intros [=]. }
  destruct Hdistinct as (H1 & H2 & H3 & H4 & H5).
  repeat split; try done.
  - rewrite (Hread _ Hhome), Hpromo, Hcastle. simpl.
    rewrite (bool_decide_eq_false_2 (rookHome from to = from)),
      (bool_decide_eq_false_2 (rookHome from to = to)) by done.
    by rewrite bool_decide_eq_true_2.
  - rewrite (Hread _ Hdest), Hpromo, Hcastle. simpl.
    rewrite (bool_decide_eq_false_2 (rookDest from to = from)),
      (bool_decide_eq_false_2 (rookDest from to = to)),
      (bool_decide_eq_false_2 (rookDest from to = rookHome from to)) by done.
    by rewrite bool_decide_eq_true_2.
  - rewrite (Hread _ Hto), Hpromo. simpl.
    rewrite (bool_decide_eq_false_2 (to = from)) by done.
    by rewrite bool_decide_eq_true_2.
  - rewrite Hs'. simpl. rewrite last_snoc. simpl. by rewrite Hcastle.
Qed.

Lemma castling_relocates_corner_witness :
  ∃ h' s', makeMove 0 (stateAfter castleGame).1 (stateAfter castleGame).2
             (sq 7 4) (sq 7 6) = Ok (h', Some s') ∧
    at_ (board s') (sq 7 7) = Ok Null ∧ at_ (board s') (sq 7 5) = Ok (pc rook white).
Proof.
  do 2 eexists.
  match goal with |- ?A ∧ _ => assert (Hm : A) by (vm_compute; reflexivity) end.
  split; [exact Hm|].
  destruct (castling_relocates_corner _ _ _ _ _ _ _ {| type := king; color := white |}
              (stateAfter_wf castleGame) Hm) as (_ & _ & Hcorner & Hland & _);
    [vm_compute; reflexivity | reflexivity |].
  split; [exact Hcorner|]. refine (eq_trans Hland _). vm_compute. reflexivity.
Defined.

Lemma ledger_nextState now s p cap from to nb st c :
  ledger (capturedPieces (nextState now s p cap from to nb st)) c
  = ledger (capturedPieces s) c.
Proof. by destruct c. Qed.

Lemma pushCaptured_read h cp x c :
  cwhite cp ≠ cblack cp → (ledger cp (color x) < length h)%nat →
  default [] (pushCaptured h cp (color x) x !! ledger cp c)
  = default [] (h !! ledger cp c) ++ (if decide (color x = c) then [x] else []).
Proof.
  intros Hne Hlt. unfold pushCaptured.
  destruct (decide (color x = c)) as [<- | Hc].
  - rewrite list_lookup_alter_eq.
    destruct (lookup_lt_is_Some_2 h (ledger cp (color x)) Hlt) as [a Ha].
    unfold Ref in *. rewrite Ha. reflexivity.
  - rewrite list_lookup_alter_ne; [by rewrite app_nil_r|].
    destruct c, (color x); simpl; congruence.
Qed.

Lemma pushCaptured_length h cp c x : length (pushCaptured h cp c x) = length h.
Proof. unfold pushCaptured. apply length_alter. Qed.

Lemma storeAfter_read h s (qs : list ChessPiece) c :
  cwhite (capturedPieces s) ≠ cblack (capturedPieces s) →
  (cwhite (capturedPieces s) < length h)%nat →
  (cblack (capturedPieces s) < length h)%nat →
  let h' := foldl (λ h q, pushCaptured h (capturedPieces s) (color q) q) h qs in
  length h' = length h ∧
  default [] (h' !! ledger (capturedPieces s) c)
  = default [] (h !! ledger (capturedPieces s) c) ++ filter (λ q, color q = c) qs.
Proof.
  intros Hne. revert h. induction qs as [|q qs IH]; intros h Hw Hb; simpl.
  - by rewrite app_nil_r.
  - destruct (IH (pushCaptured h (capturedPieces s) (color q) q)) as [Hlen Hread];
      [by rewrite pushCaptured_length..|].
    split; [by rewrite Hlen, pushCaptured_length|].
    rewrite Hread, (pushCaptured_read h (capturedPieces s) q c Hne)
      by by destruct (color q).
    rewrite filter_cons. destruct (decide (color q = c)); [by rewrite <- app_assoc|].
    by rewrite app_nil_r.
Qed.

(** X18.  The captured-piece ledgers are append-only and shared.  After
    an accepted move each ledger of the new state is the ledger of the
    prior state followed by the pieces of that colour taken by the move
    (the piece on the destination, then the pawn taken en passant); and
    the prior state, read afterwards, shows the very same ledgers as the
    new state. *)
Theorem ledgers_append_and_alias now h s from to h' s' p cap c :
  wfState s → ledgersOk h s →
  makeMove now h s from to = Ok (h', Some s') →
  at_ (board s) from = Ok (Occ p) → at_ (board s) to = Ok cap →
  capturedOf h' s' c
    = capturedOf h s c ++ filter (λ q, color q = c) (capturedBy s p cap to) ∧
  capturedOf h' s c = capturedOf h' s' c ∧
  ledgersOk h' s'.
Proof.
  intros Hs (Hne & Hw & Hb) H Hat Hcap.
  destruct (makeMove_accepted_facts now h s from to h' s' Hs H)
    as (p' & cap' & nb & st & Hat' & _ & Hcap' & _ & _ & _ & _ & _ & _ & _ & _ & -> & ->).
  rewrite Hat in Hat'. injection Hat' as <-.
  rewrite Hcap in Hcap'. injection Hcap' as <-.
  unfold capturedOf. rewrite ledger_nextState.
  destruct (storeAfter_read h s (capturedBy s p cap to) c Hne Hw Hb) as [Hlen Hread].
  split; [exact Hread|]. split; [done|].
  unfold ledgersOk, storeAfter. simpl. by rewrite Hlen.
Qed.

Lemma ledgers_append_and_alias_witness :
  ∃ h' s', makeMove 0 (stateAfter captureGame).1 (stateAfter captureGame).2
             (sq 4 4) (sq 3 3) = Ok (h', Some s') ∧
    capturedOf h' s' black = [ {| type := pawn; color := black |} ] ∧
    capturedOf h' (stateAfter captureGame).2 black = capturedOf h' s' black.
Proof.
  assert (Hled : ledgersOk (stateAfter captureGame).1 (stateAfter captureGame).2)
    by (vm_compute; repeat split; lia).
  assert (Hat : at_ (board (stateAfter captureGame).2) (sq 4 4) = Ok (pc pawn white))
    by (vm_compute; reflexivity).
  assert (Hcap : at_ (board (stateAfter captureGame).2) (sq 3 3) = Ok (pc pawn black))
    by (vm_compute; reflexivity).
  do 2 eexists.
  match goal with |- ?A ∧ _ => assert (Hm : A) by (vm_compute; reflexivity) end.
  split; [exact Hm|].
  destruct (ledgers_append_and_alias 0 (stateAfter captureGame).1
              (stateAfter captureGame).2 (sq 4 4) (sq 3 3) _ _
              {| type := pawn; color := white |}
              (pc pawn black) black (stateAfter_wf captureGame) Hled Hm Hat Hcap)
    as (Happend & Halias & _).
  split; [refine (eq_trans Happend _); vm_compute; reflexivity | exact Halias].
Defined.

(** X19.  The status stored in a state returned by [makeMove] is the
    status [getGameStatus] computes for that state. *)
Theorem stored_status_is_recomputed now h s from to h' s' :
  makeMove now h s from to = Ok (h', Some s') →
  getGameStatus now s' = Ok (status s').
Proof.
  intros H.
  destruct (makeMove_accepted_shape _ _ _ _ _ _ _ H)
    as (p & ms & cap & nb & st & _ & _ & _ & _ & _ & _ & Hst & _ & ->).
  exact Hst.
Qed.

Lemma stored_status_is_recomputed_witness :
  ∃ h' s', makeMove 0 (stateAfter shuffleGame).1 (stateAfter shuffleGame).2
             (sq 7 3) (sq 3 7) = Ok (h', Some s') ∧
    status s' = check ∧ getGameStatus 0 s' = Ok check.
Proof.
  do 2 eexists.
  match goal with |- ?A ∧ _ => assert (Hm : A) by (vm_compute; reflexivity) end.
  split; [exact Hm|]. split; [reflexivity|].
  exact (stored_status_is_recomputed _ _ _ _ _ _ _ Hm).
Defined.

Lemma emptySquare_Null b t : emptySquare b t = true → at_ b t = Ok Null.
Proof. unfold emptySquare. by destruct (at_ b t) as [[| | |q]|]. Qed.

(** X20.  After an accepted move the en-passant target is set exactly
    when a pawn has advanced two rows; it is then the square the pawn
    passed over, and that square is empty on the new board.  After any
    other accepted move the target is cleared. *)
Theorem en_passant_target_after_move now h s from to h' s' p :
  wfState s → makeMove now h s from to = Ok (h', Some s') →
  at_ (board s) from = Ok (Occ p) →
  (type p = pawn ∧ to = doublePushSquare (color p) from →
     enPassantTarget s' = Some (pushSquare (color p) from) ∧
     at_ (board s') (pushSquare (color p) from) = Ok Null) ∧
  (¬ (type p = pawn ∧ to = doublePushSquare (color p) from) →
     enPassantTarget s' = None).
Proof.
  intros Hs H Hat.
  destruct (makeMove_accepted_facts now h s from to h' s' Hs H)
    as (p' & cap & nb & st & Hat' & _ & _ & _ & _ & _ & _ & _ & _ & _ & _ & _ & Hs').
  rewrite Hat in Hat'. injection Hat' as <-.
  destruct (accepted_board now h s from to h' s' p Hs H Hat)
    as (Hfrom & Hto & Hne & Hreach & _ & Hread).
  assert (Hep' : enPassantTarget s' =
    if typeEq (type p) pawn && (Z.abs (row to - row from) =? 2)
    then Some {| row := (row from + row to) / 2; col := col from |} else None)
    by by rewrite Hs'.
  unfold pseudoReaches in Hreach. split.
  - intros [Hpawn ->]. rewrite Hpawn in Hreach.
    assert (Hdir : pawnDir (color p) = -1 ∨ pawnDir (color p) = 1)
      by (unfold pawnDir; destruct (color p); lia).
    set (one := pushSquare (color p) from) in *.
    assert (Hrow1 : row one = row from + pawnDir (color p))
      by (unfold one, pushSquare, pawnDir; by destruct (color p)).
    assert (Hone : validPos one ∧ emptySquare (board s) one = true).
    { destruct Hreach as [(Heq & _) | [(_ & _ & ? & ? & _) | [(Hin & _) | (_ & Hin)]]].
      - exfalso. apply (f_equal row) in Heq. fold one in Heq.
        unfold doublePushSquare in Heq. cbn [row] in Heq. lia.
      - done.
      - exfalso. apply captureSquares_row in Hin. unfold doublePushSquare in Hin.
        cbn [row] in Hin. lia.
      - exfalso. apply captureSquares_row in Hin. unfold doublePushSquare in Hin.
        cbn [row] in Hin. lia. }
    destruct Hone as [Hv1 He1]. split.
    + rewrite Hep'. unfold typeEq. rewrite Hpawn. unfold doublePushSquare. simpl.
      replace (Z.abs (row from + 2 * pawnDir (color p) - row from) =? 2) with true
        by (symmetry; apply Z.eqb_eq; lia).
      simpl. f_equal. unfold one, pushSquare. fold (pawnDir (color p)). f_equal.
      replace (row from + (row from + 2 * pawnDir (color p)))
        with ((row from + pawnDir (color p)) * 2) by lia.
      by apply Z.div_mul.
    + rewrite (Hread one Hv1).
      assert (one ≠ doublePushSquare (color p) from).
      { intros Heq%(f_equal row). unfold doublePushSquare in Heq. cbn [row] in Heq. lia. }
      assert (one ≠ from) by (intros Heq%(f_equal row); lia).
      rewrite (bool_decide_eq_false_2 (one = doublePushSquare (color p) from)),
        (bool_decide_eq_false_2 (one = from)) by done.
      rewrite andb_false_r.
      assert (isCastlingMove p from (doublePushSquare (color p) from) = false) as ->
        by (unfold isCastlingMove, typeEq; by rewrite Hpawn).
      simpl. match goal with |- (if ?c then _ else _) = _ => destruct c end;
        [reflexivity | by apply emptySquare_Null].
  - intros Hnot. rewrite Hep'. unfold typeEq.
    destruct (decide (type p = pawn)) as [Hpawn | Hother].
    + rewrite Hpawn in Hreach. rewrite Hpawn. simpl.
      destruct (pawnReaches_forward _ _ _ _ _ Hreach) as [Hr | (_ & Heq & _)].
      * replace (Z.abs (row to - row from) =? 2) with false; [done|].
        symmetry. apply Z.eqb_neq. unfold pawnDir in Hr. destruct (color p); lia.
      * tauto.
    + by rewrite bool_decide_eq_false_2.
Qed.

Lemma en_passant_target_after_move_witness :
  ∃ h' s', makeMove 0 start.1 start.2 (sq 6 4) (sq 4 4) = Ok (h', Some s') ∧
    enPassantTarget s' = Some (sq 5 4) ∧ at_ (board s') (sq 5 4) = Ok Null.
Proof.
  do 2 eexists.
  match goal with |- ?A ∧ _ => assert (Hm : A) by (vm_compute; reflexivity) end.
  split; [exact Hm|].
  destruct (en_passant_target_after_move _ _ _ _ _ _ _ {| type := pawn; color := white |}
              start_wf Hm) as [Hset _]; [reflexivity|].
  apply Hset. split; reflexivity.
Defined.

Lemma blackPlies_succ c n :
  blackPlies c (S n)
  = match c with black => 1 | white => 0 end + blackPlies (opponent c) n.
Proof.
  unfold blackPlies. destruct c; simpl opponent.
  - replace (Z.of_nat (S n) + 0) with (Z.of_nat n + 1) by lia. lia.
  - replace (Z.of_nat (S n) + 1) with (Z.of_nat n + 0 + 1 * 2) by lia.
    rewrite Z.div_add by lia. lia.
Qed.

(** X21.  Playing a list of moves that are all accepted appends one
    record per move to the history, in order and with the move's origin
    and destination; the side to move alternates; and the full-move
    number grows by the number of black's moves among them, as long as it
    stays within the integers the source's numbers hold exactly. *)
Theorem play_bookkeeping now moves : ∀ h s h' s',
  Z.abs (fullMoveNumber s) + Z.of_nat (length moves) ≤ maxSafeInteger →
  play now h s moves = Ok (Some (h', s')) →
  (∃ recs, moveHistory s' = moveHistory s ++ recs ∧ endpoints <$> recs = moves) ∧
  currentPlayer s' = Nat.iter (length moves) opponent (currentPlayer s) ∧
  fullMoveNumber s' = fullMoveNumber s + blackPlies (currentPlayer s) (length moves).
Proof.
  induction moves as [|[f t] moves IH]; intros h s h' s' Hsafe H; simpl in H.
  - injection H as _ <-. split; [exists []; by rewrite app_nil_r|].
    split; [done|].
    cbn [length].
    assert (blackPlies (currentPlayer s) 0 = 0) as -> by (by destruct (currentPlayer s)).
    lia.
  - apply bind_Ok_inv in H as ([h1 [s1|]] & Hm & H); [|discriminate].
    destruct (makeMove_accepted_shape _ _ _ _ _ _ _ Hm)
      as (p & ms & cap & nb & st & _ & _ & _ & _ & _ & _ & _ & _ & Hs1).
    assert (Hsafe1 : Z.abs (fullMoveNumber s1) + Z.of_nat (length moves) ≤ maxSafeInteger).
    { rewrite Hs1. cbn [fullMoveNumber nextState]. cbn [length] in Hsafe.
      destruct (currentPlayer s); lia. }
    destruct (IH h1 s1 h' s' Hsafe1 H) as ((recs & Hhist & Hends) & Hplayer & Hfull).
    rewrite Hs1 in Hhist, Hplayer, Hfull. simpl in Hhist, Hplayer, Hfull.
    split; [|split].
    + exists (moveRecord now s p cap f t :: recs). split.
      * by rewrite Hhist, <- app_assoc.
      * rewrite fmap_cons. by rewrite Hends.
    + cbn [length]. by rewrite Nat.iter_succ_r.
    + cbn [length]. rewrite blackPlies_succ, Hfull. destruct (currentPlayer s); lia.
Qed.

Lemma play_bookkeeping_witness :
  ∃ h' s', play 0 start.1 start.2 shuffleGame = Ok (Some (h', s')) ∧
    length (moveHistory s') = 52%nat ∧ currentPlayer s' = white ∧
    fullMoveNumber s' = 27.
Proof.
  assert (Hsafe : Z.abs (fullMoveNumber start.2) + Z.of_nat (length shuffleGame)
                  ≤ maxSafeInteger) by (vm_compute; discriminate).
  do 2 eexists.
  match goal with |- ?A ∧ _ => assert (Hm : A) by (vm_compute; reflexivity) end.
  split; [exact Hm|].
  destruct (play_bookkeeping 0 shuffleGame _ _ _ _ Hsafe Hm)
    as ((recs & Hhist & Hends) & Hp & Hf).
  split; [|split].
  - rewrite Hhist. simpl. rewrite <- (length_fmap endpoints), Hends. reflexivity.
  - rewrite Hp. reflexivity.
  - rewrite Hf. reflexivity.
Defined.

(** * Path clearance *)

Lemma div_abs_sgn x : (if x =? 0 then 0 else x / Z.abs x) = Z.sgn x.
Proof.
  destruct (Z.eqb_spec x 0) as [-> | Hx]; [done|].
  destruct (Z.lt_trichotomy x 0) as [Hneg | [-> | Hpos]]; [| done |].
  - rewrite Z.abs_neq, Z.sgn_neg by lia.
    replace x with (-1 * - x) at 1 by lia. apply Z.div_mul. lia.
  - rewrite Z.abs_eq, Z.sgn_pos by lia. apply Z.div_same. lia.
Qed.

Lemma isPathClear_unfold b from to :
  isPathClear b from to
  = isPathClearLoop 9 b to (towards from to).1 (towards from to).2
      (row (shift from 1 (towards from to))) (col (shift from 1 (towards from to))).
Proof.
  unfold isPathClear, towards, shift. cbv zeta. simpl.
  rewrite !div_abs_sgn. by rewrite !Z.mul_1_l.
Qed.

(** A walk along a line: [to] is [distance] steps from [from]. *)
Lemma onLine_shift from to :
  onLine from to → to = shift from (distance from to) (towards from to).
Proof.
  unfold onLine, distance, towards, shift. destruct from as [r c], to as [r' c'].
  simpl. intros H. f_equal.
  - destruct (Z.lt_trichotomy (r' - r) 0) as [? | [? | ?]];
      [rewrite Z.sgn_neg by lia | replace (r' - r) with 0 by lia; simpl
       | rewrite Z.sgn_pos by lia]; lia.
  - destruct (Z.lt_trichotomy (c' - c) 0) as [? | [? | ?]];
      [rewrite Z.sgn_neg by lia | replace (c' - c) with 0 by lia; simpl
       | rewrite Z.sgn_pos by lia]; lia.
Qed.

Lemma shift_between_valid from to k :
  validPos from → validPos to → onLine from to → 0 ≤ k ≤ distance from to →
  validPos (shift from k (towards from to)).
Proof.
  intros [? ?]%validPos_bounds [? ?]%validPos_bounds Hline Hk.
  apply validPos_bounds. unfold onLine, distance, towards, shift in *.
  destruct from as [r c], to as [r' c']. simpl in *.
  destruct (Z.lt_trichotomy (r' - r) 0) as [? | [? | ?]];
    [rewrite (Z.sgn_neg (r' - r)) by lia | replace (r' - r) with 0 in * by lia; simpl
     | rewrite (Z.sgn_pos (r' - r)) by lia];
    (destruct (Z.lt_trichotomy (c' - c) 0) as [? | [? | ?]];
     [rewrite (Z.sgn_neg (c' - c)) by lia | replace (c' - c) with 0 in * by lia; simpl
      | rewrite (Z.sgn_pos (c' - c)) by lia]); lia.
Qed.

Lemma shift_reaches from to k :
  onLine from to → 0 ≤ k ≤ distance from to →
  shift from k (towards from to) = to ↔ k = distance from to.
Proof.
  intros Hline Hk. split; [|intros ->; symmetry; by apply onLine_shift].
  intros Heq. pose proof (eq_trans Heq (onLine_shift from to Hline)) as Heq2.
  clear Heq. unfold shift in Heq2. injection Heq2 as Hr Hc.
  unfold onLine, distance, towards in *. destruct from as [r c], to as [r' c'].
  simpl in *.
  destruct (Z.lt_trichotomy (r' - r) 0) as [? | [? | ?]];
    [rewrite (Z.sgn_neg (r' - r)) in * by lia | | rewrite (Z.sgn_pos (r' - r)) in * by lia];
    try lia.
  all: destruct (Z.lt_trichotomy (c' - c) 0) as [? | [? | ?]];
    [rewrite (Z.sgn_neg (c' - c)) in * by lia | | rewrite (Z.sgn_pos (c' - c)) in * by lia];
    lia.
Qed.

Lemma shift_at_distance_zero from to k :
  distance from to = 0 → shift from k (towards from to) = to.
Proof.
  unfold distance, towards, shift. destruct from as [r c], to as [r' c']. simpl.
  intros H. replace (r' - r) with 0 by lia. replace (c' - c) with 0 by lia.
  simpl. f_equal; lia.
Qed.

Lemma isPathClearLoop_line b from to : ∀ fuel k,
  wfBoard b → validPos from → validPos to → onLine from to →
  1 ≤ k ≤ distance from to ∨ (k = 1 ∧ distance from to = 0) →
  (Z.to_nat (distance from to - k) ≤ fuel)%nat →
  ∃ r, isPathClearLoop fuel b to (towards from to).1 (towards from to).2
         (row (shift from k (towards from to))) (col (shift from k (towards from to)))
       = Ok (Some r) ∧
    (r = true ↔
     ∀ j, k ≤ j < distance from to → emptySquare b (shift from j (towards from to)) = true).
Proof.
  intros fuel k Hb Hfrom Hto Hline. revert k.
  induction fuel as [|fuel IH]; intros k Hk Hfuel.
  - assert (Hat : shift from k (towards from to) = to).
    { destruct Hk as [Hk | [-> H0]].
      - apply shift_reaches; [done | lia | lia].
      - by apply shift_at_distance_zero. }
    cbn [isPathClearLoop]. rewrite Hat, !Z.eqb_refl. simpl. exists true. split; [done|].
    split; [|done]. intros _ j Hj. destruct Hk as [Hk | [-> H0]]; lia.
  - cbn [isPathClearLoop].
    destruct ((row (shift from k (towards from to)) =? row to)
              && (col (shift from k (towards from to)) =? col to)) eqn:Hhere.
    + simpl. exists true. split; [done|]. split; [|done]. intros _ j Hj.
      apply andb_true_iff in Hhere as [Hr%Z.eqb_eq Hc%Z.eqb_eq].
      assert (Hat : shift from k (towards from to) = to).
      { destruct (shift from k (towards from to)), to. simpl in *. by subst. }
      destruct Hk as [Hk | [-> H0]]; [|lia].
      apply shift_reaches in Hat; [lia | done | lia].
    + cbn [negb].
      assert (Hlt : 1 ≤ k < distance from to).
      { destruct Hk as [Hk | [-> H0]].
        - destruct (decide (k = distance from to)) as [-> | ?]; [|lia].
          rewrite <- (onLine_shift from to Hline), !Z.eqb_refl in Hhere. done.
        - exfalso. rewrite (shift_at_distance_zero from to 1 H0), !Z.eqb_refl in Hhere.
          done. }
      pose proof (shift_between_valid from to k Hfrom Hto Hline ltac:(lia)) as Hv.
      destruct (at_wf b _ Hb Hv) as (s & Hs & _).
      pose proof (emptySquare_isNull b _ s Hs) as He.
      unfold at_ in Hs. rewrite Hs. cbn [bindExc].
      destruct (isNull s); cbn [negb].
      * destruct (IH (k + 1)) as (r & Hr & Hspec); [left; lia | lia |].
        exists r. split.
        -- rewrite <- Hr. unfold shift. cbn [row col]. f_equal; lia.
        -- rewrite Hspec. split.
           ++ intros Hall j Hj. destruct (decide (j = k)) as [-> | ?]; [done|].
              apply Hall. lia.
           ++ intros Hall j Hj. apply Hall. lia.
      * exists false. split; [done|]. split; [done|]. intros Hall.
        specialize (Hall k ltac:(lia)). congruence.
Qed.

Lemma readCell_Null_range b r c :
  wfBoard b → readCell b r c = Ok Null → 0 ≤ r < 8 ∧ 0 ≤ c < 8.
Proof.
  intros Hb H. unfold readCell, index in H.
  destruct (decide (0 ≤ r)); [|discriminate].
  destruct (b !! Z.to_nat r) as [cells|] eqn:Hr; [|discriminate].
  pose proof (lookup_lt_Some _ _ _ Hr) as Hlt. rewrite (wfBoard_length b Hb) in Hlt.
  destruct (wfBoard_row b _ cells Hb Hr) as [Hlen _].
  destruct (decide (0 ≤ c)); [|discriminate].
  destruct (cells !! Z.to_nat c) as [x|] eqn:Hc; [|discriminate].
  pose proof (lookup_lt_Some _ _ _ Hc) as Hlt'. rewrite Hlen in Hlt'. lia.
Qed.

(** The number of squares left on the board in front of a walk that
    stands on row [r], column [c] and advances by [rs], [cs]. *)
Lemma isPathClearLoop_fuel b to rs cs :
  wfBoard b →
  rs = 1 ∨ rs = -1 ∨ (rs = 0 ∧ (cs = 1 ∨ cs = -1)) →
  ∀ fuel r c,
    (1 ≤ fuel)%nat →
    (0 ≤ r < 8 → 0 ≤ c < 8 →
     (if rs =? 1 then 8 - r else if rs =? -1 then r + 1
      else if cs =? 1 then 8 - c else c + 1) < Z.of_nat fuel) →
    isPathClearLoop fuel b to rs cs r c ≠ Ok None.
Proof.
  intros Hb Hstep fuel. induction fuel as [|fuel IH]; intros r c Hpos Hm; [lia|].
  cbn [isPathClearLoop].
  destruct (negb ((r =? row to) && (c =? col to))); [|discriminate].
  destruct (readCell b r c) as [s|] eqn:Hs; [|discriminate]. cbn [bindExc].
  destruct s; cbn [isNull negb]; try discriminate.
  destruct (readCell_Null_range b r c Hb Hs) as [Hr Hc].
  specialize (Hm Hr Hc).
  apply IH.
  - destruct Hstep as [-> | [-> | [-> [-> | ->]]]]; simpl in Hm; lia.
  - intros Hr' Hc'.
    destruct Hstep as [-> | [-> | [-> [-> | ->]]]]; simpl in Hm |- *; lia.
Qed.

Lemma isPathClearLoop_true b to rs cs : ∀ fuel r c,
  isPathClearLoop fuel b to rs cs r c = Ok (Some true) →
  ∃ j, 0 ≤ j ∧ row to = r + j * rs ∧ col to = c + j * cs.
Proof.
  induction fuel as [|fuel IH]; intros r c H; cbn [isPathClearLoop] in H.
  - destruct ((r =? row to) && (c =? col to)) eqn:Hhere; [|discriminate].
    apply andb_true_iff in Hhere as [?%Z.eqb_eq ?%Z.eqb_eq]. exists 0. lia.
  - destruct ((r =? row to) && (c =? col to)) eqn:Hhere.
    + apply andb_true_iff in Hhere as [?%Z.eqb_eq ?%Z.eqb_eq]. exists 0. lia.
    + cbn [negb] in H. apply bind_Ok_inv in H as (s & _ & H).
      destruct (isNull s); cbn [negb] in H; [|discriminate].
      destruct (IH _ _ H) as (j & Hj & Hr & Hc). exists (j + 1). lia.
Qed.

Lemma isPathClear_true_onLine b from to :
  isPathClear b from to = Ok (Some true) → onLine from to.
Proof.
  rewrite isPathClear_unfold. intros (j & Hj & Hr & Hc)%isPathClearLoop_true.
  unfold onLine, towards, shift in *. cbn [row col fst snd] in *.
  destruct (Z.lt_trichotomy (row to - row from) 0) as [? | [? | ?]];
    [rewrite (Z.sgn_neg (row to - row from)) in * by lia | lia
     | rewrite (Z.sgn_pos (row to - row from)) in * by lia];
    (destruct (Z.lt_trichotomy (col to - col from) 0) as [? | [? | ?]];
     [rewrite (Z.sgn_neg (col to - col from)) in * by lia | lia
      | rewrite (Z.sgn_pos (col to - col from)) in * by lia]); lia.
Qed.

Lemma isPathClear_not_exhausted b from to :
  wfBoard b → isPathClear b from to ≠ Ok None.
Proof.
  intros Hb. rewrite isPathClear_unfold.
  destruct (decide (towards from to = (0, 0))) as [Hz | Hnz].
  - rewrite Hz. unfold towards in Hz. injection Hz as Hr Hc.
    apply Z.sgn_null_iff in Hr, Hc. unfold shift. cbn [row col fst snd isPathClearLoop].
    replace (row from + 1 * 0) with (row to) by lia.
    replace (col from + 1 * 0) with (col to) by lia.
    by rewrite !Z.eqb_refl.
  - apply isPathClearLoop_fuel; [done | | lia |].
    + unfold towards in *. cbn [fst snd].
      destruct (Z.sgn_spec (row to - row from)) as [[_ ->] | [[_ Hr] | [_ ->]]];
        [by left | | by (right; left)].
      rewrite Hr in *. right. right. split; [done|].
      destruct (Z.sgn_spec (col to - col from)) as [[_ ->] | [[_ Hc] | [_ ->]]];
        [by left | | by right].
      by rewrite Hc in Hnz.
    + intros Hr Hc. unfold shift in *. cbn [row col] in *.
      destruct (towards from to) as [rs cs]. cbn [fst snd] in *.
      destruct (Z.eqb_spec rs 1); [lia|]. destruct (Z.eqb_spec rs (-1)); [lia|].
      destruct (Z.eqb_spec cs 1); lia.
Qed.

Lemma towards_shift from k d :
  d ∈ rookDirections ++ bishopDirections → 1 ≤ k →
  onLine from (shift from k d) ∧ towards from (shift from k d) = d ∧
  distance from (shift from k d) = k.
Proof.
  intros Hd Hk. unfold onLine, towards, distance, shift. cbn [row col].
  apply list_elem_of_In in Hd. simpl in Hd.
  repeat (destruct Hd as [<- | Hd]; [cbn [fst snd]; split; [lia|]; split; [f_equal|]; lia|]).
  destruct Hd.
Qed.

Lemma isPathClear_line b from to :
  wfBoard b → validPos from → validPos to → onLine from to →
  ∃ r, isPathClear b from to = Ok (Some r) ∧
    (r = true ↔
     ∀ j, 1 ≤ j < distance from to →
       emptySquare b (shift from j (towards from to)) = true).
Proof.
  intros Hb Hfrom Hto Hline. rewrite isPathClear_unfold.
  apply isPathClearLoop_line; try done.
  - unfold distance. lia.
  - apply validPos_bounds in Hfrom, Hto. unfold distance. lia.
Qed.

(** X22.  On a board of 8x8 squares and for two squares of the board on a
    common row, column or diagonal, [isPathClear] returns, and returns
    [true] exactly when every square strictly between the two is empty.
    The end squares themselves are not looked at. *)
Theorem isPathClear_on_line b from to :
  wfBoard b → validPos from → validPos to → onLine from to →
  ∃ r, isPathClear b from to = Ok (Some r) ∧
    (r = true ↔
     ∀ j, 1 ≤ j < distance from to →
       emptySquare b (shift from j (towards from to)) = true).
Proof. apply isPathClear_line. Qed.

Lemma isPathClear_on_line_witness :
  ∃ r, isPathClear start.2.(board) (sq 7 0) (sq 3 0) = Ok (Some r) ∧
    (r = true ↔
     ∀ j, 1 ≤ j < 4 → emptySquare start.2.(board) (shift (sq 7 0) j (-1, 0)) = true).
Proof.
  apply (isPathClear_on_line start.2.(board) (sq 7 0) (sq 3 0));
    [exact (proj1 start_wf) | reflexivity | reflexivity | unfold onLine; right; left; reflexivity].
Defined.

(** X23.  The [while] loop of [isPathClear] has no bound of its own; on a
    board of 8x8 squares it nevertheless ends within nine rounds whatever
    the two positions are, on the board or not: the walk reaches [to],
    meets a square that is not [null], or leaves the rows of the board,
    where the read throws. *)
Theorem isPathClear_finishes b from to :
  wfBoard b →
  isPathClear b from to = Throw ∨ ∃ r, isPathClear b from to = Ok (Some r).
Proof.
  intros Hb. pose proof (isPathClear_not_exhausted b from to Hb) as Hne.
  destruct (isPathClear b from to) as [[r|]|]; [right; by exists r | done | by left].
Qed.

Lemma isPathClear_finishes_witness :
  isPathClear start.2.(board) (sq 5 0) (sq 9 1) = Throw ∨
  ∃ r, isPathClear start.2.(board) (sq 5 0) (sq 9 1) = Ok (Some r).
Proof. apply isPathClear_finishes. exact (proj1 start_wf). Defined.

(** X24.  For two positions that are not on a common row, column or
    diagonal, with coordinates the source's numbers hold exactly,
    [isPathClear] never answers [true]: the diagonal walk it takes misses
    [to], so it ends with [false] at the first square that is not [null]
    (a column off the board reads [undefined]) or with a TypeError once it
    leaves the rows of the board. *)
Theorem isPathClear_off_line b from to :
  wfBoard b → safePos from → safePos to → ¬ onLine from to →
  isPathClear b from to = Ok (Some false) ∨ isPathClear b from to = Throw.
Proof.
  intros Hb _ _ Hoff. pose proof (isPathClear_not_exhausted b from to Hb) as Hne.
  pose proof (isPathClear_true_onLine b from to) as Htrue.
  destruct (isPathClear b from to) as [[[|]|]|]; [tauto | by left | done | by right].
Qed.

Lemma isPathClear_off_line_witness :
  (isPathClear start.2.(board) (sq 5 0) (sq 3 1) = Ok (Some false) ∨
   isPathClear start.2.(board) (sq 5 0) (sq 3 1) = Throw) ∧
  (isPathClear start.2.(board) (sq 5 0) (sq (-3) 9) = Ok (Some false) ∨
   isPathClear start.2.(board) (sq 5 0) (sq (-3) 9) = Throw).
Proof.
  split.
  - apply isPathClear_off_line; [exact (proj1 start_wf) | | |].
    + split; vm_compute; discriminate.
    + split; vm_compute; discriminate.
    + unfold onLine. vm_compute. intros [H | [H | H]]; discriminate H.
  - apply isPathClear_off_line; [exact (proj1 start_wf) | | |].
    + split; vm_compute; discriminate.
    + split; vm_compute; discriminate.
    + unfold onLine. vm_compute. intros [H | [H | H]]; discriminate H.
Defined.

(** X25.  Every square the rook, bishop and queen generators return is
    one [isPathClear] accepts: the generator's own stepping and the
    separate path test agree. *)
Theorem sliding_moves_have_clear_path b from c ms t :
  wfBoard b → validPos from →
  getQueenMoves b from c = Ok ms ∨ getRookMoves b from c = Ok ms ∨
  getBishopMoves b from c = Ok ms →
  t ∈ ms → isPathClear b from t = Ok (Some true).
Proof.
  intros Hb Hfrom Hms Ht.
  assert (∃ d, d ∈ rookDirections ++ bishopDirections ∧ slidesTo b from c d t)
    as (d & Hd & k & Hk & -> & Hv & _ & Hbetween).
  { destruct Hms as [H | [H | H]].
    - by apply (getQueenMoves_elem b from c ms Hb H).
    - destruct (proj1 (slideAll_elem b from c _ ms Hb H t) Ht) as (d & Hd & Hs).
      exists d. split; [apply elem_of_app; by left | done].
    - destruct (proj1 (slideAll_elem b from c _ ms Hb H t) Ht) as (d & Hd & Hs).
      exists d. split; [apply elem_of_app; by right | done]. }
  destruct (towards_shift from k d Hd ltac:(lia)) as (Hline & Htow & Hdist).
  destruct (isPathClear_line b from (shift from k d) Hb Hfrom Hv Hline)
    as (r & Hr & Hspec).
  rewrite Hr. do 2 f_equal. apply Hspec. rewrite Htow, Hdist.
  intros j Hj. by apply Hbetween.
Qed.

Lemma sliding_moves_have_clear_path_witness :
  isPathClear (stateAfter openGame).2.(board) (sq 7 5) (sq 4 2) = Ok (Some true).
Proof.
  destruct (returns_inv _ _ (slideAll_returns (stateAfter openGame).2.(board) (sq 7 5) white
              bishopDirections (proj1 (stateAfter_wf openGame)))) as (ms & Hms & _).
  apply (sliding_moves_have_clear_path _ (sq 7 5) white ms (sq 4 2)
           (proj1 (stateAfter_wf openGame)) eq_refl (or_intror (or_intror Hms))).
  assert (Hlist : Ok ms = Ok [sq 6 4; sq 5 3; sq 4 2; sq 3 1; sq 2 0])
    by (rewrite <- Hms; vm_compute; reflexivity).
  injection Hlist as ->. in_list.
Defined.

(** * The click handler *)

Lemma select_highlights gs p piece :
  wfState gs → validPos p → at_ (board gs) p = Ok piece → ownPiece piece gs = true →
  ∃ ms, getPossibleMoves (board gs) p gs = Ok ms ∧
    highlightsLegal {| gameState := gs; selectedSquare := Some p; validMoves := ms |}.
Proof.
  intros [Hb Hep] Hp Hat Hown.
  destruct (returns_inv _ _ (getPossibleMoves_returns (board gs) p gs Hb Hp Hep))
    as (ms & Hms & _).
  exists ms. split; [done|]. unfold highlightsLegal. cbn [selectedSquare gameState validMoves].
  split; [done|]. split; [|done].
  destruct piece as [| | |q]; try discriminate. exists q. split; [done|].
  by apply bool_decide_eq_true in Hown.
Qed.

Lemma deselected_highlights gs : highlightsLegal (deselected gs).
Proof. done. Qed.

Lemma click_cases now h ui p :
  wfState (gameState ui) → highlightsLegal ui → validPos p →
  ∃ h' ui', handleSquareClick now h ui p = Ok (h', ui') ∧
    wfState (gameState ui') ∧ highlightsLegal ui' ∧
    (isGameOver (status (gameState ui)) = true → h' = h ∧ ui' = ui) ∧
    (isGameOver (status (gameState ui)) = false → p ∈ validMoves ui →
       ∃ q, selectedSquare ui = Some q ∧
         makeMove now h (gameState ui) q p = Ok (h', Some (gameState ui')) ∧
         selectedSquare ui' = None) ∧
    (p ∉ validMoves ui → h' = h ∧ gameState ui' = gameState ui).
Proof.
  intros Hs Hinv Hp. unfold handleSquareClick. cbv zeta.
  destruct (isGameOver (status (gameState ui))) eqn:Hover.
  { exists h, ui. split; [done|]. split; [exact Hs|]. split; [exact Hinv|].
    split; [done|]. split; [discriminate | done]. }
  destruct Hs as [Hb Hep].
  destruct (at_wf (board (gameState ui)) p Hb Hp) as (piece & Hat & _).
  unfold highlightsLegal in Hinv.
  destruct (selectedSquare ui) as [q|] eqn:Hsel.
  - destruct Hinv as (Hq & (pc0 & Hatq & Hcol) & Hms).
    destruct (positionsEqual q p) eqn:Heq.
    + apply positionsEqual_eq in Heq as ->.
      exists h, (deselected (gameState ui)).
      split; [done|]. split; [done|]. split; [apply deselected_highlights|].
      split; [done|]. split; [|done].
      intros _ Hin. exfalso.
      destruct (proj1 (getPossibleMoves_elem _ _ _ _ _ Hb Hatq Hms p) Hin) as [Hreach _].
      by apply pseudoReaches_ne in Hreach.
    + destruct (decide (p ∈ validMoves ui)) as [Hin | Hout].
      * destruct (returns_inv _ _
          (makeMove_accepts now h (gameState ui) q p pc0 (validMoves ui)
             (conj Hb Hep) Hq Hatq Hcol Hms Hin)) as ([h' r] & E & s' & Hr & Hs').
        cbn [snd] in Hr. subst r. rewrite E. cbn [bindExc].
        exists h', (deselected s'). split; [done|]. split; [done|].
        split; [apply deselected_highlights|]. split; [done|].
        split; [|done]. intros _ _. by exists q.
      * rewrite (makeMove_rejects_illegal now h (gameState ui) q p (validMoves ui) Hms Hout).
        cbn [bindExc]. rewrite Hat. cbn [bindExc].
        destruct (ownPiece piece (gameState ui)) eqn:Hown.
        -- destruct (select_highlights (gameState ui) p piece (conj Hb Hep) Hp Hat Hown)
             as (ms & -> & Hhl).
           cbn [bindExc]. eexists h, _. split; [done|].
           split; [done|]. split; [exact Hhl|]. repeat split; done.
        -- exists h, (deselected (gameState ui)). split; [done|]. split; [done|].
           split; [apply deselected_highlights|]. repeat split; done.
  - rewrite Hat. cbn [bindExc]. rewrite Hinv.
    destruct (ownPiece piece (gameState ui)) eqn:Hown.
    + destruct (select_highlights (gameState ui) p piece (conj Hb Hep) Hp Hat Hown)
        as (ms & -> & Hhl).
      cbn [bindExc]. eexists h, _. split; [done|].
      split; [done|]. split; [exact Hhl|]. split; [done|].
      split; [by intros _ ?%elem_of_nil | done].
    + exists h, ui. split; [done|]. split; [done|].
      split; [unfold highlightsLegal; by rewrite Hsel|]. split; [done|].
      split; [by intros _ ?%elem_of_nil | done].
Qed.

(** X26.  Whatever squares of the board are clicked, in whatever order,
    the click handler does not throw and what the board shows stays
    consistent: the game state is one of the data model, and the
    highlighted squares are exactly the legal moves of the selected piece
    in the current position (none when nothing is selected). *)
Theorem clicks_keep_highlights_legal now clicks : ∀ h ui,
  wfState (gameState ui) → highlightsLegal ui → Forall validPos clicks →
  ∃ h' ui', clickAll now h ui clicks = Ok (h', ui') ∧
    wfState (gameState ui') ∧ highlightsLegal ui'.
Proof.
  induction clicks as [|p clicks IH]; intros h ui Hs Hinv Hclicks.
  - by exists h, ui.
  - apply Forall_cons in Hclicks as [Hp Hclicks].
    destruct (click_cases now h ui p Hs Hinv Hp) as (h1 & ui1 & E & Hs1 & Hinv1 & _).
    cbn [clickAll]. rewrite E. cbn [bindExc fst snd]. by apply IH.
Qed.

Lemma clicks_keep_highlights_legal_witness :
  ∃ h' ui', clickAll 0 start.1 (deselected start.2) [sq 6 4; sq 4 4; sq 1 4] = Ok (h', ui') ∧
    wfState (gameState ui') ∧ highlightsLegal ui'.
Proof.
  apply (clicks_keep_highlights_legal 0 [sq 6 4; sq 4 4; sq 1 4] start.1 (deselected start.2)).
  - exact start_wf.
  - reflexivity.
  - repeat constructor.
Defined.

(** X27.  A click changes the position exactly when the game is not over
    and the clicked square is highlighted: the new game state is then the
    one [makeMove] returns for the selected and the clicked square, and
    the selection is cleared.  Any other click leaves the game state and
    the captured-piece arrays as they are, and once the status is
    checkmate, stalemate or draw a click changes nothing at all. *)
Theorem click_moves_iff_highlighted now h ui p :
  wfState (gameState ui) → highlightsLegal ui → validPos p →
  ∃ h' ui', handleSquareClick now h ui p = Ok (h', ui') ∧
    (isGameOver (status (gameState ui)) = false ∧ p ∈ validMoves ui →
       ∃ q, selectedSquare ui = Some q ∧
         makeMove now h (gameState ui) q p = Ok (h', Some (gameState ui')) ∧
         selectedSquare ui' = None ∧ validMoves ui' = []) ∧
    (¬ (isGameOver (status (gameState ui)) = false ∧ p ∈ validMoves ui) →
       h' = h ∧ gameState ui' = gameState ui) ∧
    (isGameOver (status (gameState ui)) = true → ui' = ui).
Proof.
  intros Hs Hinv Hp.
  destruct (click_cases now h ui p Hs Hinv Hp)
    as (h' & ui' & E & _ & Hinv' & Hover & Hmove & Hstay).
  exists h', ui'. split; [done|]. split; [|split].
  - intros [Hgo Hin]. destruct (Hmove Hgo Hin) as (q & Hq & Hm & Hnone).
    exists q. repeat split; try done.
    unfold highlightsLegal in Hinv'. by rewrite Hnone in Hinv'.
  - intros Hnot. destruct (isGameOver (status (gameState ui))) eqn:Hgo.
    + destruct (Hover eq_refl) as [-> ->]. done.
    + apply Hstay. intros Hin. by apply Hnot.
  - intros Hgo. by destruct (Hover Hgo) as [_ ->].
Qed.

Lemma click_moves_iff_highlighted_witness :
  ∃ h' ui',
    handleSquareClick 0 start.1
      {| gameState := start.2; selectedSquare := Some (sq 6 4);
         validMoves := [sq 5 4; sq 4 4] |} (sq 4 4) = Ok (h', ui') ∧
    makeMove 0 start.1 start.2 (sq 6 4) (sq 4 4) = Ok (h', Some (gameState ui')) ∧
    selectedSquare ui' = None.
Proof.
  destruct (click_moves_iff_highlighted 0 start.1
              {| gameState := start.2; selectedSquare := Some (sq 6 4);
                 validMoves := [sq 5 4; sq 4 4] |} (sq 4 4))
    as (h' & ui' & E & Hmove & _).
  - exact start_wf.
  - split; [reflexivity|]. split; [|vm_compute; reflexivity].
    eexists. split; reflexivity.
  - reflexivity.
  - exists h', ui'. split; [exact E|].
    destruct Hmove as (q & Hq & Hm & Hnone & _).
    + split; [reflexivity | in_list].
    + injection Hq as <-. split; [exact Hm | exact Hnone].
Defined.

(** * The mover's king after a move *)

(** X28.  An accepted move that is neither an en-passant capture, nor
    castling, nor a promotion leaves the king of the side that moved on
    the board and not attacked: the board the legal-move filter tried the
    move on is the board [makeMove] produces. *)
Theorem plain_move_leaves_king_safe now h s from to h' s' p :
  wfState s → makeMove now h s from to = Ok (h', Some s') →
  at_ (board s) from = Ok (Occ p) →
  isEnPassantMove s p to = false → isCastlingMove p from to = false →
  promotes p to = false →
  ∃ k, findKing (board s') (currentPlayer s) = Ok (Some k) ∧
    isSquareAttacked (board s') k (currentPlayer s') = Ok false ∧
    isInCheck (board s') (currentPlayer s) = Ok false.
Proof.
  intros Hs H Hat Hep Hcas Hpro.
  destruct (makeMove_accepted_facts now h s from to h' s' Hs H)
    as (p' & cap & nb & st & Hat' & Hcol & _ & _ & _ & _ & _ & Hw & _ & Hnb & _ & _ & ->).
  rewrite Hat in Hat'. injection Hat' as <-.
  unfold boardAfter in Hnb. cbv zeta in Hnb. rewrite Hep, Hcas in Hnb.
  cbn [bindExc] in Hnb. fold (promotes p to) in Hnb. rewrite Hpro in Hnb.
  unfold wouldBeInCheck in Hw. cbv zeta in Hw.
  rewrite (copyBoard_wf (board s) (proj1 Hs)) in Hw, Hnb.
  rewrite Hat in Hw. cbn [bindExc] in Hw.
  apply bind_Ok_inv in Hnb as (b1 & Hb1 & Hnb).
  apply bind_Ok_inv in Hnb as (b2 & Hb2 & Hnb). injection Hnb as <-.
  rewrite Hb1 in Hw. cbn [bindExc] in Hw. rewrite Hb2 in Hw. cbn [bindExc] in Hw.
  apply bind_Ok_inv in Hw as ([k|] & Hk & Hw); [|discriminate].
  rewrite Hcol in Hk, Hw. exists k. cbn [board currentPlayer nextState].
  split; [exact Hk|]. split; [exact Hw|].
  unfold isInCheck. rewrite Hk. exact Hw.
Qed.

Lemma plain_move_leaves_king_safe_witness :
  ∃ h' s', makeMove 0 start.1 checkAtFifty (sq 1 6) (sq 2 6) = Ok (h', Some s') ∧
    isInCheck (board checkAtFifty) black = Ok true ∧
    isInCheck (board s') black = Ok false.
Proof.
  assert (Hs : wfState checkAtFifty) by (split; [vm_compute; reflexivity | discriminate]).
  assert (Hat : at_ (board checkAtFifty) (sq 1 6)
                = Ok (Occ {| type := pawn; color := black |})) by (vm_compute; reflexivity).
  do 2 eexists.
  match goal with |- ?A ∧ _ => assert (Hm : A) by (vm_compute; reflexivity) end.
  split; [exact Hm|]. split; [vm_compute; reflexivity|].
  destruct (plain_move_leaves_king_safe 0 start.1 checkAtFifty (sq 1 6) (sq 2 6) _ _
              {| type := pawn; color := black |} Hs Hm Hat)
    as (k & _ & _ & Hsafe); [vm_compute; reflexivity ..|].
  exact Hsafe.
Defined.

(** * Reading a square's name *)

Lemma indexOf_files_char a :
  let n := indexOf files (JsString (String a EmptyString)) in
  (0 <=? n) && (n <? 8) = true →
  charAtIndex files n = JsString (String a EmptyString).
Proof.
  destruct a as [[] [] [] [] [] [] [] []]; vm_compute; intros H;
    first [reflexivity | discriminate H].
Qed.

Lemma indexOf_ranks_char a :
  let n := indexOf ranks (JsString (String a EmptyString)) in
  (0 <=? n) && (n <? 8) = true →
  charAtIndex ranks n = JsString (String a EmptyString).
Proof.
  destruct a as [[] [] [] [] [] [] [] []]; vm_compute; intros H;
    first [reflexivity | discriminate H].
Qed.

(** X29.  Whenever [algebraicToPosition] gives a square of the board, the
    text begins with the two characters [positionToAlgebraic] writes for
    that square; what follows them is ignored.  A text that is shorter
    than two characters, or does not begin with a file letter and a rank
    digit, gives a position off the board. *)
Theorem algebraic_parse_sound (text : string) :
  validPos (algebraicToPosition text) →
  ∃ name rest, positionToAlgebraic (algebraicToPosition text) = JsString name ∧
    String.length name = 2%nat ∧ text = name +:+ rest.
Proof.
  intros Hv. apply validPos_bounds in Hv as [Hr Hc].
  destruct text as [|a [|d rest]].
  - vm_compute in Hc. exfalso. by apply (proj1 Hc).
  - exfalso. revert Hr. unfold algebraicToPosition. cbn [row].
    replace (charAtIndex (String a EmptyString) 1) with JsUndefined by reflexivity.
    vm_compute. intros [H _]. by apply H.
  - unfold algebraicToPosition in *. cbn [row col] in *.
    replace (charAtIndex (String a (String d rest)) 0)
      with (JsString (String a EmptyString)) in * by reflexivity.
    replace (charAtIndex (String a (String d rest)) 1)
      with (JsString (String d EmptyString)) in * by reflexivity.
    exists (String a (String d EmptyString)), rest.
    split; [|split; reflexivity].
    unfold positionToAlgebraic. cbn [row col].
    rewrite indexOf_files_char, indexOf_ranks_char; [reflexivity | |].
    + apply andb_true_iff. split; [apply Z.leb_le | apply Z.ltb_lt]; lia.
    + apply andb_true_iff. split; [apply Z.leb_le | apply Z.ltb_lt]; lia.
Qed.

Lemma algebraic_parse_sound_witness :
  ∃ name rest, positionToAlgebraic (algebraicToPosition "e4 e.p.") = JsString name ∧
    String.length name = 2%nat ∧ "e4 e.p." = name +:+ rest.
Proof. apply algebraic_parse_sound. reflexivity. Defined.

(** * The king search *)

Section FirstMatch.
Context {A B : Type}.

Lemma forReturn_first (body : A → Exc (option B)) (l : list A) v :
  forReturn body l = Ok (Some v) →
  ∃ i x, l !! i = Some x ∧ body x = Ok (Some v) ∧
    ∀ j y, (j < i)%nat → l !! j = Some y → body y = Ok None.
Proof.
  induction l as [|x l IH]; simpl; [discriminate|]. intros H.
  apply bind_Ok_inv in H as ([w|] & Hx & H).
  - injection H as ->. exists 0%nat, x. repeat split; try done. lia.
  - destruct (IH H) as (i & y & Hi & Hy & Hbefore).
    exists (S i), y. repeat split; try done.
    intros [|j] z Hj Hz; simpl in Hz.
    + by injection Hz as <-.
    + apply (Hbefore j); [lia | done].
Qed.

Lemma forReturn_None (body : A → Exc (option B)) (l : list A) :
  forReturn body l = Ok None → ∀ y, y ∈ l → body y = Ok None.
Proof.
  induction l as [|x l IH]; simpl; intros H y Hy; [by apply elem_of_nil in Hy|].
  apply bind_Ok_inv in H as ([w|] & Hx & H); [discriminate|].
  apply elem_of_cons in Hy as [-> | Hy]; [done | by apply IH].
Qed.

End FirstMatch.

Lemma forReturn_rows8_first {B} (body : Z → Exc (option B)) v :
  forReturn body rows8 = Ok (Some v) →
  ∃ x, 0 ≤ x < 8 ∧ body x = Ok (Some v) ∧ ∀ y, 0 ≤ y < x → body y = Ok None.
Proof.
  intros (i & x & Hi & Hx & Hbefore)%forReturn_first.
  unfold rows8 in *. apply lookup_seqZ in Hi as [-> Hi].
  exists (0 + Z.of_nat i). split; [lia|]. split; [done|].
  intros y Hy. apply (Hbefore (Z.to_nat y)); [lia|].
  apply lookup_seqZ. lia.
Qed.

Lemma kingAt_Some b c r k v :
  kingAt b c r k = Ok (Some v) →
  v = {| row := r; col := k |} ∧ readCell b r k = Ok (kingOf c).
Proof.
  unfold kingAt. intros H. apply bind_Ok_inv in H as (s & Hs & H).
  destruct s as [| | |p]; try discriminate.
  destruct (typeEq (type p) king && colorEq (color p) c) eqn:E; [|discriminate].
  apply andb_true_iff in E as [Ht%bool_decide_eq_true Hc%bool_decide_eq_true].
  injection H as <-. split; [done|]. rewrite Hs. unfold kingOf.
  destruct p; simpl in *. by subst.
Qed.

Lemma kingAt_king b c r k :
  readCell b r k = Ok (kingOf c) → kingAt b c r k = Ok (Some {| row := r; col := k |}).
Proof.
  intros H. unfold kingAt. rewrite H. cbn [bindExc kingOf type color].
  unfold typeEq, colorEq. by rewrite !bool_decide_eq_true_2.
Qed.

(** X30.  On a board of 8x8 squares [findKing] returns without throwing.
    The square it gives holds the king of the colour asked for and is the
    first such square in the order the board is stored (rank 8 first,
    files a to h), which matters on a board with two kings of a colour;
    it gives [null] exactly when no square holds that king. *)
Theorem findKing_spec b c :
  wfBoard b →
  ∃ r, findKing b c = Ok r ∧
    match r with
    | Some k =>
        validPos k ∧ at_ b k = Ok (kingOf c) ∧
        ∀ t, validPos t → at_ b t = Ok (kingOf c) →
          row k < row t ∨ (row k = row t ∧ col k ≤ col t)
    | None => ∀ t, validPos t → at_ b t ≠ Ok (kingOf c)
    end.
Proof.
  intros Hb.
  destruct (returns_inv _ _ (findKing_returns b c Hb)) as (r & Hr & Hking).
  exists r. split; [done|]. destruct r as [k|].
  - destruct (Hking k eq_refl) as [Hv Hat]. split; [done|]. split; [done|].
    intros t [Htr Htc]%validPos_bounds Ht. unfold at_ in Ht.
    unfold findKing in Hr.
    apply forReturn_rows8_first in Hr as (x & Hx & Hrow & Hrows).
    apply forReturn_rows8_first in Hrow as (y & Hy & Hcell & Hcells).
    apply kingAt_Some in Hcell as [-> _]. cbn [row col].
    destruct (Z.lt_trichotomy (row t) x) as [Hlt | [Heq | Hgt]]; [| | lia].
    + exfalso. specialize (Hrows (row t) ltac:(lia)).
      assert (col t ∈ rows8) as Hin by (apply elem_of_seqZ; lia).
      pose proof (forReturn_None _ _ Hrows (col t) Hin) as Hnone. cbv beta in Hnone.
      rewrite (kingAt_king b c _ _ Ht) in Hnone. discriminate.
    + destruct (Z.lt_ge_cases (col t) y) as [Hlt | Hge]; [|lia].
      exfalso. specialize (Hcells (col t) ltac:(lia)). rewrite <- Heq in Hcells.
      rewrite (kingAt_king b c _ _ Ht) in Hcells. discriminate.
  - intros t [Htr Htc]%validPos_bounds Ht. unfold at_ in Ht.
    unfold findKing in Hr.
    assert (row t ∈ rows8) as Hin by (apply elem_of_seqZ; lia).
    pose proof (forReturn_None _ _ Hr (row t) Hin) as Hrow. cbv beta in Hrow.
    assert (col t ∈ rows8) as Hin' by (apply elem_of_seqZ; lia).
    pose proof (forReturn_None _ _ Hrow (col t) Hin') as Hcell. cbv beta in Hcell.
    rewrite (kingAt_king b c _ _ Ht) in Hcell. discriminate.
Qed.

Lemma findKing_spec_witness :
  ∃ r, findKing start.2.(board) white = Ok r ∧
    match r with
    | Some k =>
        validPos k ∧ at_ start.2.(board) k = Ok (kingOf white) ∧
        ∀ t, validPos t → at_ start.2.(board) t = Ok (kingOf white) →
          row k < row t ∨ (row k = row t ∧ col k ≤ col t)
    | None => ∀ t, validPos t → at_ start.2.(board) t ≠ Ok (kingOf white)
    end.
Proof. apply findKing_spec. exact (proj1 start_wf). Defined.

(** * Push squares, castling and king moves *)

Lemma castling_target_not_regular c o :
  o ∈ kingOffsets →
  sq (homeRow c) 6 ≠ shift (sq (homeRow c) 4) 1 o ∧
  sq (homeRow c) 2 ≠ shift (sq (homeRow c) 4) 1 o.
Proof.
  intros Ho. pose proof (kingOffsets_near (sq (homeRow c) 4) o Ho) as Hnear.
  split; intros Heq; rewrite <- Heq in Hnear; simpl in Hnear; lia.
Qed.

(** C9.  On an 8x8 board the empty square directly in front of a pawn of
    colour [c] (one row in its direction of travel, same column) counts
    as attacked by [c].  This restricts castling: when that square is the
    home square of the opposing king or a square the king crosses or lands
    on, castling on that side is not among the king's moves from its home
    square.  It does not restrict ordinary moves onto the square: once a
    piece stands there, the pawn's moves no longer contain it. *)
Theorem push_square_scan_and_castling b from c :
  wfBoard b → validPos from →
  at_ b from = Ok (pc pawn c) → validPos (pushSquare c from) →
  (at_ b (pushSquare c from) = Ok Null →
     isSquareAttacked b (pushSquare c from) c = Ok true ∧
     ∀ rights ms k,
       getKingMoves b (sq (homeRow (opponent c)) 4) (opponent c) rights = Ok ms →
       pushSquare c from = sq (homeRow (opponent c)) k →
       (k ∈ [4; 5; 6] → sq (homeRow (opponent c)) 6 ∉ ms) ∧
       (k ∈ [4; 3; 2] → sq (homeRow (opponent c)) 2 ∉ ms)) ∧
  (∀ q, at_ b (pushSquare c from) = Ok (Occ q) →
     ∃ ms, getPossibleMovesWithoutCheckValidation b from = Ok ms ∧
       pushSquare c from ∉ ms).
Proof.
  intros Hb Hfrom Hat Hv. split.
  - intros Hempty.
    assert (Hscan : isSquareAttacked b (pushSquare c from) c = Ok true).
    { destruct (returns_inv _ _ (getPawnMoves_returns b from c None Hb ltac:(done)))
        as (ms & Hms & _).
      eapply (isSquareAttacked_by b _ c from {| type := pawn; color := c |} ms);
        try done.
      - unfold getPossibleMovesWithoutCheckValidation. rewrite Hat. simpl. exact Hms.
      - by eapply getPawnMoves_push. }
    split; [exact Hscan|].
    intros rights ms k Hms Hk. rewrite Hk in Hscan.
    replace c with (opponent (opponent c)) in Hscan at 2 by (by destruct c).
    split; intros Hin Ht;
      apply (getKingMoves_elem b _ _ rights ms Hb Hms) in Ht
        as [(o & Ho & Ht & _) | (_ & [(Ht & _ & _ & Hpass) | (Ht & _ & _ & Hpass)])].
    + by apply (castling_target_not_regular (opponent c) o Ho) in Ht.
    + specialize (Hpass k Hin). congruence.
    + apply (f_equal col) in Ht. simpl in Ht. lia.
    + by apply (castling_target_not_regular (opponent c) o Ho) in Ht.
    + apply (f_equal col) in Ht. simpl in Ht. lia.
    + specialize (Hpass k Hin). congruence.
  - intros q Hq.
    destruct (returns_inv _ _
      (getPossibleMovesWithoutCheckValidation_returns b from Hb Hfrom)) as (ms & Hms & _).
    exists ms. split; [done|]. intros Hin.
    apply (getPossibleMovesWithoutCheckValidation_elem b from _ ms Hb Hat Hms) in Hin.
    unfold pseudoReaches in Hin. cbn [type color] in Hin.
    destruct Hin as [(_ & _ & He) | [(Heq & _) | [(Hin & _) | (Hin & _)]]].
    + unfold emptySquare in He. by rewrite Hq in He.
    + apply (f_equal row) in Heq. unfold pushSquare, doublePushSquare, pawnDir in Heq.
      cbn [row] in Heq. destruct c; lia.
    + unfold captureSquares in Hin.
      apply elem_of_cons in Hin as [Heq | Hin];
        [|apply elem_of_cons in Hin as [Heq | Hin]; [|by apply elem_of_nil in Hin]];
        apply (f_equal col) in Heq; unfold pushSquare in Heq; cbn [col] in Heq; lia.
    + discriminate.
Qed.

(** After 1.h4 g5 2.hxg5 Nf6 3.g6 Bh6 4.g7 the white pawn on g7 faces the
    empty g8: the scan counts g8 as attacked by white and black is not
    offered king-side castling, though f8 and g8 are empty and the right
    is set. *)
Lemma push_square_scan_and_castling_witness :
  isSquareAttacked (board (stateAfter pawnOnG7Game).2) (sq 0 6) white = Ok true ∧
  whiteKingSide (castlingRights (stateAfter pawnOnG7Game).2) = true ∧
  blackKingSide (castlingRights (stateAfter pawnOnG7Game).2) = true ∧
  ∃ ms, getKingMoves (board (stateAfter pawnOnG7Game).2) (sq 0 4) black
          (castlingRights (stateAfter pawnOnG7Game).2) = Ok ms ∧
    sq 0 5 ∈ ms ∧ sq 0 6 ∉ ms.
Proof.
  assert (Hb : wfBoard (board (stateAfter pawnOnG7Game).2))
    by exact (proj1 (stateAfter_wf pawnOnG7Game)).
  assert (Hat : at_ (board (stateAfter pawnOnG7Game).2) (sq 1 6) = Ok (pc pawn white))
    by (vm_compute; reflexivity).
  assert (Hempty : at_ (board (stateAfter pawnOnG7Game).2) (pushSquare white (sq 1 6))
                   = Ok Null) by (vm_compute; reflexivity).
  assert (Hms : getKingMoves (board (stateAfter pawnOnG7Game).2) (sq 0 4) black
                  (castlingRights (stateAfter pawnOnG7Game).2) = Ok [sq 0 5])
    by (vm_compute; reflexivity).
  destruct (push_square_scan_and_castling (board (stateAfter pawnOnG7Game).2) (sq 1 6) white
              Hb eq_refl Hat eq_refl) as [Hpush _].
  destruct (Hpush Hempty) as [Hscan Hcastle].
  split; [exact Hscan|]. split; [vm_compute; reflexivity|].
  split; [vm_compute; reflexivity|].
  exists [sq 0 5]. split; [exact Hms|]. split; [in_list|].
  apply (Hcastle _ [sq 0 5] 6 Hms eq_refl). in_list.
Defined.

(** After 1.a4 e6 2.Nf3 Ke7 3.Ng1 Kd6 4.Nf3 Kc5 5.Ng1 Kb6 6.Nf3 the
    square a5 in front of the white pawn on a4 is empty and counts as
    attacked by white; the black king on b6 may move onto it all the
    same, the move is accepted and black is not in check afterwards. *)
Lemma king_steps_onto_push_square :
  at_ (board (stateAfter kingWalkGame).2) (sq 4 0) = Ok (pc pawn white) ∧
  at_ (board (stateAfter kingWalkGame).2) (sq 3 0) = Ok Null ∧
  at_ (board (stateAfter kingWalkGame).2) (sq 2 1) = Ok (kingOf black) ∧
  isSquareAttacked (board (stateAfter kingWalkGame).2) (sq 3 0) white = Ok true ∧
  ∃ ms h' s',
    getPossibleMoves (board (stateAfter kingWalkGame).2) (sq 2 1)
      (stateAfter kingWalkGame).2 = Ok ms ∧
    sq 3 0 ∈ ms ∧
    makeMove 0 (stateAfter kingWalkGame).1 (stateAfter kingWalkGame).2 (sq 2 1) (sq 3 0)
      = Ok (h', Some s') ∧
    at_ (board s') (sq 3 0) = Ok (kingOf black) ∧
    isInCheck (board s') black = Ok false.
Proof.
  split; [vm_compute; reflexivity|]. split; [vm_compute; reflexivity|].
  split; [vm_compute; reflexivity|]. split; [vm_compute; reflexivity|].
  do 3 eexists.
  split; [vm_compute; reflexivity|].
  split; [apply list_elem_of_In; simpl; tauto|].
  split; [vm_compute; reflexivity|].
  split; vm_compute; reflexivity.
Defined.
